(** * Kunstlotteri: the Vipps report pipeline of [app.py]

    A shallow embedding of the ingestion-and-aggregation code of [app.py]
    (header location, row filter, artwork extraction, name resolution,
    aggregation per artwork and buyer, ticket counts, per-artwork views)
    and the properties of it that the specification states.

    Conventions of the embedding.
    - Text is a [string] whose characters are read as the code points
      U+0000..U+00FF (Latin-1, which has the Norwegian letters).  The
      classes [\s], [\w], [\b] of [re], [str.strip], [str.lower] and the
      case-insensitive comparison are those of Python on that range.
    - Amounts are the finite values of binary64 ([float64]), each held as
      the rational [Q] that it denotes.  A sum and a quotient are rounded
      to binary64 as the hardware rounds them ([Num.float64]); [math.floor],
      [%] compared with zero and [round] are exact on such values; the
      cast to [int] is the one to int64.  Infinities and NaN, which the
      amounts of a report do not reach, have no counterpart.  (A column
      of whole numbers only is held by pandas as int64 and added exactly,
      which is the same sum as long as it stays within 2^53.)
    - A spreadsheet cell is text, a number or empty (NaN).  The two
      conversions of numbers that Python and pandas own, [str] of a number
      and the parsing of a numeric text, are parameters of the embedding. *)

From Stdlib Require Import ZArith QArith Qround Qabs Qpower Lqa Ascii String.
From stdpp Require Import gmap strings list sorting.

Local Open Scope string_scope.

(** ** Characters and text *)

Module Text.

Definition code (c : ascii) : N := N_of_ascii c.

Definition between (lo hi : N) (c : ascii) : bool :=
  ((lo <=? code c) && (code c <=? hi))%N.

Definition is_code (n : N) (c : ascii) : bool := (code c =? n)%N.

(** [str.isspace], also the class [\s] of a [str] pattern. *)
Definition is_space (c : ascii) : bool :=
  between 9 13 c || between 28 32 c || is_code 133 c || is_code 160 c.

Definition is_ascii_upper (c : ascii) : bool := between 65 90 c.
Definition is_ascii_lower (c : ascii) : bool := between 97 122 c.

(** The class [[A-Z]] under [re.IGNORECASE]. *)
Definition is_ascii_letter (c : ascii) : bool :=
  is_ascii_upper c || is_ascii_lower c.

(** The class [\w] of a [str] pattern: [str.isalnum] or the underscore. *)
Definition is_word (c : ascii) : bool :=
  between 48 57 c || is_ascii_letter c || is_code 95 c
  || is_code 170 c || between 178 179 c || is_code 181 c
  || between 185 186 c || between 188 190 c
  || between 192 214 c || between 216 246 c || between 248 255 c.

(** [str.lower] on one character. *)
Definition lower (c : ascii) : ascii :=
  if is_ascii_upper c || between 192 214 c || between 216 222 c
  then ascii_of_N (code c + 32) else c.

(** [str.upper] on one character of [[A-Za-z]]; the code applies it to
    the captured letter only. *)
Definition upper (c : ascii) : ascii :=
  if is_ascii_lower c then ascii_of_N (code c - 32) else c.

Fixpoint lower_str (s : string) : string :=
  match s with
  | EmptyString => EmptyString
  | String c s' => String (lower c) (lower_str s')
  end.

Fixpoint lstrip (s : string) : string :=
  match s with
  | EmptyString => EmptyString
  | String c s' => if is_space c then lstrip s' else s
  end.

Fixpoint rstrip (s : string) : string :=
  match s with
  | EmptyString => EmptyString
  | String c s' =>
      match rstrip s' with
      | EmptyString => if is_space c then EmptyString else String c EmptyString
      | r => String c r
      end
  end.

(** [str.strip()] *)
Definition strip (s : string) : string := lstrip (rstrip s).

(** [s.split(" ")[0]]: the text before the first U+0020. *)
Fixpoint first_token (s : string) : string :=
  match s with
  | EmptyString => EmptyString
  | String c s' => if is_code 32 c then EmptyString else String c (first_token s')
  end.

(** Truth value of a [str]: non-empty. *)
Definition nonempty (s : string) : bool :=
  match s with EmptyString => false | _ => true end.

(** ["\n".join(l)] and friends. *)
Fixpoint join (sep : string) (l : list string) : string :=
  match l with
  | [] => EmptyString
  | [x] => x
  | x :: l' => x +:+ sep +:+ join sep l'
  end.

End Text.

(** ** Regular expressions of the code, on lists of characters *)

Module Regex.
Import Text.

Definition chars (s : string) : list ascii := list_ascii_of_string s.

(** A pattern character matches a text character under [re.IGNORECASE]. *)
Definition ci_eqb (p c : ascii) : bool := Ascii.eqb (lower p) (lower c).

(** Match the literal [p], ignoring case, at the start of [s]: the matched
    text and the rest. *)
Fixpoint ci_split (p s : list ascii) : option (list ascii * list ascii) :=
  match p, s with
  | [], _ => Some ([], s)
  | a :: p', c :: s' =>
      if ci_eqb a c
      then match ci_split p' s' with
           | Some (w, r) => Some (c :: w, r)
           | None => None
           end
      else None
  | _ :: _, [] => None
  end.

Definition word_opt (o : option ascii) : bool :=
  match o with Some c => is_word c | None => false end.

(** [\b] between the character [before] and the character [after]
    (absent at the ends of the text). *)
Definition at_boundary (before after : option ascii) : bool :=
  xorb (word_opt before) (word_opt after).

(** [\bp\b] at the start of [s], the character before [s] being [prev]. *)
Definition word_here (p : list ascii) (prev : option ascii) (s : list ascii) : bool :=
  at_boundary prev (head s)
  && match ci_split p s with
     | Some (w, r) => at_boundary (from_option Some prev (last w)) (head r)
     | None => false
     end.

(** [re.search(r"\bp\b", s, re.IGNORECASE)] finds a match. *)
Fixpoint word_search (p : list ascii) (prev : option ascii) (s : list ascii) : bool :=
  word_here p prev s
  || match s with
     | [] => false
     | c :: s' => word_search p (Some c) s'
     end.

(** [re.search(p, s, re.IGNORECASE)] finds a match, [p] a literal. *)
Fixpoint ci_contains (p s : list ascii) : bool :=
  match ci_split p s with
  | Some _ => true
  | None => match s with
            | [] => false
            | _ :: s' => ci_contains p s'
            end
  end.

(** [\s*]: greedy, and what follows it in the patterns of the code is
    never a space, so no shorter run can match. *)
Fixpoint skip_space (s : list ascii) : list ascii :=
  match s with
  | c :: s' => if is_space c then skip_space s' else s
  | [] => []
  end.

(** [lodd\s*bilde\s*([A-Z])] at the start of [s]: the captured letter. *)
Definition bilde_here (s : list ascii) : option ascii :=
  match ci_split (chars "lodd") s with
  | Some (_, r1) =>
      match ci_split (chars "bilde") (skip_space r1) with
      | Some (_, r2) =>
          match skip_space r2 with
          | c :: _ => if is_ascii_letter c then Some c else None
          | [] => None
          end
      | None => None
      end
  | None => None
  end.

(** [BILDE_RE.search(s)]: group 1 of the leftmost match. *)
Fixpoint bilde_search (s : list ascii) : option ascii :=
  match bilde_here s with
  | Some c => Some c
  | None => match s with
            | [] => None
            | _ :: s' => bilde_search s'
            end
  end.

(** *** What the searches decide, stated on the text *)

(** [w] is the literal [p] up to the case of its letters. *)
Definition ci_equal (w p : list ascii) : Prop := map lower w = map lower p.

(** The text [s], preceded by the character [prev], has an occurrence of
    [p] (up to case) with no word character right before or after it. *)
Definition whole_word_from (p : list ascii) (prev : option ascii) (s : list ascii) : Prop :=
  exists pre w post,
    s = (pre ++ w ++ post)%list /\ ci_equal w p
    /\ word_opt (from_option Some prev (last pre)) = false
    /\ word_opt (head post) = false.

Definition whole_word (p s : list ascii) : Prop := whole_word_from p None s.

Definition all_space (w : list ascii) : Prop := Forall (fun c => is_space c = true) w.

(** The pattern [lodd\s*bilde\s*([A-Z])] matches in [s] at offset [n] and
    captures [c]. *)
Definition bilde_at (s : list ascii) (n : nat) (c : ascii) : Prop :=
  exists pre L w1 B w2 post,
    s = (pre ++ L ++ w1 ++ B ++ w2 ++ c :: post)%list /\ length pre = n
    /\ ci_equal L (chars "lodd") /\ all_space w1
    /\ ci_equal B (chars "bilde") /\ all_space w2
    /\ is_ascii_letter c = true.

End Regex.

(** ** Cells, rows and tables *)

(** What [pd.read_excel] puts in a cell. *)
Inductive cell : Type :=
| CStr (s : string)
| CNum (x : Q)
| CNaN.

(** A row of a frame ([pd.Series] indexed by the column labels): every
    column of the frame has an entry, [CNaN] where the sheet is empty. *)
Abbreviation Series := (gmap string cell).

Record DataFrame : Type := {
  columns : list string;
  rows : list Series
}.

(** [row.get(k, dflt)] *)
Definition get (row : Series) (k : string) (dflt : cell) : cell :=
  default dflt (row !! k).

(** [df[k]] at one row; an entry that the row lacks reads as NaN. *)
Definition cell_at (row : Series) (k : string) : cell := get row k CNaN.

(** A row of [df_lodd], and of the frame that [groupby] returns. *)
Record LoddRow : Type := {
  Bilde : string;
  Navn : string;
  Brutto : Q
}.

(** A row of [agg]: the grouped row and the two computed columns. *)
Record AggRow : Type := {
  entry :> LoddRow;
  Lodd_raw : Q;
  Lodd : Z
}.

(** A row of [sub]: a row of [agg] and the clamped column. *)
Record SubRow : Type := {
  agg_row :> AggRow;
  Lodd_clamped : Z
}.

(** The settings expander.  [loddpris] comes from
    [st.number_input(min_value=1, value=20, step=1)]: an [int], at least 1. *)
Inductive navnformat : Type := Fullt_navn | Kun_fornavn.

Record settings : Type := {
  loddpris : Z;
  name_mode : navnformat;
  round_down : bool
}.

(** What one tab of the page shows for an artwork (but for the metric
    of the amounts, a sum of numpy over [sub]). *)
Record Tab : Type := {
  bilde : string;
  sub : list SubRow;
  total_lodd : Z;
  buyers : Z;
  wheel_names : list string;
  wheel_text : string;
  top10 : list SubRow
}.

(** How a run of the script ends: [st.error] or [st.warning] followed by
    [st.stop()], or the page with the aggregate. *)
Inductive outcome : Type :=
| Stop_error (msg : string)
| Stop_warning (msg : string)
| Rendered (agg : list AggRow) (non_multiple : list AggRow) (tabs : list Tab).

(** ** Numbers *)

Module Num.

(** The sum of numbers, exactly. *)
Definition Qsum (l : list Q) : Q := foldr Qplus 0%Q l.

Definition Zsum (l : list Z) : Z := foldr Z.add 0%Z l.

(** [x % p] of Python and numpy for [p > 0]: the remainder has the sign
    of the divisor. *)
Definition Qmod (x p : Q) : Q := (x - p * inject_Z (Qfloor (x / p)))%Q.

(** [Series.round()] (numpy [rint]): to the nearest integer, a tie to
    the even one. *)
Definition round_half_even (x : Q) : Z :=
  let f := Qfloor x in
  match (x - inject_Z f ?= 1 # 2)%Q with
  | Lt => f
  | Gt => (f + 1)%Z
  | Eq => if Z.even f then f else (f + 1)%Z
  end.

(** *** binary64 *)

Definition pow2 (e : Z) : Q := Qpower 2 e.

(** The integer [k] with [2^k <= |x| < 2^(k+1)], for [x] other than 0. *)
Definition ilog2 (x : Q) : Z :=
  let k := (Z.log2 (Z.abs (Qnum x)) - Z.log2 (Z.pos (Qden x)))%Z in
  if Qle_bool (pow2 k) (Qabs x) then k else (k - 1)%Z.

(** The exponent of the last of the 53 bits of the binary64 values around
    [x]; the subnormal values stop at [2^-1074]. *)
Definition fexp (x : Q) : Z := Z.max (ilog2 x - 52) (-1074).

(** The value of binary64 nearest to [x], a tie going to the even
    significand: what a [float] operation with the exact result [x]
    returns, short of an overflow. *)
Definition float64 (x : Q) : Q :=
  let r := Qred x in
  let e := fexp r in
  (inject_Z (round_half_even (r * pow2 (- e))) * pow2 e)%Q.

(** The largest value of binary64. *)
Definition max_float64 : Q := (inject_Z (2 ^ 53 - 1) * pow2 971)%Q.

(** [x] is a finite value of binary64. *)
Definition is_float64 (x : Q) : Prop :=
  (float64 x == x)%Q /\ (Qabs x <= max_float64)%Q.

(** The sum of a group of [float64] in [groupby(...).agg("sum")]: pandas
    adds the values of a group in the order of the rows, with a running
    compensation (Kahan):
    [y = val - compensation; t = sumx + y;
     compensation = t - sumx - y; sumx = t],
    each operation being one of binary64. *)
Definition group_sum_step (acc : Q * Q) (val : Q) : Q * Q :=
  let y := float64 (val - acc.2) in
  let t := float64 (acc.1 + y) in
  (t, float64 (float64 (t - acc.1) - y)).

Definition group_sum (vals : list Q) : Q :=
  (fold_left group_sum_step vals (0%Q, 0%Q)).1.

(** [.astype(int)] of an integral [float64]: the value when it is in the
    range of int64, and the least int64 when it is not (the conversion
    of x86-64, which numpy leaves to the hardware). *)
Definition astype_int (z : Z) : Z :=
  if ((- 2 ^ 63 <=? z) && (z <? 2 ^ 63))%Z then z else (- 2 ^ 63)%Z.

End Num.

(** ** Orders used by [groupby], [sorted] and [sort_values] *)

Module Order.

(** [<=] of [str]: by code points. *)
Definition str_le (a b : string) : Prop := String.leb a b = true.

#[global] Instance str_le_dec : RelDecision str_le :=
  fun a b => decide (String.leb a b = true).

(** Order of the group keys [(Bilde, Navn)]. *)
Definition key_leb (k1 k2 : string * string) : bool :=
  match String.compare k1.1 k2.1 with
  | Lt => true
  | Gt => false
  | Eq => String.leb k1.2 k2.2
  end.

Definition key_le (k1 k2 : string * string) : Prop := key_leb k1 k2 = true.

#[global] Instance key_le_dec : RelDecision key_le :=
  fun k1 k2 => decide (key_leb k1 k2 = true).

(** [sort_values(["Lodd", "Navn"], ascending=[False, True])] *)
Definition sub_leb (a b : AggRow) : bool :=
  match (Lodd a ?= Lodd b)%Z with
  | Gt => true
  | Lt => false
  | Eq => String.leb (Navn a) (Navn b)
  end.

Definition sub_le (a b : AggRow) : Prop := sub_leb a b = true.

#[global] Instance sub_le_dec : RelDecision sub_le :=
  fun a b => decide (sub_leb a b = true).

End Order.

(** ** The functions of [app.py] that do not read cells *)

Import Text Regex Num Order.

Definition newline : string := String (ascii_of_N 10) EmptyString.

(** [s.lower() != "nan"] *)
Definition not_nan (s : string) : bool := negb (String.eqb (lower_str s) "nan").

(** [extract_bilde(salgssted)] *)
Definition extract_bilde (salgssted : string) : option string :=
  if negb (nonempty salgssted) || String.eqb (lower_str salgssted) "nan"
  then None
  else match bilde_search (chars salgssted) with
       | Some c => Some (String (upper c) EmptyString)
       | None => None
       end.

(** A trimmed field holds a value: it is not empty and not "nan" in any
    case of the letters. *)
Definition present (s : string) : Prop := s <> "" /\ lower_str s <> "nan".

(** The lambda applied to [Navn] when [name_mode == "Kun fornavn"]. *)
Definition kun_fornavn (s : string) : string :=
  if nonempty (strip s) then first_token (strip s) else "Ukjent".

Definition key (r : LoddRow) : string * string := (Bilde r, Navn r).

Definition has_key (k : string * string) (r : LoddRow) : bool :=
  bool_decide (key r = k).

(** [df_lodd.groupby(["Bilde", "Navn"], as_index=False).agg(Brutto=("Brutto", "sum"))]:
    one row per key, the keys sorted, the amounts of a key summed in the
    order of the rows. *)
Definition group_keys (df_lodd : list LoddRow) : list (string * string) :=
  merge_sort key_le (remove_dups (map key df_lodd)).

Definition group_row (df_lodd : list LoddRow) (k : string * string) : LoddRow :=
  {| Bilde := k.1; Navn := k.2;
     Brutto := group_sum (map Brutto (List.filter (has_key k) df_lodd)) |}.

Definition groupby_sum (df_lodd : list LoddRow) : list LoddRow :=
  map (group_row df_lodd) (group_keys df_lodd).

(** [int(math.floor(v))], or [.round().astype(int)].  The floor is an
    [int] of Python, of any size; one that does not fit int64 makes the
    [.astype(int)] that follows raise, and the run ends there. *)
Definition lodd_of (round_down : bool) (raw : Q) : Z :=
  if round_down then Qfloor raw else astype_int (round_half_even raw).

(** [agg] with its columns [Lodd_raw] and [Lodd].  [float(loddpris)] is
    the price itself: the number input keeps an [int] within 2^53. *)
Definition agg_row_of (cfg : settings) (e : LoddRow) : AggRow :=
  let raw := float64 (Brutto e / inject_Z (loddpris cfg)) in
  {| entry := e; Lodd_raw := raw; Lodd := lodd_of (round_down cfg) raw |}.

Definition agg_of (cfg : settings) (df_lodd : list LoddRow) : list AggRow :=
  map (agg_row_of cfg) (groupby_sum df_lodd).

(** The mask [(agg["Brutto"] % float(loddpris)) != 0]. *)
Definition is_non_multiple (cfg : settings) (a : AggRow) : bool :=
  negb (Qeq_bool (Qmod (Brutto a) (inject_Z (loddpris cfg))) 0).

Definition non_multiple_of (cfg : settings) (agg : list AggRow) : list AggRow :=
  List.filter (is_non_multiple cfg) agg.

(** [sorted(agg["Bilde"].unique().tolist())] *)
Definition bilder_of (agg : list AggRow) : list string :=
  merge_sort str_le (remove_dups (map (fun a : AggRow => Bilde a) agg)).

(** The rows of [agg] for one artwork, and the new column of [sub]. *)
Definition group_of (agg : list AggRow) (b : string) : list AggRow :=
  List.filter (fun a : AggRow => String.eqb (Bilde a) b) agg.

Definition clamp (a : AggRow) : SubRow :=
  {| agg_row := a; Lodd_clamped := Z.max (Lodd a) 0 |}.

(** [sub]: the rows of one artwork, sorted, with [Lodd_clamped]. *)
Definition sub_of (agg : list AggRow) (b : string) : list SubRow :=
  map clamp (merge_sort sub_le (group_of agg b)).

(** The loop that fills [wheel_names]. *)
Definition wheel_names_of (sub : list SubRow) : list string :=
  flat_map (fun r => if (Lodd_clamped r <=? 0)%Z then []
                     else replicate (Z.to_nat (Lodd_clamped r)) (Navn r)) sub.

(** The mask [sub["Lodd_clamped"] > 0]. *)
Definition has_lodd (r : SubRow) : bool := (0 <? Lodd_clamped r)%Z.

(** [sub[sub["Lodd_clamped"] > 0].head(10)] *)
Definition top10_of (sub : list SubRow) : list SubRow :=
  take 10 (List.filter has_lodd sub).

(** How often the name [n] is in a list of names. *)
Definition occurrences (n : string) (l : list string) : nat :=
  length (List.filter (String.eqb n) l).

(** The order of the ticket list: more tickets first, and among rows with
    as many tickets the smaller name first. *)
Definition ticket_order (r1 r2 : SubRow) : Prop :=
  (Lodd_clamped r2 < Lodd_clamped r1)%Z
  \/ (Lodd_clamped r1 = Lodd_clamped r2 /\ String.compare (Navn r1) (Navn r2) = Lt).

(** The order in which [sort_values] leaves the rows of [sub], whose
    names are distinct: the larger [Lodd] first, and among rows with the
    same [Lodd] the smaller name first. *)
Definition sub_order (r1 r2 : SubRow) : Prop :=
  (Lodd r2 < Lodd r1)%Z
  \/ (Lodd r1 = Lodd r2 /\ String.compare (Navn r1) (Navn r2) = Lt).

(** The body of [for tab, bilde in zip(tabs, bilder)]. *)
Definition tab_of (agg : list AggRow) (b : string) : Tab :=
  let sub := sub_of agg b in
  {| bilde := b;
     sub := sub;
     total_lodd := Zsum (map Lodd_clamped sub);
     buyers := Z.of_nat (length (List.filter has_lodd sub));
     wheel_names := wheel_names_of sub;
     wheel_text := join newline (wheel_names_of sub);
     top10 := top10_of sub |}.

(** [required_cols]; a Python set, iterated in an order of its own, here
    in the order of the source text. *)
Definition required_cols : list string := ["Salgssted"; "Transaksjonstype"; "Brutto"].

Definition missing_of (df : DataFrame) : list string :=
  List.filter (fun c => negb (bool_decide (c ∈ columns df))) required_cols.

(** [repr] of a list of [str] without quotes or escapes in them, as
    the f-string prints [missing]. *)
Definition repr_list (l : list string) : string :=
  "[" +:+ join ", " (map (fun c => "'" +:+ c +:+ "'") l) +:+ "]".

Definition missing_message (missing : list string) : string :=
  "Mangler forventede kolonner i rapporten: " +:+ repr_list missing.

(** The text [c] occurs in the text [msg]. *)
Definition is_substring (c msg : string) : Prop :=
  exists pre post, msg = pre +:+ c +:+ post.

Definition no_rows_message : string :=
  "Fant ingen lodd-rader (Transaksjonstype='Salg' og Salgssted inneholder 'Lodd bilde').".

(** ** The functions of [app.py] that read cells *)

Section Pandas.

(** [str(x)] for a number [x], and the number that [pd.to_numeric] reads
    from a text, if any. *)
Variable num_str : Q -> string.
Variable parse_number : string -> option Q.

(** [str(c)], [astype(str)] *)
Definition py_str (c : cell) : string :=
  match c with
  | CStr s => s
  | CNum x => num_str x
  | CNaN => "nan"
  end.

(** [pd.to_numeric(c, errors="coerce")]: [None] is NaN. *)
Definition to_numeric (c : cell) : option Q :=
  match c with
  | CStr s => parse_number s
  | CNum x => Some x
  | CNaN => None
  end.

Definition fillna (d : Q) (o : option Q) : Q := default d o.

(** [row.str.contains(r"\bSalgssted\b", case=False, na=False).any()] for
    [row = raw.iloc[i].astype(str)] *)
Definition has_Salgssted (row : list cell) : bool :=
  existsb (fun c => word_search (chars "Salgssted") None (chars (py_str c))) row.

(** Some cell of the row, as text, has the marker as a whole word. *)
Definition row_matches (row : list cell) : Prop :=
  exists c, c ∈ row /\ whole_word (chars "Salgssted") (chars (py_str c)).

(** [find_header_row(raw)] *)
Definition find_header_row (raw : list (list cell)) : option nat :=
  fst <$> list_find (fun row => has_Salgssted row = true)
                    (take (min (length raw) 200) raw).

(** [str(row.get(k, "")).strip()] *)
Definition field (row : Series) (k : string) : string :=
  strip (py_str (get row k (CStr ""))).

(** [build_full_name(row)] *)
Definition build_full_name (row : Series) : string :=
  let fn := field row "Fornavn" in
  let en := field row "Etternavn" in
  if nonempty fn && not_nan fn
  then if nonempty en && not_nan en then strip (fn +:+ " " +:+ en) else fn
  else
    let msg := field row "Melding" in
    if nonempty msg && not_nan msg then msg else "Ukjent".

(** The mask that selects [df_lodd] from [df]. *)
Definition is_lodd_row (row : Series) : bool :=
  String.eqb (lower_str (strip (py_str (cell_at row "Transaksjonstype")))) "salg"
  && ci_contains (chars "Lodd bilde") (chars (py_str (cell_at row "Salgssted"))).

Definition navn_of (mode : navnformat) (row : Series) : string :=
  match mode with
  | Fullt_navn => build_full_name row
  | Kun_fornavn => kun_fornavn (build_full_name row)
  end.

(** One selected row with its columns [Bilde], [Brutto] and [Navn];
    [None] when [Bilde] is null and the row is dropped. *)
Definition tag_row (mode : navnformat) (row : Series) : option LoddRow :=
  match extract_bilde (py_str (cell_at row "Salgssted")) with
  | Some b => Some {| Bilde := b;
                      Navn := navn_of mode row;
                      Brutto := fillna 0 (to_numeric (cell_at row "Brutto")) |}
  | None => None
  end.

(** The script from [required_cols] on, for the frame [df] that
    [read_vipps_report] returned. *)
Definition run (cfg : settings) (df : DataFrame) : outcome :=
  let missing := missing_of df in
  match missing with
  | _ :: _ => Stop_error (missing_message missing)
  | [] =>
      match List.filter is_lodd_row (rows df) with
      | [] => Stop_warning no_rows_message
      | selected =>
          let df_lodd := omap (tag_row (name_mode cfg)) selected in
          let agg := agg_of cfg df_lodd in
          Rendered agg (non_multiple_of cfg agg) (map (tab_of agg) (bilder_of agg))
      end
  end.

End Pandas.

(** ** Reading the report *)

(** A frame as [pd.read_excel] gives it: the column labels, of any cell
    type, and the rows by position. *)
Record Sheet : Type := {
  labels : list cell;
  body : list (list cell)
}.

(** The frame that [read_vipps_report] returns: its labels are text. *)
Record Report : Type := {
  names : list string;
  records : list (list cell)
}.

(** The label [l] is the text [k]. *)
Definition is_label (k : string) (l : cell) : bool :=
  match l with
  | CStr s => String.eqb s k
  | _ => false
  end.

(** [row.get(k, dflt)] for a row [row] of a frame with the labels [ls];
    the labels that [read_excel] makes are distinct. *)
Fixpoint get_at (ls : list cell) (row : list cell) (k : string) (dflt : cell) : cell :=
  match ls, row with
  | l :: ls', c :: row' => if is_label k l then c else get_at ls' row' k dflt
  | _, _ => dflt
  end.

(** The message of the [ValueError] of [read_vipps_report]. *)
Definition header_error : string :=
  "Fant ikke header-raden (kolonnen 'Salgssted'). Er dette riktig Vipps-rapport?".

(** The rows of a report by label, as the script reads them; a label
    that the script reads is taken to occur once among the labels. *)
Definition frame_of (r : Report) : DataFrame :=
  {| columns := names r;
     rows := map (fun row => list_to_map (zip (names r) row)) (records r) |}.

(** The text [s] has no U+0020 in it. *)
Definition no_blank (s : string) : Prop :=
  Forall (fun c => is_code 32 c = false) (chars s).

(** The artwork [b] is one upper-case letter of A-Z. *)
Definition is_letter_id (b : string) : Prop :=
  exists u, b = String u EmptyString /\ is_ascii_upper u = true.

(** A whole number. *)
Definition is_whole (x : Q) : Prop := exists z : Z, (x == inject_Z z)%Q.

(** The amounts of [df_lodd] are whole numbers whose sizes add up to no
    more than 2^52. *)
Definition whole_amounts (df_lodd : list LoddRow) : Prop :=
  Forall (fun r => is_whole (Brutto r)) df_lodd
  /\ (Qsum (map (fun r => Qabs (Brutto r)) df_lodd) <= inject_Z (2 ^ 52))%Q.

(** Two rows of [agg] agree in all but the way their amounts are written
    as fractions. *)
Definition same_row (a b : AggRow) : Prop :=
  key a = key b /\ (Brutto a == Brutto b)%Q /\ (Lodd_raw a == Lodd_raw b)%Q
  /\ Lodd a = Lodd b.

Section Reading.

Variable num_str : Q -> string.
Variable parse_number : string -> option Q.

(** The test [len(df) > 0 and
    str(df.iloc[0].get("Salgssted", "")).strip().lower() == "salgssted"] *)
Definition repeats_header (df : Sheet) : bool :=
  match body df with
  | [] => false
  | row0 :: _ =>
      String.eqb
        (lower_str (strip (py_str num_str (get_at (labels df) row0 "Salgssted" (CStr "")))))
        "salgssted"
  end.

(** [read_vipps_report] from the second [read_excel] on: the first row
    becomes the labels when it repeats the header, and the labels are made
    text and trimmed. *)
Definition normalize (df : Sheet) : Report :=
  let df' := match body df with
             | row0 :: rest =>
                 if repeats_header df then {| labels := row0; body := rest |} else df
             | [] => df
             end in
  {| names := map (fun c => strip (py_str num_str c)) (labels df');
     records := body df' |}.

(** [read_vipps_report(uploaded_file)]: [raw] is what
    [pd.read_excel(uploaded_file, header=None)] gives and [reread h] what
    [pd.read_excel(uploaded_file, header=h)] gives; [inl] is the message
    of the [ValueError]. *)
Definition read_vipps_report (raw : list (list cell)) (reread : nat -> Sheet)
  : string + Report :=
  match find_header_row num_str raw with
  | None => inl header_error
  | Some header_row => inr (normalize (reread header_row))
  end.

(** The script from the upload on: [except Exception as e] shows
    [str(e)] and stops. *)
Definition script (cfg : settings) (raw : list (list cell)) (reread : nat -> Sheet)
  : outcome :=
  match read_vipps_report raw reread with
  | inl e => Stop_error e
  | inr r => run num_str parse_number cfg (frame_of r)
  end.

End Reading.

(** ** The specification's wording, where it is compared with the code *)

Module Spec.

(** Name resolution as section 4.4 words it: a field counts unless it is
    empty after trimming or the literal text "nan"; the message is used
    verbatim. *)
Definition resolved_name (fornavn etternavn melding : string) : string :=
  let fn := strip fornavn in
  let en := strip etternavn in
  if nonempty fn && negb (String.eqb fn "nan")
  then if nonempty en && negb (String.eqb en "nan") then fn +:+ " " +:+ en else fn
  else if nonempty (strip melding) && negb (String.eqb (strip melding) "nan")
       then melding
       else "Ukjent".

(** The pattern of section 4.3 at the start of [s]: the literal phrase,
    then whitespace, then one letter. *)
Definition letter_here (s : list ascii) : option ascii :=
  match ci_split (chars "lodd bilde") s with
  | Some (_, c :: r) =>
      if is_space c
      then match skip_space r with
           | l :: _ => if is_ascii_letter l then Some l else None
           | [] => None
           end
      else None
  | _ => None
  end.

Fixpoint letter_search (s : list ascii) : option ascii :=
  match letter_here s with
  | Some l => Some l
  | None => match s with
            | [] => None
            | _ :: s' => letter_search s'
            end
  end.

(** The artwork identifier of section 4.3: case-insensitive match, the
    letter uppercased. *)
Definition artwork_id (salgssted : string) : option string :=
  match letter_search (chars salgssted) with
  | Some l => Some (String (upper l) EmptyString)
  | None => None
  end.

(** The tolerance of section 9. *)
Definition epsilon : Q := 1 # 1000000.

Definition Qltb (x y : Q) : bool := negb (Qle_bool y x).

(** [is_non_exact_multiple] with the tolerance of section 9: a remainder
    within [epsilon] of zero or of the unit price counts as exact. *)
Definition is_non_exact_multiple (summed_gross unit_price : Q) : bool :=
  let remainder := Qmod summed_gross unit_price in
  negb (Qltb (Qabs remainder) epsilon
        || Qltb (Qabs (remainder - unit_price)) epsilon).

(** The order of section 4.5 between an entry and a later one of the
    same artwork: by clamped ticket count descending, then by name
    ascending. *)
Definition presentation_order (r1 r2 : SubRow) : Prop :=
  (Lodd_clamped r2 < Lodd_clamped r1)%Z
  \/ (Lodd_clamped r1 = Lodd_clamped r2 /\ str_le (Navn r1) (Navn r2)).

End Spec.

(** * Properties *)

Local Open Scope list_scope.

(** ** Characters *)

Module TextFacts.

Ltac by_cases_on c := destruct c as [[] [] [] [] [] [] [] []]; vm_compute; intuition congruence.

Lemma is_word_lower c : is_word (lower c) = is_word c.
Proof. by_cases_on c. Qed.

Lemma space_not_letter c : is_space c = true -> is_ascii_letter c = false.
Proof. by_cases_on c. Qed.

Lemma upper_is_upper c : is_ascii_letter c = true -> is_ascii_upper (upper c) = true.
Proof. by_cases_on c. Qed.

End TextFacts.

(** ** Regular expressions *)

Module RegexFacts.
Import TextFacts.

Lemma ci_eqb_true a c : ci_eqb a c = true <-> lower a = lower c.
Proof. unfold ci_eqb. apply Ascii.eqb_eq. Qed.

Lemma ci_equal_length w p : ci_equal w p -> length w = length p.
Proof.
  unfold ci_equal. intros H.
  rewrite <- (length_map lower w), <- (length_map lower p). now rewrite H.
Qed.

Lemma ci_split_sound p : forall s w r,
  ci_split p s = Some (w, r) -> s = w ++ r /\ ci_equal w p.
Proof.
  induction p as [|a p IH]; intros s w r; simpl.
  - intros [= <- <-]. now split.
  - destruct s as [|c s]; [discriminate|].
    destruct (ci_eqb a c) eqn:E; [|discriminate].
    destruct (ci_split p s) as [[w' r']|] eqn:E2; [|discriminate].
    intros [= <- <-]. apply IH in E2 as [-> Hw].
    apply ci_eqb_true in E. split; [reflexivity|].
    unfold ci_equal in *. simpl. now rewrite E, Hw.
Qed.

Lemma ci_split_complete p : forall w r,
  ci_equal w p -> ci_split p (w ++ r) = Some (w, r).
Proof.
  induction p as [|a p IH]; intros w r Hw.
  - destruct w; [reflexivity|discriminate Hw].
  - destruct w as [|c w]; [discriminate Hw|].
    unfold ci_equal in Hw. simpl in Hw. injection Hw as Hc Hw.
    simpl. replace (ci_eqb a c) with true by (symmetry; now apply ci_eqb_true).
    now rewrite (IH w r Hw).
Qed.

Lemma ci_equal_head w p : ci_equal w p -> word_opt (head w) = word_opt (head p).
Proof.
  destruct w as [|c w], p as [|a p]; try discriminate; [reflexivity|].
  unfold ci_equal. simpl. intros [= Hc _].
  now rewrite <- (is_word_lower c), <- (is_word_lower a), Hc.
Qed.

Lemma ci_equal_last : forall w p,
  ci_equal w p -> word_opt (last w) = word_opt (last p).
Proof.
  induction w as [|c w IH]; intros [|a p]; try discriminate; [reflexivity|].
  unfold ci_equal. simpl map. intros [= Hc Hw].
  destruct w as [|c' w], p as [|a' p]; try discriminate.
  - simpl. now rewrite <- (is_word_lower c), <- (is_word_lower a), Hc.
  - apply (IH (a' :: p)). exact Hw.
Qed.

Section WholeWord.

Variable p : list ascii.
Hypothesis p_head : word_opt (head p) = true.
Hypothesis p_last : word_opt (last p) = true.

Lemma word_here_spec prev s :
  word_here p prev s = true <->
  exists w r, s = w ++ r /\ ci_equal w p
              /\ word_opt prev = false /\ word_opt (head r) = false.
Proof.
  unfold word_here. destruct (ci_split p s) as [[w r]|] eqn:E.
  - apply ci_split_sound in E as [-> Hw].
    pose proof (ci_equal_head _ _ Hw) as Hh. rewrite p_head in Hh.
    pose proof (ci_equal_last _ _ Hw) as Hl. rewrite p_last in Hl.
    assert (Hhd : word_opt (head (w ++ r)) = true).
    { destruct w; [discriminate Hh|exact Hh]. }
    assert (Hls : word_opt (from_option Some prev (last w)) = true).
    { destruct (last w); [exact Hl|discriminate Hl]. }
    unfold at_boundary. rewrite Hhd, Hls.
    split.
    + intros H. apply andb_true_iff in H as [H1 H2].
      exists w, r. repeat split; try assumption.
      * now destruct (word_opt prev).
      * now destruct (word_opt (head r)).
    + intros (w' & r' & Heq & Hw' & Hp & Hr).
      assert (w' = w /\ r' = r) as [-> ->].
      { apply ci_split_complete with (r := r') in Hw'.
        apply ci_split_complete with (r := r) in Hw.
        rewrite <- Heq, Hw in Hw'. now injection Hw' as -> ->. }
      now rewrite Hp, Hr.
  - rewrite andb_false_r. split; [discriminate|].
    intros (w & r & -> & Hw & _). now rewrite (ci_split_complete _ _ r Hw) in E.
Qed.

Lemma word_search_spec : forall s prev,
  word_search p prev s = true <-> whole_word_from p prev s.
Proof.
  induction s as [|c s IH]; intros prev; simpl; rewrite orb_true_iff, word_here_spec.
  - split.
    + intros [(w & r & Heq & Hw & Hp & Hr)|]; [|discriminate].
      exists [], w, r. now repeat split.
    + intros (pre & w & post & Heq & Hw & Hp & Hr). left.
      destruct pre; [|discriminate Heq].
      exists w, post. now repeat split.
  - rewrite IH. split.
    + intros [(w & r & Heq & Hw & Hp & Hr)|(pre & w & post & Heq & Hw & Hp & Hr)].
      * exists [], w, r. now repeat split.
      * exists (c :: pre), w, post. rewrite Heq. repeat split; try assumption.
        rewrite last_cons. now destruct (last pre).
    + intros (pre & w & post & Heq & Hw & Hp & Hr).
      destruct pre as [|c' pre].
      * left. exists w, post. now repeat split.
      * right. injection Heq as -> ->. exists pre, w, post.
        repeat split; try assumption.
        rewrite last_cons in Hp. now destruct (last pre).
Qed.

End WholeWord.

End RegexFacts.

Import TextFacts RegexFacts.

(** ** Header location *)

Section HeaderLocator.

Variable num_str : Q -> string.

Lemma has_Salgssted_spec row :
  has_Salgssted num_str row = true <-> row_matches num_str row.
Proof.
  unfold has_Salgssted, row_matches. rewrite existsb_exists.
  split; intros (c & Hc & H); exists c.
  - split; [now apply list_elem_of_In|]. now apply word_search_spec in H.
  - split; [now apply list_elem_of_In|]. now apply word_search_spec.
Qed.

Lemma scanned_lookup (raw : list (list cell)) i :
  take (min (length raw) 200) raw !! i = if decide (i < 200) then raw !! i else None.
Proof.
  destruct (decide (i < 200)) as [Hi|Hi].
  - destruct (decide (i < length raw)) as [Hl|Hl].
    + apply lookup_take_lt. lia.
    + rewrite (lookup_ge_None_2 raw i) by lia.
      apply lookup_ge_None_2. rewrite length_take. lia.
  - apply lookup_ge_None_2. rewrite length_take. lia.
Qed.

Lemma find_header_row_Some raw i :
  find_header_row num_str raw = Some i <->
  i < 200
  /\ (exists row, raw !! i = Some row /\ row_matches num_str row)
  /\ (forall j row, j < i -> raw !! j = Some row -> ~ row_matches num_str row).
Proof.
  unfold find_header_row. rewrite fmap_Some. split.
  - intros ([i' row] & H & ->). simpl.
    apply list_find_Some in H as (Hrow & Hm & Hfirst).
    rewrite scanned_lookup in Hrow. destruct (decide (i' < 200)); [|discriminate].
    split; [assumption|]. split.
    + exists row. split; [assumption|]. now apply has_Salgssted_spec.
    + intros j r Hj Hr Hmatch. apply (Hfirst j r); [|assumption|].
      * rewrite scanned_lookup. destruct (decide (j < 200)); [assumption|lia].
      * now apply has_Salgssted_spec.
  - intros (Hi & (row & Hrow & Hm) & Hfirst). exists (i, row). split; [|reflexivity].
    apply list_find_Some. split; [|split].
    + rewrite scanned_lookup. destruct (decide (i < 200)); [assumption|lia].
    + now apply has_Salgssted_spec.
    + intros j r Hr Hj Hmatch. rewrite scanned_lookup in Hr.
      destruct (decide (j < 200)); [|discriminate].
      apply (Hfirst j r Hj Hr). now apply has_Salgssted_spec.
Qed.

Lemma find_header_row_None raw :
  find_header_row num_str raw = None <->
  forall j row, j < 200 -> raw !! j = Some row -> ~ row_matches num_str row.
Proof.
  unfold find_header_row. rewrite fmap_None, list_find_None, Forall_lookup. split.
  - intros H j row Hj Hrow Hm. apply (H j row).
    + rewrite scanned_lookup. destruct (decide (j < 200)); [assumption|lia].
    + now apply has_Salgssted_spec.
  - intros H j row Hrow Hm. rewrite scanned_lookup in Hrow.
    destruct (decide (j < 200)); [|discriminate].
    apply (H j row); try assumption. now apply has_Salgssted_spec.
Qed.

Lemma find_header_row_window raw :
  find_header_row num_str raw = find_header_row num_str (take 200 raw).
Proof.
  unfold find_header_row. f_equal. rewrite length_take, take_take.
  f_equal. f_equal. lia.
Qed.

(** C2.  The header locator looks at the first 200 rows only, tests every
    cell of a row for the marker "Salgssted" as a whole word whatever the
    case of its letters, and returns the index of the first row that has
    one, or nothing when none of these rows has; a row with "Salgsstedet"
    is passed over and a later row with "Salgssted" is found, and a
    marker in the 201st row is not. *)
Theorem find_header_row_first_whole_word (raw : list (list cell)) :
  find_header_row num_str raw = find_header_row num_str (take 200 raw)
  /\ (forall i, find_header_row num_str raw = Some i <->
        i < 200
        /\ (exists row, raw !! i = Some row /\ row_matches num_str row)
        /\ (forall j row, j < i -> raw !! j = Some row -> ~ row_matches num_str row))
  /\ (find_header_row num_str raw = None <->
        forall j row, j < 200 -> raw !! j = Some row -> ~ row_matches num_str row)
  /\ ~ row_matches num_str [CStr "Rapport"; CStr "Salgsstedet"]
  /\ row_matches num_str [CStr "Salgsdato"; CStr "salgssted"]
  /\ find_header_row num_str
       [ [CStr "Vipps"]; [CNaN]; [CStr "Periode"; CNaN];
         [CStr "Rapport"; CStr "Salgsstedet"]; [CNaN; CNaN];
         [CStr "Salgsdato"; CStr "Salgssted"; CStr "Brutto"];
         [CStr "01.02.2026"; CStr "Lodd bilde A"; CStr "40"] ] = Some 5
  /\ find_header_row num_str (replicate 200 [CNaN] ++ [[CStr "Salgssted"]]) = None.
Proof.
  split; [apply find_header_row_window|].
  split; [intros i; apply find_header_row_Some|].
  split; [apply find_header_row_None|].
  split; [|split; [|split]].
  - rewrite <- has_Salgssted_spec. vm_compute. discriminate.
  - rewrite <- has_Salgssted_spec. reflexivity.
  - reflexivity.
  - vm_compute. reflexivity.
Qed.

End HeaderLocator.

(** ** Name resolution *)

Module StripFacts.

Lemma lstrip_rstrip s : lstrip (rstrip s) = rstrip (lstrip s).
Proof.
  induction s as [|c s IH]; [reflexivity|].
  simpl. destruct (is_space c) eqn:Hc.
  - rewrite <- IH. destruct (rstrip s); [reflexivity|].
    simpl. now rewrite Hc.
  - simpl. destruct (rstrip s); simpl; now rewrite Hc.
Qed.

Lemma lstrip_idem s : lstrip (lstrip s) = lstrip s.
Proof.
  induction s as [|c s IH]; [reflexivity|].
  simpl. destruct (is_space c) eqn:Hc; [exact IH|]. simpl. now rewrite Hc.
Qed.

Lemma rstrip_idem s : rstrip (rstrip s) = rstrip s.
Proof.
  induction s as [|c s IH]; [reflexivity|].
  simpl. destruct (rstrip s) as [|c' r] eqn:Hr.
  - destruct (is_space c) eqn:Hc; [reflexivity|]. simpl. now rewrite Hc.
  - simpl in *. now rewrite IH.
Qed.

Lemma lstrip_strip s : lstrip (strip s) = strip s.
Proof. unfold strip. apply lstrip_idem. Qed.

Lemma rstrip_strip s : rstrip (strip s) = strip s.
Proof. unfold strip. now rewrite lstrip_rstrip, rstrip_idem. Qed.

Lemma lstrip_app a b : a <> "" -> lstrip a = a -> lstrip (a +:+ b) = a +:+ b.
Proof.
  destruct a as [|c a]; [congruence|]. intros _. simpl.
  destruct (is_space c) eqn:Hc; [|reflexivity].
  intros H. exfalso.
  assert (Hlen : forall s, String.length (lstrip s) <= String.length s).
  { induction s as [|x s IHs]; simpl; [lia|]. destruct (is_space x); simpl; lia. }
  specialize (Hlen a). rewrite H in Hlen. simpl in Hlen. lia.
Qed.

Lemma rstrip_app a b : b <> "" -> rstrip b = b -> rstrip (a +:+ b) = a +:+ b.
Proof.
  intros Hb Hr. induction a as [|c a IH]; [exact Hr|].
  change (String c a +:+ b) with (String c (a +:+ b)).
  simpl. rewrite IH. destruct (a +:+ b) eqn:E; [|reflexivity].
  destruct a; [change (b = "") in E; congruence|discriminate E].
Qed.

Lemma present_test s : nonempty s && not_nan s = true <-> present s.
Proof.
  unfold present, not_nan. rewrite andb_true_iff, negb_true_iff, String.eqb_neq.
  destruct s; simpl; intuition congruence.
Qed.

Lemma present_dec s : {present s} + {~ present s}.
Proof.
  destruct (nonempty s && not_nan s) eqn:E.
  - left. now apply present_test.
  - right. intros H. apply present_test in H. congruence.
Qed.

End StripFacts.

Section NameResolver.
Import StripFacts.

Variable num_str : Q -> string.

Lemma present_false s : ~ present s -> nonempty s && not_nan s = false.
Proof.
  intros H. destruct (nonempty s && not_nan s) eqn:E; [|reflexivity].
  apply present_test in E. contradiction.
Qed.

(** C3, as amended.  The name of a row is decided by strict precedence on
    the trimmed fields, a field holding a value when it is not empty and
    not "nan" whatever the case of its letters: the first name, followed
    by a space and the last name when the last name holds a value; else
    the trimmed message; else "Ukjent".  The name is never empty. *)
Theorem build_full_name_precedence (row : Series) :
  let fn := field num_str row "Fornavn" in
  let en := field num_str row "Etternavn" in
  let msg := field num_str row "Melding" in
  (present fn -> present en -> build_full_name num_str row = fn +:+ " " +:+ en)
  /\ (present fn -> ~ present en -> build_full_name num_str row = fn)
  /\ (~ present fn -> present msg -> build_full_name num_str row = msg)
  /\ (~ present fn -> ~ present msg -> build_full_name num_str row = "Ukjent")
  /\ build_full_name num_str row <> "".
Proof.
  intros fn en msg.
  assert (Hjoin : present fn -> present en ->
                  strip (fn +:+ " " +:+ en) = fn +:+ " " +:+ en).
  { intros [Hf _] [He _]. unfold strip.
    rewrite (rstrip_app fn (" " +:+ en));
      [|discriminate|apply (rstrip_app " " en); [assumption|apply rstrip_strip]].
    apply lstrip_app; [assumption|apply lstrip_strip]. }
  unfold build_full_name. fold fn en msg.
  split; [|split; [|split; [|split]]].
  - intros Hf He.
    rewrite (proj2 (present_test _) Hf), (proj2 (present_test _) He). now apply Hjoin.
  - intros Hf He. now rewrite (proj2 (present_test _) Hf), (present_false _ He).
  - intros Hf Hm. now rewrite (present_false _ Hf), (proj2 (present_test _) Hm).
  - intros Hf Hm. now rewrite (present_false _ Hf), (present_false _ Hm).
  - destruct (present_dec fn) as [Hf|Hf].
    + rewrite (proj2 (present_test _) Hf).
      destruct (present_dec en) as [He|He].
      * rewrite (proj2 (present_test _) He), (Hjoin Hf He).
        destruct Hf as [Hf _]. destruct fn; [congruence|discriminate].
      * rewrite (present_false _ He). now destruct Hf.
    + rewrite (present_false _ Hf).
      destruct (present_dec msg) as [Hm|Hm].
      * rewrite (proj2 (present_test _) Hm). now destruct Hm.
      * rewrite (present_false _ Hm). discriminate.
Qed.

End NameResolver.

(** The three rows of the specification's test list: a last name "nan" is
    left out, the message stands in for an empty first name, and a row
    with nothing gets the sentinel. *)
Example build_full_name_examples :
  let name := build_full_name (fun _ => "") in
  name {[ "Fornavn" := CStr "Anna"; "Etternavn" := CStr "nan"; "Melding" := CNaN ]} = "Anna"
  /\ name {[ "Fornavn" := CStr ""; "Etternavn" := CNaN; "Melding" := CStr "Ola Nordmann" ]}
     = "Ola Nordmann"
  /\ name {[ "Fornavn" := CNaN; "Etternavn" := CNaN; "Melding" := CNaN ]} = "Ukjent"
  /\ name ∅ = "Ukjent".
Proof. vm_compute. repeat split. Qed.

(** C3, the claim as worded fails: the code compares with "nan" in any
    case of the letters, so the first name "Nan" counts as absent, and it
    returns the message trimmed, not verbatim. *)
Lemma build_full_name_not_literal_nan :
  let name := build_full_name (fun _ => "") in
  name {[ "Fornavn" := CStr "Nan"; "Etternavn" := CStr "Goldin" ]} = "Ukjent"
  /\ Spec.resolved_name "Nan" "Goldin" "" = "Nan Goldin"
  /\ name {[ "Melding" := CStr " Ola Nordmann " ]} = "Ola Nordmann"
  /\ Spec.resolved_name "" "" " Ola Nordmann " = " Ola Nordmann ".
Proof. vm_compute. repeat split. Qed.

(** A row on which the first case of the precedence theorem applies. *)
Lemma build_full_name_precedence_witness :
  let row : Series :=
    {[ "Fornavn" := CStr " Kari "; "Etternavn" := CStr "Berg"; "Melding" := CNaN ]} in
  present (field (fun _ => "") row "Fornavn")
  /\ present (field (fun _ => "") row "Etternavn")
  /\ build_full_name (fun _ => "") row = "Kari Berg".
Proof.
  intros row.
  assert (Hf : present (field (fun _ => "") row "Fornavn"))
    by (split; vm_compute; discriminate).
  assert (He : present (field (fun _ => "") row "Etternavn"))
    by (split; vm_compute; discriminate).
  split; [exact Hf|]. split; [exact He|].
  exact (proj1 (build_full_name_precedence (fun _ => "") row) Hf He).
Defined.

(** ** Artwork extraction *)

Module BildeFacts.

Lemma is_space_lower c : is_space (lower c) = is_space c.
Proof. by_cases_on c. Qed.

Lemma skip_space_app w r :
  all_space w -> (forall c r', r = c :: r' -> is_space c = false) ->
  skip_space (w ++ r) = r.
Proof.
  intros Hw Hr. induction Hw as [|c w Hc _ IH]; simpl.
  - destruct r as [|c r']; [reflexivity|]. simpl. now rewrite (Hr c r' eq_refl).
  - now rewrite Hc.
Qed.

Lemma skip_space_split s :
  exists w, s = w ++ skip_space s /\ all_space w.
Proof.
  induction s as [|c s (w & Hs & Hw)]; simpl.
  - exists []. split; [reflexivity|constructor].
  - destruct (is_space c) eqn:Hc.
    + exists (c :: w). split; [simpl; now rewrite <- Hs|now constructor].
    + exists []. split; [reflexivity|constructor].
Qed.

Lemma ci_equal_head_not_space a p B (r : list ascii) :
  is_space (lower a) = false -> ci_equal B (a :: p) ->
  forall c r', B ++ r = c :: r' -> is_space c = false.
Proof.
  intros Ha HB c r' Heq. destruct B as [|b B]; [discriminate HB|].
  injection Heq as -> _. unfold ci_equal in HB. simpl in HB.
  injection HB as Hb _. now rewrite <- is_space_lower, Hb.
Qed.

Lemma bilde_here_spec s c : bilde_here s = Some c <-> bilde_at s 0 c.
Proof.
  unfold bilde_here, bilde_at. split.
  - destruct (ci_split (chars "lodd") s) as [[L r1]|] eqn:E1; [|discriminate].
    apply ci_split_sound in E1 as [-> HL].
    destruct (skip_space_split r1) as (w1 & Hr1 & Hw1).
    destruct (ci_split (chars "bilde") (skip_space r1)) as [[B r2]|] eqn:E2; [|discriminate].
    apply ci_split_sound in E2 as [E2 HB].
    destruct (skip_space_split r2) as (w2 & Hr2 & Hw2).
    destruct (skip_space r2) as [|c' post] eqn:E3; [discriminate|].
    destruct (is_ascii_letter c') eqn:Hc; [|discriminate].
    intros [= ->]. exists [], L, w1, B, w2, post.
    repeat split; try assumption.
    simpl. rewrite Hr1 at 1. rewrite E2. rewrite Hr2 at 1. reflexivity.
  - intros (pre & L & w1 & B & w2 & post & -> & Hpre & HL & Hw1 & HB & Hw2 & Hc).
    destruct pre; [|discriminate Hpre]. rewrite app_nil_l.
    rewrite (ci_split_complete _ _ _ HL).
    rewrite (skip_space_app w1 (B ++ w2 ++ c :: post) Hw1).
    2:{ apply (ci_equal_head_not_space "b"%char (chars "ilde") B); [reflexivity|exact HB]. }
    rewrite (ci_split_complete _ _ _ HB).
    rewrite (skip_space_app w2 (c :: post) Hw2).
    2:{ intros c' r' [= <- _]. destruct (is_space c) eqn:Hs; [|reflexivity].
        apply space_not_letter in Hs. congruence. }
    now rewrite Hc.
Qed.

Lemma bilde_at_nil n c : ~ bilde_at [] n c.
Proof.
  intros (pre & L & w1 & B & w2 & post & Heq & _ & HL & _).
  apply ci_equal_length in HL. destruct pre; [|discriminate Heq].
  destruct L; [discriminate HL|discriminate Heq].
Qed.

Lemma bilde_at_cons a s n c : bilde_at (a :: s) (S n) c <-> bilde_at s n c.
Proof.
  split.
  - intros (pre & L & w1 & B & w2 & post & Heq & Hpre & H).
    destruct pre as [|a' pre]; [discriminate Hpre|].
    injection Heq as -> ->. injection Hpre as Hpre.
    now exists pre, L, w1, B, w2, post.
  - intros (pre & L & w1 & B & w2 & post & -> & <- & H).
    now exists (a :: pre), L, w1, B, w2, post.
Qed.

Lemma bilde_at_length s n c : bilde_at s n c -> 10 <= length s.
Proof.
  intros (pre & L & w1 & B & w2 & post & -> & _ & HL & _ & HB & _).
  apply ci_equal_length in HL, HB. rewrite !length_app. simpl in *. lia.
Qed.

(** The search returns the capture of the leftmost match. *)
Lemma bilde_search_spec : forall s c,
  bilde_search s = Some c <->
  exists n, bilde_at s n c /\ forall m c', m < n -> ~ bilde_at s m c'.
Proof.
  induction s as [|a s IH]; intros c; simpl.
  - split; [discriminate|]. intros (n & H & _). now apply bilde_at_nil in H.
  - destruct (bilde_here (a :: s)) as [c0|] eqn:E.
    + apply bilde_here_spec in E. split.
      * intros [= <-]. exists 0. split; [assumption|]. intros m c' Hm. lia.
      * intros (n & Hn & Hmin). destruct n as [|n].
        -- apply bilde_here_spec in E, Hn. congruence.
        -- exfalso. apply (Hmin 0 c0); [lia|assumption].
    + rewrite IH. split.
      * intros (n & Hn & Hmin). exists (S n). split; [now apply bilde_at_cons|].
        intros [|m] c' Hm H.
        -- apply bilde_here_spec in H. congruence.
        -- apply bilde_at_cons in H. apply (Hmin m c'); [lia|assumption].
      * intros (n & Hn & Hmin). destruct n as [|n].
        -- apply bilde_here_spec in Hn. congruence.
        -- exists n. split; [now apply bilde_at_cons in Hn|].
           intros m c' Hm H. apply (Hmin (S m) c'); [lia|now apply bilde_at_cons].
Qed.

Lemma lower_str_length s : String.length (lower_str s) = String.length s.
Proof. induction s; simpl; congruence. Qed.

Lemma chars_length s : length (chars s) = String.length s.
Proof. induction s; simpl; congruence. Qed.

Lemma bilde_search_guard s :
  negb (nonempty s) || String.eqb (lower_str s) "nan" = true ->
  bilde_search (chars s) = None.
Proof.
  intros H. destruct (bilde_search (chars s)) as [c|] eqn:E; [|reflexivity].
  apply bilde_search_spec in E as (n & Hn & _). apply bilde_at_length in Hn.
  rewrite chars_length in Hn. apply orb_true_iff in H as [H|H].
  - destruct s; [simpl in Hn; lia|discriminate H].
  - apply String.eqb_eq in H. rewrite <- lower_str_length, H in Hn. simpl in Hn. lia.
Qed.

Lemma extract_bilde_search s :
  extract_bilde s =
  match bilde_search (chars s) with
  | Some c => Some (String (upper c) EmptyString)
  | None => None
  end.
Proof.
  unfold extract_bilde.
  destruct (negb (nonempty s) || String.eqb (lower_str s) "nan") eqn:G; [|reflexivity].
  now rewrite (bilde_search_guard s G).
Qed.

End BildeFacts.

Section Tagger.
Import BildeFacts.

Variable num_str : Q -> string.
Variable parse_number : string -> option Q.

(** C4, as amended.  The artwork letter is the capture of the leftmost
    match, whatever the case of the letters, of "lodd", any whitespace
    (none included), "bilde", any whitespace (none included) and one
    letter of A-Z; it is returned in upper case.  A row whose text has no
    such match gets no artwork and is dropped: the column [Bilde] of
    [df_lodd] is exactly the list of the extracted letters. *)
Theorem extract_bilde_leftmost_match :
  (forall s b,
      extract_bilde s = Some b <->
      exists n c, bilde_at (chars s) n c
                  /\ (forall m c', m < n -> ~ bilde_at (chars s) m c')
                  /\ b = String (upper c) EmptyString)
  /\ (forall s b, extract_bilde s = Some b ->
        exists u, b = String u EmptyString /\ is_ascii_upper u = true)
  /\ (forall mode (selected : list Series),
        map Bilde (omap (tag_row num_str parse_number mode) selected)
        = omap (fun row => extract_bilde (py_str num_str (cell_at row "Salgssted")))
               selected)
  /\ (forall mode row,
        tag_row num_str parse_number mode row = None <->
        extract_bilde (py_str num_str (cell_at row "Salgssted")) = None).
Proof.
  assert (Hspec : forall s b,
      extract_bilde s = Some b <->
      exists n c, bilde_at (chars s) n c
                  /\ (forall m c', m < n -> ~ bilde_at (chars s) m c')
                  /\ b = String (upper c) EmptyString).
  { intros s b. rewrite extract_bilde_search.
    destruct (bilde_search (chars s)) as [c|] eqn:E.
    - apply bilde_search_spec in E as (n & Hn & Hmin). split.
      + intros [= <-]. now exists n, c.
      + intros (n' & c' & Hn' & Hmin' & ->).
        assert (bilde_search (chars s) = Some c') as E'
          by (apply bilde_search_spec; now exists n').
        assert (bilde_search (chars s) = Some c) as E''
          by (apply bilde_search_spec; now exists n).
        congruence.
    - split; [discriminate|]. intros (n & c & Hn & Hmin & _).
      assert (bilde_search (chars s) = Some c) as E'
        by (apply bilde_search_spec; now exists n).
      congruence. }
  split; [exact Hspec|]. split; [|split].
  - intros s b H. apply Hspec in H as (n & c & Hn & _ & ->).
    destruct Hn as (pre & L & w1 & B & w2 & post & _ & _ & _ & _ & _ & _ & Hc).
    exists (upper c). split; [reflexivity|now apply upper_is_upper].
  - intros mode selected. induction selected as [|row l IH]; [reflexivity|].
    simpl. unfold tag_row at 1.
    destruct (extract_bilde (py_str num_str (cell_at row "Salgssted"))); simpl.
    + f_equal. exact IH.
    + exact IH.
  - intros mode row. unfold tag_row.
    now destruct (extract_bilde (py_str num_str (cell_at row "Salgssted"))).
Qed.

End Tagger.

(** The letter is found in any case of the text, with or without
    whitespace before it; a digit is no artwork. *)
Example extract_bilde_examples :
  extract_bilde "Lodd bilde b" = Some "B"
  /\ extract_bilde "LODD BILDE B" = Some "B"
  /\ extract_bilde "Kunstlotteri - lodd  bilde c (NHO)" = Some "C"
  /\ extract_bilde "Lodd bilde 7" = None
  /\ extract_bilde "nan" = None.
Proof. vm_compute. repeat split. Qed.

(** C4, the claim as worded fails: the text "Lodd bildeA" passes the
    filter on "Lodd bilde" and has no whitespace between the phrase and
    the letter, yet the code extracts "A" from it; and in a text that
    passes the filter the code also takes a letter after "Loddbilde",
    which is not the literal phrase. *)
Lemma extract_bilde_without_whitespace :
  ci_contains (chars "Lodd bilde") (chars "Lodd bildeA") = true
  /\ extract_bilde "Lodd bildeA" = Some "A"
  /\ Spec.artwork_id "Lodd bildeA" = None
  /\ ci_contains (chars "Lodd bilde") (chars "Loddbilde C, lodd bilde") = true
  /\ extract_bilde "Loddbilde C, lodd bilde" = Some "C"
  /\ Spec.artwork_id "Loddbilde C, lodd bilde" = None.
Proof. vm_compute. repeat split. Qed.

(** ** Orders *)

Module OrderFacts.

Lemma compare_refl s : String.compare s s = Eq.
Proof.
  induction s as [|c s IH]; [reflexivity|]. simpl.
  unfold Ascii.compare. now rewrite N.compare_refl.
Qed.

Lemma compare_lt_trans : forall a b c,
  String.compare a b = Lt -> String.compare b c = Lt -> String.compare a c = Lt.
Proof.
  induction a as [|x a IH]; intros [|y b] [|z c]; simpl; try congruence.
  unfold Ascii.compare.
  destruct (N.compare_spec (N_of_ascii x) (N_of_ascii y)) as [Hxy|Hxy|Hxy];
    destruct (N.compare_spec (N_of_ascii y) (N_of_ascii z)) as [Hyz|Hyz|Hyz];
    try congruence; intros H1 H2.
  - rewrite Hxy, Hyz, N.compare_refl. now apply (IH b c).
  - rewrite Hxy. now apply N.compare_lt_iff in Hyz as ->.
  - rewrite <- Hyz. now apply N.compare_lt_iff in Hxy as ->.
  - assert (N_of_ascii x < N_of_ascii z)%N as H by lia.
    now apply N.compare_lt_iff in H as ->.
Qed.

Lemma leb_cases a b :
  String.leb a b = true <-> String.compare a b = Lt \/ a = b.
Proof.
  unfold String.leb. destruct (String.compare a b) eqn:E.
  - apply String.compare_eq_iff in E. intuition.
  - intuition.
  - split; [discriminate|]. intros [H| ->]; [discriminate|].
    now rewrite compare_refl in E.
Qed.

#[global] Instance str_le_total : Total str_le.
Proof. intros a b. apply String.leb_total. Qed.

#[global] Instance str_le_trans : Transitive str_le.
Proof.
  intros a b c. unfold str_le. rewrite !leb_cases.
  intros [H1| ->] [H2| ->]; auto. left. eapply compare_lt_trans; eauto.
Qed.

#[global] Instance str_le_antisym : AntiSymm (=) str_le.
Proof. intros a b H1 H2. now apply String.leb_antisym. Qed.

Lemma key_le_cases k1 k2 :
  key_le k1 k2 <->
  String.compare k1.1 k2.1 = Lt \/ (k1.1 = k2.1 /\ str_le k1.2 k2.2).
Proof.
  unfold key_le, key_leb, str_le. destruct (String.compare k1.1 k2.1) eqn:E.
  - apply String.compare_eq_iff in E. intuition congruence.
  - intuition.
  - split; [discriminate|]. intros [H|[H _]]; [discriminate|].
    rewrite H, compare_refl in E. discriminate.
Qed.

Lemma compare_gt_lt a b : String.compare a b = Gt -> String.compare b a = Lt.
Proof. intros H. rewrite String.compare_antisym, H. reflexivity. Qed.

#[global] Instance key_le_total : Total key_le.
Proof.
  intros k1 k2. rewrite !key_le_cases.
  destruct (String.compare k1.1 k2.1) eqn:E.
  - apply String.compare_eq_iff in E.
    destruct (str_le_total k1.2 k2.2); [left|right]; right; split; congruence.
  - now left; left.
  - right; left. now apply compare_gt_lt.
Qed.

#[global] Instance key_le_trans : Transitive key_le.
Proof.
  intros k1 k2 k3. rewrite !key_le_cases.
  intros [H1|[H1 L1]] [H2|[H2 L2]].
  - left. eapply compare_lt_trans; eauto.
  - left. congruence.
  - left. congruence.
  - right. split; [congruence|]. etransitivity; eauto.
Qed.

#[global] Instance key_le_antisym : AntiSymm (=) key_le.
Proof.
  intros [a1 b1] [a2 b2]. rewrite !key_le_cases. simpl.
  intros [H1|[H1 L1]] [H2|[H2 L2]].
  - pose proof (compare_lt_trans _ _ _ H1 H2) as H. now rewrite compare_refl in H.
  - subst. now rewrite compare_refl in H1.
  - subst. now rewrite compare_refl in H2.
  - subst. f_equal. now apply (anti_symm str_le).
Qed.

Lemma sub_le_cases (a b : AggRow) :
  sub_le a b <-> (Lodd b < Lodd a)%Z \/ (Lodd a = Lodd b /\ str_le (Navn a) (Navn b)).
Proof.
  unfold sub_le, sub_leb, str_le.
  destruct (Z.compare_spec (Lodd a) (Lodd b)) as [H|H|H].
  - intuition lia.
  - split; [discriminate|]. intuition lia.
  - intuition.
Qed.

#[global] Instance sub_le_total : Total sub_le.
Proof.
  intros a b. rewrite !sub_le_cases.
  destruct (Z.lt_trichotomy (Lodd a) (Lodd b)) as [H|[H|H]].
  - now right; left.
  - destruct (str_le_total (Navn a) (Navn b)); [left|right]; right; split; congruence.
  - now left; left.
Qed.

#[global] Instance sub_le_trans : Transitive sub_le.
Proof.
  intros a b c. rewrite !sub_le_cases.
  intros [H1|[H1 L1]] [H2|[H2 L2]].
  - left. lia.
  - left. lia.
  - left. lia.
  - right. split; [lia|]. etransitivity; eauto.
Qed.

End OrderFacts.

Import OrderFacts.

(** ** Values of binary64 *)

Module FloatFacts.

Lemma pow2_pos e : (0 < pow2 e)%Q.
Proof. apply Qpower_0_lt. reflexivity. Qed.

Lemma pow2_add a b : (pow2 (a + b) == pow2 a * pow2 b)%Q.
Proof. apply Qpower_plus. discriminate. Qed.

Lemma pow2_Z e : (0 <= e)%Z -> (pow2 e == inject_Z (2 ^ e))%Q.
Proof. intros H. unfold pow2. now rewrite Zpower_Qpower. Qed.

Lemma pow2_le a b : (a <= b)%Z -> (pow2 a <= pow2 b)%Q.
Proof. intros H. apply Qpower_le_compat_l; [exact H|]. unfold Qle. simpl. lia. Qed.

#[global] Instance float64_proper : Proper (Qeq ==> Qeq) float64.
Proof. intros x y H. unfold float64. now rewrite (Qred_complete _ _ H). Qed.

Lemma float64_0 : (float64 0 == 0)%Q.
Proof. vm_compute. reflexivity. Qed.

(** Some values: 0.1 and 1/3 as [float] holds them, the integers next
    to 2^53, where every other one is a value and a tie goes to the even
    significand, and the least subnormal value. *)
Example float64_examples :
  (float64 (1 # 10) == 3602879701896397 # 36028797018963968)%Q
  /\ (float64 (1 # 3) == 6004799503160661 # 18014398509481984)%Q
  /\ (float64 (inject_Z (2 ^ 53 + 1)) == inject_Z (2 ^ 53))%Q
  /\ (float64 (inject_Z (2 ^ 53 + 3)) == inject_Z (2 ^ 53 + 4))%Q
  /\ (float64 (3 * pow2 (-1075)) == pow2 (-1073))%Q
  /\ (float64 (pow2 (-1075)) == 0)%Q
  /\ is_float64 max_float64.
Proof. vm_compute. repeat split; discriminate. Qed.

Lemma Qabs_frac (x : Q) :
  (Qabs x == inject_Z (Z.abs (Qnum x)) / inject_Z (Z.pos (Qden x)))%Q.
Proof. destruct x as [n d]. unfold Qabs. simpl. now rewrite Qmake_Qdiv. Qed.

(** [|x| < 2^(ilog2 x + 1)] *)
Lemma ilog2_upper (x : Q) : (Qabs x < pow2 (ilog2 x + 1))%Q.
Proof.
  unfold ilog2.
  set (a := Z.log2 (Z.abs (Qnum x))). set (b := Z.log2 (Z.pos (Qden x))).
  destruct (Qle_bool (pow2 (a - b)) (Qabs x)) eqn:E.
  - rewrite Qabs_frac.
    assert (Hb : (0 <= b)%Z) by apply Z.log2_nonneg.
    assert (Ha : (0 <= a)%Z) by apply Z.log2_nonneg.
    assert (Hd : (2 ^ b <= Z.pos (Qden x))%Z) by (apply Z.log2_spec; lia).
    assert (Hn : (Z.abs (Qnum x) < 2 ^ (a + 1))%Z).
    { destruct (Z.eq_dec (Qnum x) 0%Z) as [Hz|Hne].
      - rewrite Hz. simpl. apply Z.pow_pos_nonneg; lia.
      - replace (a + 1)%Z with (Z.succ a) by lia. apply Z.log2_spec. lia. }
    replace (a - b + 1)%Z with ((a + 1) + - b)%Z by lia.
    rewrite pow2_add. unfold pow2 at 2. rewrite Qpower_opp.
    fold (pow2 b). rewrite (pow2_Z b Hb), (pow2_Z (a + 1)) by lia.
    assert (H2b : (0 < 2 ^ b)%Z) by (apply Z.pow_pos_nonneg; lia).
    unfold Qlt, Qdiv, Qmult, Qinv, inject_Z. simpl.
    destruct (2 ^ b)%Z as [|pb|pb] eqn:Eb; try lia. simpl.
    destruct (2 ^ (a + 1))%Z as [|pa|pa] eqn:Ea; try lia. nia.
  - replace (a - b - 1 + 1)%Z with (a - b)%Z by lia.
    apply Qnot_le_lt. intros H. apply Qle_bool_iff in H. congruence.
Qed.

(** The sum of one value of binary64 is the value, and the sum of two is
    their sum rounded once. *)
Lemma group_sum_step_first (x : Q) :
  is_float64 x ->
  ((group_sum_step (0, 0) x).1 == x)%Q /\ ((group_sum_step (0, 0) x).2 == 0)%Q.
Proof.
  unfold group_sum_step. cbn [fst snd]. intros [Hx _].
  assert (E1 : (float64 (x - 0) == x)%Q).
  { rewrite <- Hx at 2. apply float64_proper. ring. }
  assert (E2 : (float64 (0 + float64 (x - 0)) == x)%Q).
  { rewrite <- Hx at 2. apply float64_proper. rewrite E1. ring. }
  split; [exact E2|].
  transitivity (float64 0); [|exact float64_0]. apply float64_proper.
  assert (E3 : (float64 (float64 (0 + float64 (x - 0)) - 0) == x)%Q).
  { rewrite <- Hx at 2. apply float64_proper. rewrite E2. ring. }
  rewrite E3, E1. ring.
Qed.

Lemma group_sum_two (x y : Q) :
  is_float64 x -> is_float64 y -> (group_sum [x; y] == float64 (x + y))%Q.
Proof.
  intros Hx Hy. destruct (group_sum_step_first x Hx) as [Ht Hc].
  unfold group_sum. cbn [fold_left].
  set (acc := group_sum_step (0, 0)%Q x) in *.
  unfold group_sum_step at 1. cbn [fst snd].
  apply float64_proper.
  assert (E : (float64 (y - acc.2) == y)%Q).
  { destruct Hy as [Hy _]. rewrite <- Hy at 2. apply float64_proper. rewrite Hc. ring. }
  rewrite E, Ht. reflexivity.
Qed.

End FloatFacts.

Import FloatFacts.

(** ** Grouping and ticket counts *)

Module AggFacts.

Lemma filter_map {A B} (f : A -> B) (p : B -> bool) (l : list A) :
  List.filter p (map f l) = map f (List.filter (fun x => p (f x)) l).
Proof.
  induction l as [|x l IH]; [reflexivity|].
  simpl. destruct (p (f x)); simpl; now rewrite IH.
Qed.

Lemma filter_ext_in {A} (p q : A -> bool) (l : list A) :
  (forall x, x ∈ l -> p x = q x) -> List.filter p l = List.filter q l.
Proof.
  intros H. apply List.filter_ext_in. intros x Hx. apply H. now apply list_elem_of_In.
Qed.

Lemma filter_only {A} `{EqDecision A} (k : A) (l : list A) :
  NoDup l -> k ∈ l -> List.filter (fun x => bool_decide (x = k)) l = [k].
Proof.
  induction 1 as [|x l Hx Hl IH]; intros Hk; [now apply elem_of_nil in Hk|].
  simpl. destruct (decide (x = k)) as [->|Hne].
  - rewrite bool_decide_eq_true_2 by reflexivity. f_equal.
    clear IH Hk. induction l as [|y l IHl]; [reflexivity|].
    simpl. apply not_elem_of_cons in Hx as [Hy Hx'].
    rewrite bool_decide_eq_false_2 by congruence.
    apply IHl; [assumption|]. now apply NoDup_cons in Hl as [_ Hl].
  - rewrite bool_decide_eq_false_2 by assumption. apply IH.
    apply elem_of_cons in Hk as [->|Hk]; [congruence|assumption].
Qed.

Lemma filter_none {A} `{EqDecision A} (k : A) (l : list A) :
  k ∉ l -> List.filter (fun x => bool_decide (x = k)) l = [].
Proof.
  induction l as [|x l IH]; [reflexivity|]. intros H.
  apply not_elem_of_cons in H as [Hx Hl]. simpl.
  rewrite bool_decide_eq_false_2 by congruence. now apply IH.
Qed.

Lemma group_keys_NoDup df : NoDup (group_keys df).
Proof.
  unfold group_keys. rewrite merge_sort_Permutation. apply NoDup_remove_dups.
Qed.

Lemma elem_of_group_keys df k :
  k ∈ group_keys df <-> exists r, r ∈ df /\ key r = k.
Proof.
  unfold group_keys. rewrite merge_sort_Permutation, elem_of_remove_dups.
  rewrite list_elem_of_fmap. split; intros (r & H1 & H2); exists r; now split.
Qed.

Lemma key_group_row df k : key (group_row df k) = k.
Proof. now destruct k. Qed.

Lemma key_agg_row_of cfg e : key (agg_row_of cfg e) = key e.
Proof. reflexivity. Qed.

Lemma agg_keys cfg df :
  map (fun a : AggRow => key a) (agg_of cfg df) = group_keys df.
Proof.
  unfold agg_of, groupby_sum. rewrite !map_map.
  rewrite <- (map_id (group_keys df)) at 2. apply map_ext. intros k.
  now destruct k.
Qed.

(** The rows of [agg] with the key [k]: one if the key occurs in
    [df_lodd], none otherwise. *)
Lemma agg_rows_of_key cfg df k :
  List.filter (fun a : AggRow => has_key k a) (agg_of cfg df)
  = if decide (k ∈ group_keys df) then [agg_row_of cfg (group_row df k)] else [].
Proof.
  unfold agg_of, groupby_sum. rewrite !filter_map.
  rewrite (filter_ext_in _ (fun x => bool_decide (x = k))).
  2:{ intros k' _. unfold has_key. now rewrite key_agg_row_of, key_group_row. }
  destruct (decide (k ∈ group_keys df)) as [Hk|Hk].
  - now rewrite (filter_only k _ (group_keys_NoDup df) Hk).
  - now rewrite (filter_none k _ Hk).
Qed.

Lemma elem_of_agg cfg df (a : AggRow) :
  a ∈ agg_of cfg df <->
  exists k, k ∈ group_keys df /\ a = agg_row_of cfg (group_row df k).
Proof.
  unfold agg_of, groupby_sum. rewrite list_elem_of_fmap. split.
  - intros (e & -> & He). apply list_elem_of_fmap in He as (k & -> & Hk). now exists k.
  - intros (k & Hk & ->). exists (group_row df k). split; [reflexivity|].
    apply list_elem_of_fmap. now exists k.
Qed.

Lemma Lodd_agg cfg df (a : AggRow) :
  a ∈ agg_of cfg df -> Lodd a = lodd_of (round_down cfg) (Lodd_raw a).
Proof. intros H. apply elem_of_agg in H as (k & _ & ->). reflexivity. Qed.

Lemma Lodd_raw_agg cfg df (a : AggRow) :
  a ∈ agg_of cfg df -> Lodd_raw a = float64 (Brutto a / inject_Z (loddpris cfg)).
Proof. intros H. apply elem_of_agg in H as (k & _ & ->). reflexivity. Qed.

#[global] Instance Qfloor_proper : Proper (Qeq ==> eq) Qfloor.
Proof. exact Qfloor_comp. Qed.

End AggFacts.

Import AggFacts.

(** C1.  Two rows of [df_lodd] with the same artwork and the same name,
    and no third one with them, become one row of [agg]: its amount is
    the sum of the two amounts (the sum of binary64, rounded once), its
    raw count is that sum over the price (the quotient of binary64), and
    its ticket count, when rounding down, is the floor of that quotient.
    The amounts are merged before anything is rounded to a count.  The
    two amounts are values of binary64 with a sum of at most 2^62 in
    size, so that the count fits int64; beyond int64 the run ends in the
    cast. *)
Theorem grouped_before_rounding (cfg : settings) (df_lodd : list LoddRow) (r1 r2 : LoddRow) :
  round_down cfg = true ->
  (1 <= loddpris cfg)%Z ->
  key r1 = key r2 ->
  List.filter (has_key (key r1)) df_lodd = [r1; r2] ->
  is_float64 (Brutto r1) ->
  is_float64 (Brutto r2) ->
  (Qabs (Brutto r1 + Brutto r2) <= inject_Z (2 ^ 62))%Q ->
  let total := float64 (Brutto r1 + Brutto r2) in
  let raw := float64 (total / inject_Z (loddpris cfg)) in
  exists a : AggRow,
    List.filter (fun a : AggRow => has_key (key r1) a) (agg_of cfg df_lodd) = [a]
    /\ (Brutto a == total)%Q
    /\ (Lodd_raw a == raw)%Q
    /\ Lodd a = Qfloor raw.
Proof.
  intros Hround Hp Hkey Hrows H1 H2 Hfin total raw.
  assert (Hk : key r1 ∈ group_keys df_lodd).
  { apply elem_of_group_keys. exists r1. split; [|reflexivity].
    apply list_elem_of_In. apply (List.filter_In (has_key (key r1))).
    rewrite Hrows. now left. }
  exists (agg_row_of cfg (group_row df_lodd (key r1))).
  rewrite agg_rows_of_key. destruct (decide _); [|contradiction].
  assert (Hsum : (Brutto (group_row df_lodd (key r1)) == total)%Q).
  { cbn [group_row Brutto]. rewrite Hrows. apply (group_sum_two _ _ H1 H2). }
  assert (Hraw : (Lodd_raw (agg_row_of cfg (group_row df_lodd (key r1))) == raw)%Q).
  { cbn [agg_row_of Lodd_raw]. apply float64_proper. now rewrite Hsum. }
  split; [reflexivity|]. split; [exact Hsum|]. split; [exact Hraw|].
  change (Lodd (agg_row_of cfg (group_row df_lodd (key r1))))
    with (lodd_of (round_down cfg) (Lodd_raw (agg_row_of cfg (group_row df_lodd (key r1))))).
  rewrite Hround. unfold lodd_of. now rewrite Hraw.
Qed.

(** The example of the specification: 15 kr twice at 20 kr a ticket is
    one ticket, where the two parts alone would give none. *)
Lemma grouped_before_rounding_witness :
  let cfg := {| loddpris := 20; name_mode := Fullt_navn; round_down := true |} in
  let r := {| Bilde := "A"; Navn := "Ola Nordmann"; Brutto := 15 |} in
  exists a : AggRow,
    List.filter (fun a : AggRow => has_key (key r) a) (agg_of cfg [r; r]) = [a]
    /\ (Brutto a == 30)%Q /\ (Lodd_raw a == 3 # 2)%Q /\ Lodd a = 1%Z
    /\ (Qfloor (float64 (15 / 20)) + Qfloor (float64 (15 / 20)))%Z = 0%Z.
Proof.
  intros cfg r.
  destruct (grouped_before_rounding cfg [r; r] r r eq_refl) as (a & Ha & Hb & Hr & Hl).
  - vm_compute. discriminate.
  - reflexivity.
  - reflexivity.
  - split; [vm_compute; reflexivity|vm_compute; discriminate].
  - split; [vm_compute; reflexivity|vm_compute; discriminate].
  - vm_compute. discriminate.
  - exists a. split; [exact Ha|]. split; [rewrite Hb; vm_compute; reflexivity|].
    split; [rewrite Hr; vm_compute; reflexivity|]. split; [rewrite Hl|]; vm_compute; reflexivity.
Defined.

(** The sums are those of binary64: 19.9 kr and 0.1 kr, as [float] holds
    them, add up to 20 kr and a ticket at 20 kr, although the two values
    taken exactly are together a little less than 20. *)
Example grouped_sum_is_rounded :
  let cfg := {| loddpris := 20; name_mode := Fullt_navn; round_down := true |} in
  let x := float64 (199 # 10) in
  let y := float64 (1 # 10) in
  (x + y < 20)%Q
  /\ map (fun a : AggRow => (Qred (Brutto a), Lodd a))
         (agg_of cfg [ {| Bilde := "A"; Navn := "Ola"; Brutto := x |};
                       {| Bilde := "A"; Navn := "Ola"; Brutto := y |} ])
     = [(20%Q, 1%Z)].
Proof. vm_compute. split; reflexivity. Qed.

(** ** Rounding *)

Module RoundFacts.

Lemma Qsum_le {A} (f g : A -> Q) (l : list A) :
  Forall (fun x => (f x <= g x)%Q) l -> (Qsum (map f l) <= Qsum (map g l))%Q.
Proof.
  induction 1 as [|x l Hx _ IH]; simpl.
  - apply Qle_refl.
  - now apply Qplus_le_compat.
Qed.

Lemma inject_Zsum (l : list Z) : (inject_Z (Zsum l) == Qsum (map inject_Z l))%Q.
Proof.
  induction l as [|z l IH]; simpl; [reflexivity|].
  now rewrite inject_Z_plus, IH.
Qed.

Lemma inject_Z_succ (z : Z) : (inject_Z (z + 1) == inject_Z z + 1)%Q.
Proof. now rewrite inject_Z_plus. Qed.

Lemma floor_gap (x : Q) : (0 <= x - inject_Z (Qfloor x) < 1)%Q.
Proof.
  pose proof (Qfloor_le x) as H1. pose proof (Qlt_floor x) as H2.
  rewrite inject_Z_succ in H2. lra.
Qed.

(** [round_half_even] is a nearest integer. *)
Lemma round_half_even_near (x : Q) : (Qabs (x - inject_Z (round_half_even x)) <= 1 # 2)%Q.
Proof.
  unfold round_half_even. pose proof (floor_gap x) as [H0 H1].
  set (f := Qfloor x) in *. apply Qabs_Qle_condition.
  destruct (Qcompare_spec (x - inject_Z f) (1 # 2)) as [He|Hl|Hg].
  - destruct (Z.even f); [|rewrite inject_Z_succ]; lra.
  - lra.
  - rewrite inject_Z_succ. lra.
Qed.

Lemma Qfloor_half (n : Z) (x : Q) : (x == inject_Z n + (1 # 2))%Q -> Qfloor x = n.
Proof.
  intros Hx. pose proof (Qfloor_le x) as H1. pose proof (Qlt_floor x) as H2.
  rewrite inject_Z_succ in H2.
  assert (Hlo : (inject_Z (Qfloor x) < inject_Z (n + 1))%Q) by (rewrite inject_Z_succ; lra).
  assert (Hhi : (inject_Z n < inject_Z (Qfloor x + 1))%Q) by (rewrite inject_Z_succ; lra).
  rewrite <- Zlt_Qlt in Hlo, Hhi. lia.
Qed.

(** A tie goes to the even neighbour. *)
Lemma round_half_even_tie (n : Z) (x : Q) :
  (x == inject_Z n + (1 # 2))%Q ->
  round_half_even x = (if Z.even n then n else n + 1)%Z.
Proof.
  intros Hx. unfold round_half_even. rewrite (Qfloor_half n x Hx).
  assert (He : (x - inject_Z n == 1 # 2)%Q) by lra.
  apply Qeq_alt in He. now rewrite He.
Qed.

Lemma even_neighbour (n : Z) : Z.even (if Z.even n then n else n + 1)%Z = true.
Proof.
  destruct (Z.even n) eqn:E; [exact E|].
  rewrite Z.even_add, E. reflexivity.
Qed.

(** A value of binary64 is an integer of at most 53 bits times a power
    of two. *)
Lemma float64_shape (x : Q) :
  exists m e : Z, (float64 x == inject_Z m * pow2 e)%Q /\ (Z.abs m <= 2 ^ 53)%Z.
Proof.
  unfold float64. set (r := Qred x). set (e := fexp r).
  exists (round_half_even (r * pow2 (- e))), e. split; [reflexivity|].
  set (y := (r * pow2 (- e))%Q).
  assert (Hy : (Qabs y < inject_Z (2 ^ 53))%Q).
  { unfold y. rewrite Qabs_Qmult, (Qabs_pos (pow2 (- e))) by apply Qlt_le_weak, pow2_pos.
    apply Qlt_le_trans with (pow2 (ilog2 r + 1) * pow2 (- e))%Q.
    - apply Qmult_lt_compat_r; [apply pow2_pos|apply ilog2_upper].
    - rewrite <- pow2_add, <- (pow2_Z 53) by lia. apply pow2_le. unfold e, fexp. lia. }
  pose proof (round_half_even_near y) as Hn.
  apply Qabs_Qle_condition in Hn. apply Qabs_Qlt_condition in Hy.
  set (m := round_half_even y) in *. clearbody m y.
  set (b := inject_Z (2 ^ 53)) in *.
  assert (H1 : (inject_Z m < inject_Z (2 ^ 53 + 1))%Q).
  { rewrite inject_Z_plus. fold b. change (inject_Z 1) with 1%Q. lra. }
  assert (H2 : (inject_Z (- 2 ^ 53 - 1) < inject_Z m)%Q).
  { unfold Z.sub. rewrite inject_Z_plus, inject_Z_opp. fold b.
    change (inject_Z (- (1))) with (- (1))%Q. lra. }
  rewrite <- Zlt_Qlt in H1, H2. lia.
Qed.

(** A value of binary64 halfway between two integers is below 2^52 in
    size, the larger values being integers. *)
Lemma float64_half_small (x : Q) (n : Z) :
  (float64 x == inject_Z n + (1 # 2))%Q -> (- 2 ^ 52 <= n < 2 ^ 52)%Z.
Proof.
  intros H. destruct (float64_shape x) as (m & e & Hm & Hb). rewrite Hm in H.
  destruct (Z.le_gt_cases 0 e) as [He|He].
  - exfalso. rewrite (pow2_Z e He), <- inject_Z_mult in H.
    unfold Qeq, Qplus, inject_Z in H. simpl in H. lia.
  - assert (Hp : (pow2 e <= 1 # 2)%Q) by (apply (pow2_le e (-1)); lia).
    pose proof (pow2_pos e) as Hp0.
    assert (Hm1 : (inject_Z m <= inject_Z (2 ^ 53))%Q) by (rewrite <- Zle_Qle; lia).
    assert (Hm2 : (inject_Z (- 2 ^ 53) <= inject_Z m)%Q) by (rewrite <- Zle_Qle; lia).
    change (inject_Z (2 ^ 53)) with 9007199254740992%Q in Hm1.
    change (inject_Z (- 2 ^ 53)) with (-9007199254740992)%Q in Hm2.
    set (M := inject_Z m) in *. set (P := pow2 e) in *. clearbody M P.
    assert (H1 : (inject_Z n < inject_Z (2 ^ 52))%Q).
    { change (inject_Z (2 ^ 52)) with 4503599627370496%Q. nra. }
    assert (H2 : (inject_Z (- 2 ^ 52 - 1) < inject_Z n)%Q).
    { change (inject_Z (- 2 ^ 52 - 1)) with (-4503599627370497)%Q. nra. }
    rewrite <- Zlt_Qlt in H1, H2. lia.
Qed.

Lemma astype_int_fits (z : Z) : (- 2 ^ 63 <= z < 2 ^ 63)%Z -> astype_int z = z.
Proof.
  intros [H1 H2]. unfold astype_int.
  apply Z.leb_le in H1. apply Z.ltb_lt in H2. now rewrite H1, H2.
Qed.

End RoundFacts.

Import RoundFacts.

(** C8.  When rounding down, the ticket counts of all the groups together
    are at most the raw counts together, and in each group the raw count
    exceeds the ticket count by less than 1 (and is not below it). *)
Theorem floor_tickets_bound (cfg : settings) (df_lodd : list LoddRow) :
  round_down cfg = true ->
  let agg := agg_of cfg df_lodd in
  (inject_Z (Zsum (map Lodd agg)) <= Qsum (map Lodd_raw agg))%Q
  /\ Forall (fun a : AggRow => (0 <= Lodd_raw a - inject_Z (Lodd a) < 1)%Q) agg.
Proof.
  intros Hround agg.
  assert (Hall : Forall (fun a : AggRow => (0 <= Lodd_raw a - inject_Z (Lodd a) < 1)%Q) agg).
  { apply Forall_forall. intros a Ha. rewrite (Lodd_agg cfg df_lodd a Ha), Hround.
    apply floor_gap. }
  split; [|exact Hall].
  rewrite inject_Zsum, map_map. apply Qsum_le.
  eapply Forall_impl; [exact Hall|]. intros a [H _]. simpl in H. lra.
Qed.

(** Three groups at 20 kr a ticket: 45 kr, 30 kr and 19 kr give 2, 1 and
    0 tickets for raw counts of 2.25, 1.5 and 0.95. *)
Lemma floor_tickets_bound_witness :
  let cfg := {| loddpris := 20; name_mode := Fullt_navn; round_down := true |} in
  let agg := agg_of cfg [ {| Bilde := "A"; Navn := "Kari"; Brutto := 45 |};
                          {| Bilde := "A"; Navn := "Ola"; Brutto := 15 |};
                          {| Bilde := "B"; Navn := "Per"; Brutto := 19 |};
                          {| Bilde := "A"; Navn := "Ola"; Brutto := 15 |} ] in
  map Lodd agg = [2; 1; 0]%Z
  /\ (inject_Z (Zsum (map Lodd agg)) <= Qsum (map Lodd_raw agg))%Q
  /\ Forall (fun a : AggRow => (0 <= Lodd_raw a - inject_Z (Lodd a) < 1)%Q) agg.
Proof.
  intros cfg agg. split; [reflexivity|].
  exact (floor_tickets_bound cfg _ eq_refl).
Defined.

(** C10.  When rounding to the nearest, a raw count exactly halfway
    between two integers gives the even one of the two as the ticket
    count; and whenever the rounded count fits int64, the ticket count is
    an integer nearest to the raw count. *)
Theorem nearest_rounds_half_to_even (cfg : settings) (df_lodd : list LoddRow) (a : AggRow) :
  round_down cfg = false ->
  a ∈ agg_of cfg df_lodd ->
  (forall n : Z, (Lodd_raw a == inject_Z n + (1 # 2))%Q ->
     Lodd a = (if Z.even n then n else n + 1)%Z /\ Z.even (Lodd a) = true)
  /\ ((- 2 ^ 63 <= round_half_even (Lodd_raw a) < 2 ^ 63)%Z ->
      (Qabs (Lodd_raw a - inject_Z (Lodd a)) <= 1 # 2)%Q).
Proof.
  intros Hround Ha. rewrite (Lodd_agg cfg df_lodd a Ha), Hround. unfold lodd_of.
  split.
  - intros n Hn. rewrite (round_half_even_tie n _ Hn).
    assert (Hsmall : (- 2 ^ 52 <= n < 2 ^ 52)%Z).
    { rewrite (Lodd_raw_agg cfg df_lodd a Ha) in Hn. exact (float64_half_small _ n Hn). }
    rewrite astype_int_fits; [split; [reflexivity|apply even_neighbour]|].
    destruct (Z.even n); lia.
  - intros Hfit. rewrite (astype_int_fits _ Hfit). apply round_half_even_near.
Qed.

(** At 20 kr a ticket, 50 kr is a raw count of 2.5 and gives 2 tickets,
    70 kr is 3.5 and gives 4. *)
Lemma nearest_rounds_half_to_even_witness :
  let cfg := {| loddpris := 20; name_mode := Fullt_navn; round_down := false |} in
  let df_lodd := [ {| Bilde := "A"; Navn := "Kari"; Brutto := 50 |};
                   {| Bilde := "A"; Navn := "Ola"; Brutto := 70 |} ] in
  exists a b : AggRow,
    agg_of cfg df_lodd = [a; b]
    /\ (Lodd_raw a == 5 # 2)%Q /\ Lodd a = 2%Z
    /\ (Lodd_raw b == 7 # 2)%Q /\ Lodd b = 4%Z.
Proof.
  intros cfg df_lodd.
  destruct (agg_of cfg df_lodd) as [|a [|b [|c l]]] eqn:E; try discriminate E.
  assert (Ha : a ∈ agg_of cfg df_lodd) by (rewrite E; apply list_elem_of_here).
  assert (Hb : b ∈ agg_of cfg df_lodd)
    by (rewrite E; apply list_elem_of_further, list_elem_of_here).
  injection E as Ea Eb.
  assert (Hra : (Lodd_raw a == inject_Z 2 + (1 # 2))%Q)
    by (rewrite <- Ea; vm_compute; reflexivity).
  assert (Hrb : (Lodd_raw b == inject_Z 3 + (1 # 2))%Q)
    by (rewrite <- Eb; vm_compute; reflexivity).
  exists a, b. split; [reflexivity|].
  split; [rewrite <- Ea; vm_compute; reflexivity|].
  split; [exact (proj1 (proj1 (nearest_rounds_half_to_even cfg df_lodd a eq_refl Ha) 2%Z Hra))|].
  split; [rewrite <- Eb; vm_compute; reflexivity|].
  exact (proj1 (proj1 (nearest_rounds_half_to_even cfg df_lodd b eq_refl Hb) 3%Z Hrb)).
Defined.

(** ** Amounts that are no multiple of the price *)

Module ModFacts.

Lemma Qmod_zero (x : Q) (p : Z) :
  (1 <= p)%Z ->
  (Qmod x (inject_Z p) == 0)%Q <-> exists k : Z, (x == inject_Z (k * p))%Q.
Proof.
  intros Hp. unfold Qmod.
  assert (Hp0 : ~ (inject_Z p == 0)%Q).
  { intros H. unfold Qeq in H. simpl in H. lia. }
  split.
  - intros H. exists (Qfloor (x / inject_Z p)).
    rewrite inject_Z_mult. lra.
  - intros (k & Hk). rewrite inject_Z_mult in Hk.
    assert (Hq : (x / inject_Z p == inject_Z k)%Q) by (rewrite Hk; now field).
    rewrite Hq, Qfloor_Z. lra.
Qed.

Lemma is_non_multiple_spec cfg (a : AggRow) :
  is_non_multiple cfg a = true <->
  ~ (Qmod (Brutto a) (inject_Z (loddpris cfg)) == 0)%Q.
Proof.
  unfold is_non_multiple. rewrite negb_true_iff, <- Qeq_bool_iff.
  now destruct (Qeq_bool _ _).
Qed.

End ModFacts.

Import ModFacts.

(** C7, as amended.  A row of [agg] is in the table of amounts that do not
    go up in the price exactly when its amount is no integer multiple of
    the price: the remainder is compared with zero as it is, without any
    tolerance. *)
Theorem non_multiple_exact_comparison (cfg : settings) (agg : list AggRow) (a : AggRow) :
  (1 <= loddpris cfg)%Z ->
  a ∈ non_multiple_of cfg agg <->
  a ∈ agg /\ ~ exists k : Z, (Brutto a == inject_Z (k * loddpris cfg))%Q.
Proof.
  intros Hp. unfold non_multiple_of.
  rewrite list_elem_of_In, List.filter_In, <- list_elem_of_In.
  now rewrite is_non_multiple_spec, (Qmod_zero _ _ Hp).
Qed.

(** The example of the specification: 45 kr at 20 kr a ticket is flagged,
    with a raw count of 2.25 and 2 tickets when rounding down; 40 kr is
    not flagged. *)
Lemma non_multiple_exact_comparison_witness :
  let cfg := {| loddpris := 20; name_mode := Fullt_navn; round_down := true |} in
  let agg := agg_of cfg [ {| Bilde := "A"; Navn := "Kari"; Brutto := 45 |};
                          {| Bilde := "A"; Navn := "Ola"; Brutto := 40 |} ] in
  exists a b : AggRow,
    agg = [a; b] /\ non_multiple_of cfg agg = [a]
    /\ (Lodd_raw a == 9 # 4)%Q /\ Lodd a = 2%Z
    /\ ~ exists k : Z, (Brutto a == inject_Z (k * 20))%Q.
Proof.
  intros cfg agg.
  destruct agg as [|a [|b [|c l]]] eqn:E; try discriminate E.
  exists a, b. split; [reflexivity|].
  injection E as Ea Eb.
  assert (Hnm : non_multiple_of cfg [a; b] = [a]) by (rewrite <- Ea, <- Eb; reflexivity).
  split; [exact Hnm|].
  split; [rewrite <- Ea; reflexivity|]. split; [rewrite <- Ea; reflexivity|].
  assert (Ha : a ∈ non_multiple_of cfg [a; b]) by (rewrite Hnm; apply list_elem_of_here).
  assert (Hp : (1 <= loddpris cfg)%Z) by (vm_compute; discriminate).
  exact (proj2 (proj1 (non_multiple_exact_comparison cfg [a; b] a Hp) Ha)).
Defined.

(** C7, the claim as worded fails: a sum of 20 kr and 2^-20 kr (a value of
    binary64) leaves a remainder below 1e-6, which the tolerance of the
    specification would count as an exact multiple, and the code flags
    it. *)
Lemma non_multiple_has_no_tolerance :
  let cfg := {| loddpris := 20; name_mode := Fullt_navn; round_down := true |} in
  let row := {| Bilde := "A"; Navn := "Ola"; Brutto := 20971521 # 1048576 |} in
  exists a : AggRow,
    agg_of cfg [row] = [a]
    /\ (Brutto a == 20 + (1 # 1048576))%Q
    /\ non_multiple_of cfg [a] = [a]
    /\ Spec.is_non_exact_multiple (Brutto a) 20 = false.
Proof.
  intros cfg row. exists (agg_row_of cfg (group_row [row] (key row))).
  vm_compute. repeat split.
Qed.

(** ** Required columns *)

Module MessageFacts.

Lemma append_assoc (a b c : string) : (a +:+ b) +:+ c = a +:+ (b +:+ c).
Proof.
  induction a as [|x a IH]; [reflexivity|].
  change (String x a +:+ b) with (String x (a +:+ b)).
  change (String x (a +:+ b) +:+ c) with (String x ((a +:+ b) +:+ c)).
  now rewrite IH.
Qed.

Lemma append_empty_r (a : string) : a +:+ "" = a.
Proof.
  induction a as [|x a IH]; [reflexivity|].
  change (String x a +:+ "") with (String x (a +:+ "")). now rewrite IH.
Qed.

Lemma is_substring_refl c : is_substring c c.
Proof. exists "", "". now rewrite append_empty_r. Qed.

Lemma is_substring_wrap c s a b :
  is_substring c s -> is_substring c (a +:+ s +:+ b).
Proof.
  intros (pre & post & ->). exists (a +:+ pre), (post +:+ b).
  now rewrite !append_assoc.
Qed.

Lemma is_substring_join sep (f : string -> string) c l :
  c ∈ l -> is_substring (f c) (join sep (map f l)).
Proof.
  induction l as [|x l IH]; intros Hc; [now apply elem_of_nil in Hc|].
  apply elem_of_cons in Hc as [->|Hc].
  - destruct l as [|y l]; [apply is_substring_refl|].
    change (join sep (map f (x :: y :: l)))
      with (f x +:+ sep +:+ join sep (map f (y :: l))).
    exists "", (sep +:+ join sep (map f (y :: l))). reflexivity.
  - destruct l as [|y l]; [now apply elem_of_nil in Hc|].
    change (join sep (map f (x :: y :: l)))
      with (f x +:+ sep +:+ join sep (map f (y :: l))).
    rewrite <- append_assoc.
    rewrite <- (append_empty_r (join sep (map f (y :: l)))).
    apply is_substring_wrap. now apply IH.
Qed.

Lemma missing_message_lists missing c :
  c ∈ missing -> is_substring c (missing_message missing).
Proof.
  intros Hc. unfold missing_message, repr_list.
  apply (is_substring_join ", " (fun c => "'" +:+ c +:+ "'")) in Hc.
  destruct Hc as (pre & post & Hc).
  rewrite Hc. exists ("Mangler forventede kolonner i rapporten: " +:+ "[" +:+ pre +:+ "'"),
                     ("'" +:+ post +:+ "]").
  now rewrite !append_assoc.
Qed.

Lemma elem_of_missing df c :
  c ∈ missing_of df <-> c ∈ required_cols /\ c ∉ columns df.
Proof.
  unfold missing_of.
  rewrite list_elem_of_In, List.filter_In, <- list_elem_of_In, negb_true_iff.
  now rewrite bool_decide_eq_false.
Qed.

End MessageFacts.

Import MessageFacts.

Section Run.

Variable num_str : Q -> string.
Variable parse_number : string -> option Q.

(** C9.  If a required column is not among the columns of the frame, the
    run stops with the error whose message prints the list of exactly the
    required columns that are absent, each by its name, and nothing is
    rendered; if the three are there, the run does not stop with that
    error. *)
Theorem missing_columns_stop (cfg : settings) (df : DataFrame) :
  ((exists c, c ∈ required_cols /\ c ∉ columns df) ->
     exists missing,
       run num_str parse_number cfg df = Stop_error (missing_message missing)
       /\ (forall c, c ∈ missing <-> c ∈ required_cols /\ c ∉ columns df)
       /\ (forall c, c ∈ missing -> is_substring c (missing_message missing))
       /\ (forall agg non_multiple tabs,
             run num_str parse_number cfg df <> Rendered agg non_multiple tabs))
  /\ ((forall c, c ∈ required_cols -> c ∈ columns df) ->
        forall msg, run num_str parse_number cfg df <> Stop_error msg).
Proof.
  split.
  - intros (c & Hc & Habs). exists (missing_of df).
    assert (Hrun : run num_str parse_number cfg df
                   = Stop_error (missing_message (missing_of df))).
    { unfold run. destruct (missing_of df) as [|m l] eqn:E; [|reflexivity].
      assert (c ∈ missing_of df) as H by now apply elem_of_missing.
      rewrite E in H. now apply elem_of_nil in H. }
    split; [exact Hrun|]. split; [apply elem_of_missing|].
    split; [apply missing_message_lists|].
    intros agg nm tabs. rewrite Hrun. discriminate.
  - intros Hall msg. unfold run.
    destruct (missing_of df) as [|m l] eqn:E.
    + destruct (List.filter _ (rows df)); discriminate.
    + assert (m ∈ missing_of df) as H by (rewrite E; apply list_elem_of_here).
      apply elem_of_missing in H as [Hreq Habs]. now apply Hall in Hreq.
Qed.

End Run.

(** A report without the amount column stops with the error that names
    it; a report with the three columns is rendered. *)
Lemma missing_columns_stop_witness :
  let cfg := {| loddpris := 20; name_mode := Fullt_navn; round_down := true |} in
  let row : Series :=
    {[ "Salgssted" := CStr "Lodd bilde A"; "Transaksjonstype" := CStr "Salg";
       "Fornavn" := CStr "Kari" ]} in
  let df := {| columns := ["Salgssted"; "Transaksjonstype"; "Fornavn"]; rows := [row] |} in
  exists missing,
    run (fun _ => "") (fun _ => None) cfg df = Stop_error (missing_message missing)
    /\ (forall c, c ∈ missing <-> c ∈ required_cols /\ c ∉ columns df)
    /\ missing_message missing = "Mangler forventede kolonner i rapporten: ['Brutto']".
Proof.
  intros cfg row df.
  destruct (proj1 (missing_columns_stop (fun _ => "") (fun _ => None) cfg df))
    as (missing & Hrun & Hm & _).
  - exists "Brutto". split.
    + do 2 apply list_elem_of_further. apply list_elem_of_here.
    + intros H. simpl in H.
      repeat (apply elem_of_cons in H as [H|H]; [discriminate H|]).
      now apply elem_of_nil in H.
  - exists missing. split; [exact Hrun|]. split; [exact Hm|].
    assert (E : run (fun _ => "") (fun _ => None) cfg df
                = Stop_error "Mangler forventede kolonner i rapporten: ['Brutto']")
      by reflexivity.
    exact (f_equal (fun o => match o with Stop_error m => m | _ => "" end)
                   (eq_trans (eq_sym Hrun) E)).
Defined.

(** ** The view of one artwork *)

Module TabFacts.

Lemma elem_of_group agg b (a : AggRow) :
  a ∈ group_of agg b <-> a ∈ agg /\ Bilde a = b.
Proof.
  unfold group_of. now rewrite list_elem_of_In, List.filter_In, <- list_elem_of_In, String.eqb_eq.
Qed.

(** Within one artwork the names of [agg] are distinct. *)
Lemma group_names_NoDup (l : list AggRow) b :
  NoDup (map (fun a : AggRow => key a) l) ->
  NoDup (map (fun a : AggRow => Navn a) (group_of l b)).
Proof.
  induction l as [|x l IH]; simpl; [constructor|].
  intros Hnd. apply NoDup_cons in Hnd as [Hx Hl].
  destruct (String.eqb (Bilde x) b) eqn:E; [|now apply IH].
  apply String.eqb_eq in E. simpl. apply NoDup_cons. split; [|now apply IH].
  intros Hin. apply list_elem_of_fmap in Hin as (y & Hn & Hy).
  apply elem_of_group in Hy as [Hy Hb]. apply Hx.
  apply list_elem_of_fmap. exists y. split; [|assumption].
  unfold key. congruence.
Qed.

Lemma sorted_group_Permutation agg b :
  merge_sort sub_le (group_of agg b) ≡ₚ group_of agg b.
Proof. apply merge_sort_Permutation. Qed.

Lemma sorted_group_sorted agg b :
  StronglySorted sub_le (merge_sort sub_le (group_of agg b)).
Proof. apply StronglySorted_merge_sort; apply _. Qed.

Lemma sub_names agg b :
  map (fun r : SubRow => Navn r) (sub_of agg b)
  = map (fun a : AggRow => Navn a) (merge_sort sub_le (group_of agg b)).
Proof. unfold sub_of. now rewrite map_map. Qed.

Lemma sub_names_NoDup cfg df b :
  NoDup (map (fun r : SubRow => Navn r) (sub_of (agg_of cfg df) b)).
Proof.
  rewrite sub_names, sorted_group_Permutation.
  apply group_names_NoDup. rewrite agg_keys. apply group_keys_NoDup.
Qed.

Lemma elem_of_sub agg b (r : SubRow) :
  r ∈ sub_of agg b <-> exists a : AggRow, r = clamp a /\ a ∈ agg /\ Bilde a = b.
Proof.
  unfold sub_of. rewrite list_elem_of_fmap. split.
  - intros (a & -> & Ha). rewrite sorted_group_Permutation in Ha.
    apply elem_of_group in Ha. now exists a.
  - intros (a & -> & Ha). exists a. split; [reflexivity|].
    rewrite sorted_group_Permutation. now apply elem_of_group.
Qed.

Lemma has_lodd_clamp (a : AggRow) : has_lodd (clamp a) = (0 <? Lodd a)%Z.
Proof.
  unfold has_lodd, clamp. simpl.
  destruct (Z.ltb_spec 0 (Lodd a)); destruct (Z.ltb_spec 0 (Z.max (Lodd a) 0)); lia.
Qed.

(** The rows with tickets come in the order of the ticket list. *)
Lemma sub_ticket_order (l : list AggRow) :
  StronglySorted sub_le l -> NoDup (map (fun a : AggRow => Navn a) l) ->
  StronglySorted ticket_order (List.filter has_lodd (map clamp l)).
Proof.
  induction 1 as [|x l Hl IH Hx]; intros Hnd; simpl; [constructor|].
  apply NoDup_cons in Hnd as [Hxn Hnd]. specialize (IH Hnd).
  destruct (has_lodd (clamp x)) eqn:Ex; [|exact IH].
  constructor; [exact IH|]. apply Forall_forall. intros r Hr.
  apply list_elem_of_In, List.filter_In in Hr as [Hr Hpos].
  apply list_elem_of_In, list_elem_of_fmap in Hr as (y & -> & Hy).
  rewrite Forall_forall in Hx. specialize (Hx y Hy).
  rewrite has_lodd_clamp in Ex, Hpos.
  apply Z.ltb_lt in Ex, Hpos. apply sub_le_cases in Hx.
  unfold ticket_order, clamp. simpl. rewrite !Z.max_l by lia.
  destruct Hx as [Hx|[Hx Hn]]; [now left|]. right. split; [exact Hx|].
  apply leb_cases in Hn as [Hn|Hn]; [exact Hn|].
  exfalso. apply Hxn. apply list_elem_of_fmap. now exists y.
Qed.

(** All of [sub] is in the order of falling clamped counts. *)
Lemma sub_clamped_order (l : list AggRow) :
  StronglySorted sub_le l ->
  StronglySorted (fun r1 r2 : SubRow => (Lodd_clamped r2 <= Lodd_clamped r1)%Z)
                 (map clamp l).
Proof.
  induction 1 as [|x l Hl IH Hx]; simpl; constructor; [exact IH|].
  apply Forall_forall. intros r Hr. apply list_elem_of_fmap in Hr as (y & -> & Hy).
  rewrite Forall_forall in Hx. specialize (Hx y Hy). apply sub_le_cases in Hx.
  unfold clamp. simpl. lia.
Qed.

Lemma occurrences_app n l1 l2 :
  occurrences n (l1 ++ l2) = occurrences n l1 + occurrences n l2.
Proof. unfold occurrences. now rewrite List.filter_app, length_app. Qed.

Lemma occurrences_replicate n m k :
  occurrences n (replicate k m) = if decide (n = m) then k else 0.
Proof.
  unfold occurrences. induction k as [|k IH]; simpl.
  - now destruct (decide (n = m)).
  - destruct (decide (n = m)) as [->|Hne].
    + rewrite String.eqb_refl. simpl. now rewrite IH.
    + apply String.eqb_neq in Hne. now rewrite Hne.
Qed.

Lemma occurrences_block n (r : SubRow) :
  occurrences n (if (Lodd_clamped r <=? 0)%Z then []
                 else replicate (Z.to_nat (Lodd_clamped r)) (Navn r))
  = if decide (n = Navn r) then Z.to_nat (Lodd_clamped r) else 0.
Proof.
  destruct (Z.leb_spec (Lodd_clamped r) 0).
  - destruct (decide (n = Navn r)); [|reflexivity]. unfold occurrences. simpl. lia.
  - apply occurrences_replicate.
Qed.

Lemma occurrences_wheel n (l : list SubRow) :
  NoDup (map (fun r : SubRow => Navn r) l) ->
  (n ∉ map (fun r : SubRow => Navn r) l -> occurrences n (wheel_names_of l) = 0)
  /\ (forall r : SubRow, r ∈ l -> n = Navn r ->
        occurrences n (wheel_names_of l) = Z.to_nat (Lodd_clamped r)).
Proof.
  induction l as [|x l IH]; intros Hnd.
  - split; [reflexivity|]. intros r Hr. now apply elem_of_nil in Hr.
  - apply NoDup_cons in Hnd as [Hx Hnd]. destruct (IH Hnd) as [IH0 IH1].
    change (wheel_names_of (x :: l))
      with ((if (Lodd_clamped x <=? 0)%Z then []
             else replicate (Z.to_nat (Lodd_clamped x)) (Navn x)) ++ wheel_names_of l).
    rewrite occurrences_app, occurrences_block. split.
    + intros Hn. simpl in Hn. apply not_elem_of_cons in Hn as [Hne Hn].
      destruct (decide (n = Navn x)); [contradiction|]. now rewrite IH0.
    + intros r Hr Hn. apply elem_of_cons in Hr as [->|Hr].
      * destruct (decide (n = Navn x)); [|contradiction].
        rewrite IH0; [lia|]. now subst n.
      * destruct (decide (n = Navn x)) as [E|_].
        -- exfalso. apply Hx. rewrite <- E, Hn. apply list_elem_of_fmap. now exists r.
        -- now rewrite (IH1 r Hr Hn).
Qed.

Lemma occurrences_zero n l : occurrences n l = 0 <-> n ∉ l.
Proof.
  unfold occurrences. induction l as [|x l IH]; simpl.
  - split; [intros _ H; now apply elem_of_nil in H|reflexivity].
  - rewrite not_elem_of_cons. destruct (String.eqb_spec n x) as [->|Hne]; simpl.
    + split; [discriminate|]. intros [H _]. congruence.
    + rewrite IH. intuition.
Qed.

Lemma Zsum_clamped (l : list SubRow) :
  Forall (fun r : SubRow => Lodd_clamped r = Z.max (Lodd r) 0) l ->
  Zsum (map Lodd_clamped l)
  = Zsum (map (fun r : SubRow => Lodd r) (List.filter has_lodd l)).
Proof.
  induction 1 as [|r l Hr _ IH]; [reflexivity|].
  simpl. unfold has_lodd at 1. rewrite IH.
  destruct (Z.ltb_spec 0 (Lodd_clamped r)); simpl; lia.
Qed.

Lemma sub_clamped agg b :
  Forall (fun r : SubRow => Lodd_clamped r = Z.max (Lodd r) 0) (sub_of agg b).
Proof.
  apply Forall_forall. intros r Hr. apply elem_of_sub in Hr as (a & -> & _). reflexivity.
Qed.

(** All of [sub] is in the order of [sort_values]. *)
Lemma sub_full_order (l : list AggRow) :
  StronglySorted sub_le l -> NoDup (map (fun a : AggRow => Navn a) l) ->
  StronglySorted sub_order (map clamp l).
Proof.
  induction 1 as [|x l Hl IH Hx]; intros Hnd; simpl; [constructor|].
  apply NoDup_cons in Hnd as [Hxn Hnd]. constructor; [now apply IH|].
  apply Forall_forall. intros r Hr. apply list_elem_of_fmap in Hr as (y & -> & Hy).
  rewrite Forall_forall in Hx. specialize (Hx y Hy). apply sub_le_cases in Hx.
  unfold sub_order, clamp. simpl.
  destruct Hx as [Hx|[Hx Hn]]; [now left|]. right. split; [exact Hx|].
  apply leb_cases in Hn as [Hn|Hn]; [exact Hn|].
  exfalso. apply Hxn. apply list_elem_of_fmap. now exists y.
Qed.

(** The ticket list in terms of [Lodd]. *)
Lemma wheel_names_by_lodd (l : list SubRow) :
  Forall (fun r : SubRow => Lodd_clamped r = Z.max (Lodd r) 0) l ->
  wheel_names_of l
  = flat_map (fun r : SubRow => replicate (Z.to_nat (Z.max (Lodd r) 0)) (Navn r)) l.
Proof.
  unfold wheel_names_of. induction 1 as [|r l Hr _ IH]; [reflexivity|].
  simpl. rewrite IH, Hr. destruct (Z.leb_spec (Z.max (Lodd r) 0) 0) as [H|H]; [|reflexivity].
  replace (Z.max (Lodd r) 0) with 0%Z by lia. reflexivity.
Qed.

Lemma sub_rows agg b :
  map agg_row (sub_of agg b)
  ≡ₚ List.filter (fun a : AggRow => String.eqb (Bilde a) b) agg.
Proof.
  unfold sub_of. rewrite map_map. cbn [clamp agg_row]. rewrite map_id.
  apply sorted_group_Permutation.
Qed.

End TabFacts.

Import TabFacts.

(** C5, as amended.  The text to copy for an artwork is the ticket list
    joined by newlines.  The rows of [sub] are the rows of [agg] of the
    artwork, each with [Lodd_clamped = max(Lodd, 0)], in the order of
    [sort_values]: the larger [Lodd] first, the smaller name first among
    equal [Lodd].  The ticket list is made of one block per row of [sub],
    in that order, the name repeated [max(Lodd, 0)] times; the rows that
    give a block come in the order of the clamped counts, more tickets
    first and the smaller name first among equal counts.  So every buyer
    of the artwork is in the list exactly [max(Lodd, 0)] times, and no
    other name is in it. *)
Theorem ticket_list_counts_and_order (cfg : settings) (df_lodd : list LoddRow) (b : string) :
  let agg := agg_of cfg df_lodd in
  let t := tab_of agg b in
  wheel_text t = join newline (wheel_names t)
  /\ map agg_row (sub t) ≡ₚ List.filter (fun a : AggRow => String.eqb (Bilde a) b) agg
  /\ Forall (fun r : SubRow => Lodd_clamped r = Z.max (Lodd r) 0) (sub t)
  /\ StronglySorted sub_order (sub t)
  /\ wheel_names t
     = flat_map (fun r : SubRow => replicate (Z.to_nat (Z.max (Lodd r) 0)) (Navn r)) (sub t)
  /\ StronglySorted ticket_order (List.filter has_lodd (sub t))
  /\ (forall a : AggRow, a ∈ agg -> Bilde a = b ->
        occurrences (Navn a) (wheel_names t) = Z.to_nat (Z.max (Lodd a) 0))
  /\ (forall n, (forall a : AggRow, a ∈ agg -> Bilde a = b -> Navn a <> n) ->
        occurrences n (wheel_names t) = 0).
Proof.
  intros agg t. unfold t, tab_of. cbn [wheel_text wheel_names sub].
  pose proof (sub_names_NoDup cfg df_lodd b) as Hnd. fold agg in Hnd.
  assert (Hgn : NoDup (map (fun a : AggRow => Navn a) (merge_sort sub_le (group_of agg b)))).
  { rewrite sorted_group_Permutation. apply group_names_NoDup.
    unfold agg. rewrite agg_keys. apply group_keys_NoDup. }
  split; [reflexivity|]. split; [apply sub_rows|]. split; [apply sub_clamped|].
  split; [|split; [|split; [|split]]].
  - unfold sub_of. apply sub_full_order; [apply sorted_group_sorted|exact Hgn].
  - apply wheel_names_by_lodd, sub_clamped.
  - unfold sub_of. apply sub_ticket_order; [apply sorted_group_sorted|exact Hgn].
  - intros a Ha Hb.
    assert (Hr : clamp a ∈ sub_of agg b) by (apply elem_of_sub; now exists a).
    exact (proj2 (occurrences_wheel (Navn a) _ Hnd) (clamp a) Hr eq_refl).
  - intros n Hn. apply (occurrences_wheel n _ Hnd).
    intros Hin. apply list_elem_of_fmap in Hin as (r & -> & Hr).
    apply elem_of_sub in Hr as (a & -> & Ha & Hb). now apply (Hn a).
Qed.

(** Four buyers of artwork A at 20 kr a ticket, one of them in two
    payments and one with a net refund, and a buyer of artwork B. *)
Lemma ticket_list_counts_and_order_witness :
  let cfg := {| loddpris := 20; name_mode := Fullt_navn; round_down := true |} in
  let df_lodd := [ {| Bilde := "A"; Navn := "Ola"; Brutto := 30 |};
                   {| Bilde := "A"; Navn := "Kari"; Brutto := 40 |};
                   {| Bilde := "B"; Navn := "Per"; Brutto := 100 |};
                   {| Bilde := "A"; Navn := "Ola"; Brutto := 30 |};
                   {| Bilde := "A"; Navn := "Anna"; Brutto := 40 |};
                   {| Bilde := "A"; Navn := "Zoe"; Brutto := (-20) |} ] in
  let t := tab_of (agg_of cfg df_lodd) "A" in
  map (fun r : SubRow => (Navn r, Lodd r)) (sub t)
  = [("Ola", 3); ("Anna", 2); ("Kari", 2); ("Zoe", -1)]%Z
  /\ wheel_names t = ["Ola"; "Ola"; "Ola"; "Anna"; "Anna"; "Kari"; "Kari"]
  /\ occurrences "Ola" (wheel_names t) = 3
  /\ occurrences "Zoe" (wheel_names t) = 0
  /\ occurrences "Per" (wheel_names t) = 0.
Proof.
  intros cfg df_lodd t.
  destruct (ticket_list_counts_and_order cfg df_lodd "A")
    as (_ & _ & _ & _ & Hw & _ & Hocc & Hnone).
  fold t in Hw, Hocc, Hnone.
  assert (K : group_keys df_lodd
              = [("A", "Anna"); ("A", "Kari"); ("A", "Ola"); ("A", "Zoe"); ("B", "Per")])
    by (vm_compute; reflexivity).
  assert (Hin : forall n, (("A", n) : string * string) ∈ group_keys df_lodd ->
                  agg_row_of cfg (group_row df_lodd ("A", n)) ∈ agg_of cfg df_lodd).
  { intros n Hn. apply elem_of_agg. exists ("A", n). split; [exact Hn|reflexivity]. }
  split; [vm_compute; reflexivity|]. split; [rewrite Hw; vm_compute; reflexivity|].
  split; [|split].
  - refine (eq_trans (Hocc (agg_row_of cfg (group_row df_lodd ("A", "Ola"))) _ eq_refl) _).
    + apply Hin. rewrite K. do 2 apply list_elem_of_further. apply list_elem_of_here.
    + vm_compute. reflexivity.
  - refine (eq_trans (Hocc (agg_row_of cfg (group_row df_lodd ("A", "Zoe"))) _ eq_refl) _).
    + apply Hin. rewrite K. do 3 apply list_elem_of_further. apply list_elem_of_here.
    + vm_compute. reflexivity.
  - apply Hnone. intros a Ha Hb Hn.
    apply elem_of_agg in Ha as (k & Hk & ->). rewrite K in Hk.
    destruct k as [kb kn]. cbn [agg_row_of entry group_row Bilde Navn fst snd] in Hb, Hn.
    subst kb kn. repeat (apply elem_of_cons in Hk as [Hk|Hk]; [discriminate Hk|]).
    now apply elem_of_nil in Hk.
Defined.

(** C5, the claim as worded fails on the rows without tickets: the rows
    of an artwork are sorted on [Lodd] before it is clamped, so a buyer
    with no ticket stands before a buyer with a net refund whatever their
    names, where the order by clamped count and then by name would have
    it the other way round.  Neither of the two is in the ticket list. *)
Lemma rows_without_tickets_not_by_name :
  let cfg := {| loddpris := 20; name_mode := Fullt_navn; round_down := true |} in
  let t := tab_of (agg_of cfg [ {| Bilde := "A"; Navn := "Zoe"; Brutto := 10 |};
                                {| Bilde := "A"; Navn := "Anna"; Brutto := (-20) |} ]) "A" in
  map (fun r : SubRow => (Navn r, Lodd r, Lodd_clamped r)) (sub t)
  = [("Zoe", 0, 0); ("Anna", -1, 0)]%Z
  /\ ~ StronglySorted Spec.presentation_order (sub t)
  /\ wheel_names t = [].
Proof.
  intros cfg t. split; [vm_compute; reflexivity|]. split; [|vm_compute; reflexivity].
  intros H.
  let v := eval vm_compute in (sub t) in
  assert (E : sub t = v) by (vm_compute; reflexivity).
  rewrite E in H. apply StronglySorted_inv in H as [_ H].
  apply Forall_inv in H. destruct H as [H|[_ H]]; vm_compute in H; discriminate H.
Qed.

(** The four buyers of artwork A again, with the metrics of the tab. *)
Example ticket_list_example :
  let cfg := {| loddpris := 20; name_mode := Fullt_navn; round_down := true |} in
  let t := tab_of (agg_of cfg
             [ {| Bilde := "A"; Navn := "Ola"; Brutto := 30 |};
               {| Bilde := "A"; Navn := "Kari"; Brutto := 40 |};
               {| Bilde := "B"; Navn := "Per"; Brutto := 100 |};
               {| Bilde := "A"; Navn := "Ola"; Brutto := 30 |};
               {| Bilde := "A"; Navn := "Anna"; Brutto := 40 |};
               {| Bilde := "A"; Navn := "Zoe"; Brutto := (-20) |} ]) "A" in
  wheel_names t = ["Ola"; "Ola"; "Ola"; "Anna"; "Anna"; "Kari"; "Kari"]
  /\ map Lodd_clamped (sub t) = [3; 2; 2; 0]%Z
  /\ total_lodd t = 7%Z /\ buyers t = 3%Z.
Proof. vm_compute. repeat split. Qed.

(** C6.  A buyer whose ticket count is negative has the clamped count 0:
    the buyer is not in the ticket list, not among the buyers counted, not
    in the top-10 table that also feeds the chart, and adds nothing to
    the total; the row itself is the row of [agg], with the negative
    count and the summed amount as computed, and the detail table of the
    amounts that are no multiple of the price takes it from [agg] as it
    is. *)
Theorem negative_count_clamped (cfg : settings) (df_lodd : list LoddRow) (b : string)
    (r : SubRow) :
  let t := tab_of (agg_of cfg df_lodd) b in
  r ∈ sub t ->
  (Lodd r < 0)%Z ->
  Lodd_clamped r = 0%Z
  /\ (Navn r ∉ wheel_names t)
  /\ has_lodd r = false
  /\ buyers t = Z.of_nat (length (List.filter has_lodd (sub t)))
  /\ (r ∉ top10 t)
  /\ total_lodd t = Zsum (map (fun r : SubRow => Lodd r) (List.filter has_lodd (sub t)))
  /\ agg_row r ∈ agg_of cfg df_lodd
  /\ (agg_row r ∈ non_multiple_of cfg (agg_of cfg df_lodd) <-> is_non_multiple cfg r = true).
Proof.
  intros t Hr Hneg. unfold t, tab_of in *. cbn [wheel_names sub buyers top10 total_lodd] in *.
  pose proof (sub_names_NoDup cfg df_lodd b) as Hnd.
  assert (Hc : Lodd_clamped r = 0%Z).
  { pose proof (sub_clamped (agg_of cfg df_lodd) b) as H.
    rewrite Forall_forall in H. rewrite (H r Hr). lia. }
  assert (Hl : has_lodd r = false) by (unfold has_lodd; now rewrite Hc).
  assert (Ha : agg_row r ∈ agg_of cfg df_lodd).
  { apply elem_of_sub in Hr as (a & -> & Ha & _). exact Ha. }
  split; [exact Hc|].
  split; [|split; [exact Hl|split; [reflexivity|split; [|split; [|split; [exact Ha|]]]]]].
  - apply occurrences_zero.
    rewrite (proj2 (occurrences_wheel (Navn r) _ Hnd) r Hr eq_refl), Hc. reflexivity.
  - unfold top10_of. intros Hin.
    assert (Hin' : r ∈ List.filter has_lodd (sub_of (agg_of cfg df_lodd) b)).
    { rewrite <- (take_drop 10 (List.filter has_lodd _)). apply elem_of_app. now left. }
    apply list_elem_of_In, List.filter_In in Hin' as [_ H]. congruence.
  - apply Zsum_clamped, sub_clamped.
  - unfold non_multiple_of.
    rewrite list_elem_of_In, List.filter_In, <- list_elem_of_In. intuition.
Qed.

(** The example of the specification: a net refund of 20 kr at 20 kr a
    ticket is a count of -1, clamped to 0, and the buyer is in no list
    and no total. *)
Lemma negative_count_clamped_witness :
  let cfg := {| loddpris := 20; name_mode := Fullt_navn; round_down := true |} in
  let df_lodd := [ {| Bilde := "A"; Navn := "Anna"; Brutto := 20 |};
                   {| Bilde := "A"; Navn := "Ola"; Brutto := 40 |};
                   {| Bilde := "A"; Navn := "Anna"; Brutto := (-40) |} ] in
  let t := tab_of (agg_of cfg df_lodd) "A" in
  exists r : SubRow,
    sub t !! 1 = Some r
    /\ Navn r = "Anna" /\ (Brutto r == -20)%Q /\ Lodd r = (-1)%Z /\ Lodd_clamped r = 0%Z
    /\ (Navn r ∉ wheel_names t) /\ (r ∉ top10 t)
    /\ wheel_names t = ["Ola"; "Ola"] /\ buyers t = 1%Z /\ total_lodd t = 2%Z.
Proof.
  intros cfg df_lodd t.
  set (r := clamp (agg_row_of cfg {| Bilde := "A"; Navn := "Anna";
                                     Brutto := group_sum [20; -40]%Q |})).
  assert (E : sub t !! 1 = Some r) by (vm_compute; reflexivity).
  assert (Hr : r ∈ sub t) by (apply list_elem_of_lookup; now exists 1).
  assert (Hneg : (Lodd r < 0)%Z) by (vm_compute; reflexivity).
  destruct (negative_count_clamped cfg df_lodd "A" r Hr Hneg)
    as (Hc & Hw & _ & _ & Ht & _ & _ & _).
  exists r. split; [exact E|].
  split; [reflexivity|]. split; [vm_compute; reflexivity|].
  split; [vm_compute; reflexivity|]. split; [exact Hc|].
  split; [exact Hw|]. split; [exact Ht|]. vm_compute. repeat split.
Defined.

(** * Further properties of the code *)

Import StripFacts BildeFacts.

(** ** Reading the report *)

Module ReadFacts.

Lemma strip_idem s : strip (strip s) = strip s.
Proof. unfold strip at 1. now rewrite rstrip_strip, lstrip_strip. Qed.

Lemma get_at_cases ls row k dflt :
  get_at ls row k dflt = dflt \/ get_at ls row k dflt ∈ row.
Proof.
  revert row. induction ls as [|l ls IH]; intros [|c row]; simpl; auto.
  destruct (is_label k l).
  - right. apply list_elem_of_here.
  - destruct (IH row) as [H|H]; [now left|right]. now apply list_elem_of_further.
Qed.

Lemma header_error_names_marker : is_substring "Salgssted" header_error.
Proof.
  exists "Fant ikke header-raden (kolonnen '", "'). Er dette riktig Vipps-rapport?".
  reflexivity.
Qed.

Lemma header_error_not_missing missing : header_error <> missing_message missing.
Proof. unfold header_error, missing_message. discriminate. Qed.

End ReadFacts.

Import ReadFacts.

Section ReadingFacts.

Variable num_str : Q -> string.
Variable parse_number : string -> option Q.

(** X1.  [read_vipps_report] fails exactly when none of the first 200 rows
    of the sheet has the marker as a whole word; the script then stops
    with the message of that error, which names the column 'Salgssted' and
    is never the message about missing columns. *)
Theorem header_not_found_stops (cfg : settings) (raw : list (list cell))
    (reread : nat -> Sheet) :
  (read_vipps_report num_str raw reread = inl header_error <->
     forall j row, j < 200 -> raw !! j = Some row -> ~ row_matches num_str row)
  /\ (forall e, read_vipps_report num_str raw reread = inl e ->
        e = header_error
        /\ script num_str parse_number cfg raw reread = Stop_error header_error)
  /\ is_substring "Salgssted" header_error
  /\ (forall missing, header_error <> missing_message missing).
Proof.
  split; [|split; [|split]].
  - rewrite <- find_header_row_None. unfold read_vipps_report.
    destruct (find_header_row num_str raw); split; congruence.
  - intros e He. unfold script. rewrite He. unfold read_vipps_report in He.
    destruct (find_header_row num_str raw); [discriminate|].
    injection He as <-. now split.
  - apply header_error_names_marker.
  - apply header_error_not_missing.
Qed.

(** X2.  The column names of the frame that [read_vipps_report] returns
    are trimmed, and when the first row does not repeat the header a
    label that trims to a required column is not reported as missing. *)
Theorem report_names_trimmed (df : Sheet) :
  Forall (fun c => strip c = c) (names (normalize num_str df))
  /\ (repeats_header num_str df = false ->
      forall l, l ∈ labels df ->
        strip (py_str num_str l) ∉ missing_of (frame_of (normalize num_str df))).
Proof.
  split.
  - unfold normalize. cbn [names]. apply Forall_forall. intros c Hc.
    apply list_elem_of_fmap in Hc as (l & -> & _). apply strip_idem.
  - intros Hrep l Hl Hmiss. apply elem_of_missing in Hmiss as [_ Habs].
    apply Habs. unfold normalize. rewrite Hrep. cbn [frame_of columns].
    destruct (body df); cbn [names labels]; apply list_elem_of_fmap; now exists l.
Qed.

(** X3.  When the first row repeats the header, that row is taken out of
    the data and its cells, as trimmed text, become the column names; one
    of them is "Salgssted" up to the case of its letters (so not always
    the name that the script requires).  Otherwise the rows are kept and
    the names are the trimmed labels. *)
Theorem repeated_header_promoted (df : Sheet) :
  (repeats_header num_str df = true ->
     exists row0 rest,
       body df = row0 :: rest
       /\ records (normalize num_str df) = rest
       /\ names (normalize num_str df) = map (fun c => strip (py_str num_str c)) row0
       /\ exists c, c ∈ names (normalize num_str df) /\ lower_str c = "salgssted")
  /\ (repeats_header num_str df = false ->
        records (normalize num_str df) = body df
        /\ names (normalize num_str df)
           = map (fun c => strip (py_str num_str c)) (labels df)).
Proof.
  split.
  - intros Hrep. unfold normalize. rewrite Hrep.
    unfold repeats_header in Hrep. destruct (body df) as [|row0 rest]; [discriminate|].
    exists row0, rest. cbn [names records labels body].
    split; [reflexivity|]. split; [reflexivity|]. split; [reflexivity|].
    apply String.eqb_eq in Hrep.
    destruct (get_at_cases (labels df) row0 "Salgssted" (CStr "")) as [H|H].
    + rewrite H in Hrep. discriminate Hrep.
    + exists (strip (py_str num_str (get_at (labels df) row0 "Salgssted" (CStr "")))).
      split; [|exact Hrep]. apply list_elem_of_fmap. eexists. split; [reflexivity|exact H].
  - intros Hrep. unfold normalize. rewrite Hrep.
    destruct (body df) eqn:E; cbn [names records]; now rewrite ?E.
Qed.

End ReadingFacts.

(** A sheet whose first row repeats the header in capitals: the row is
    promoted, and the script then misses the column 'Salgssted'. *)
Lemma repeated_header_promoted_witness :
  let df := {| labels := [CStr "Salgsdato"; CStr "Salgssted"; CStr "Transaksjonstype";
                          CStr "Brutto"];
               body := [ [CStr "SALGSDATO"; CStr " SALGSSTED "; CStr "Transaksjonstype";
                          CStr "Brutto"];
                         [CStr "01.02.2026"; CStr "Lodd bilde A"; CStr "Salg"; CNum 40] ] |} in
  let cfg := {| loddpris := 20; name_mode := Fullt_navn; round_down := true |} in
  repeats_header (fun _ => "") df = true
  /\ names (normalize (fun _ => "") df)
     = ["SALGSDATO"; "SALGSSTED"; "Transaksjonstype"; "Brutto"]
  /\ length (records (normalize (fun _ => "") df)) = 1
  /\ run (fun _ => "") (fun _ => None) cfg (frame_of (normalize (fun _ => "") df))
     = Stop_error "Mangler forventede kolonner i rapporten: ['Salgssted']".
Proof.
  intros df cfg.
  assert (Hrep : repeats_header (fun _ => "") df = true) by reflexivity.
  destruct (proj1 (repeated_header_promoted (fun _ => "") df) Hrep)
    as (row0 & rest & Hb & Hr & Hn & _).
  injection Hb as <- <-.
  split; [exact Hrep|]. split; [exact Hn|]. split; [now rewrite Hr|].
  vm_compute. reflexivity.
Defined.

(** A sheet with nothing but notes has no header row. *)
Lemma header_not_found_stops_witness :
  let raw := [ [CStr "Vipps rapport"]; [CNaN]; [CStr "Salgsstedet Oslo"] ] in
  let cfg := {| loddpris := 20; name_mode := Fullt_navn; round_down := true |} in
  script (fun _ => "") (fun _ => None) cfg raw (fun _ => {| labels := []; body := [] |})
  = Stop_error header_error.
Proof.
  intros raw cfg.
  exact (proj2 (proj1 (proj2 (header_not_found_stops (fun _ => "") (fun _ => None) cfg raw
                                (fun _ => {| labels := []; body := [] |})))
                      header_error eq_refl)).
Defined.

(** ** Names *)

Module NameFacts.

Lemma blank_is_space c : is_code 32 c = true -> is_space c = true.
Proof. by_cases_on c. Qed.

Lemma lstrip_length s : String.length (lstrip s) <= String.length s.
Proof.
  induction s as [|c s IH]; simpl; [lia|]. destruct (is_space c); simpl; lia.
Qed.

Lemma strip_head s c t : strip s = String c t -> is_space c = false.
Proof.
  intros H. pose proof (lstrip_strip s) as Hl. rewrite H in Hl. simpl in Hl.
  destruct (is_space c); [|reflexivity].
  pose proof (lstrip_length t) as Hlen. rewrite Hl in Hlen. simpl in Hlen. lia.
Qed.

Lemma first_token_split t :
  exists rest, t = first_token t +:+ rest
               /\ (rest = "" \/ exists rest', rest = String " " rest').
Proof.
  induction t as [|c t (rest & Ht & Hr)]; simpl.
  - exists "". now split; [|left].
  - destruct (is_code 32 c) eqn:Hc.
    + exists (String c t). split; [reflexivity|]. right. exists t.
      f_equal. revert Hc. by_cases_on c.
    + exists rest. split; [|exact Hr].
      change (String c (first_token t) +:+ rest) with (String c (first_token t +:+ rest)).
      now rewrite <- Ht.
Qed.

Lemma first_token_no_blank t : no_blank (first_token t).
Proof.
  unfold no_blank. induction t as [|c t IH]; simpl; [constructor|].
  destruct (is_code 32 c) eqn:Hc; [constructor|]. now constructor.
Qed.

Lemma lower_str_app a b : lower_str (a +:+ b) = lower_str a +:+ lower_str b.
Proof.
  induction a as [|c a IH]; [reflexivity|].
  change (String c a +:+ b) with (String c (a +:+ b)). simpl. now rewrite IH.
Qed.

Lemma append_cons c a b : String c a +:+ b = String c (a +:+ b).
Proof. reflexivity. Qed.

Lemma append_nil b : "" +:+ b = b.
Proof. reflexivity. Qed.

Lemma joined_not_nan a b : a <> "" -> lower_str (a +:+ " " +:+ b) <> "nan".
Proof.
  intros Ha. rewrite !lower_str_app.
  destruct a as [|x [|y [|z a]]]; [congruence| | |];
    cbn [lower_str]; rewrite ?append_cons, ?append_nil; intros H.
  - assert (H2 : String.get 1 (String (lower x) (String (lower " ") (lower_str b)))
                 = String.get 1 "nan") by now rewrite H.
    vm_compute in H2. discriminate H2.
  - assert (H3 : String.get 2 (String (lower x) (String (lower y)
                                 (String (lower " ") (lower_str b))))
                 = String.get 2 "nan") by now rewrite H.
    vm_compute in H3. discriminate H3.
  - destruct (lower_str a); rewrite ?append_cons, ?append_nil in H; discriminate H.
Qed.

End NameFacts.

Import NameFacts.

Section NameFactsOnRows.

Variable num_str : Q -> string.

Lemma build_full_name_clean (row : Series) :
  strip (build_full_name num_str row) = build_full_name num_str row
  /\ lower_str (build_full_name num_str row) <> "nan"
  /\ build_full_name num_str row <> "".
Proof.
  unfold build_full_name.
  set (fn := field num_str row "Fornavn"). set (en := field num_str row "Etternavn").
  set (msg := field num_str row "Melding").
  destruct (present_dec fn) as [Hf|Hf].
  - rewrite (proj2 (present_test _) Hf).
    destruct (present_dec en) as [He|He].
    + rewrite (proj2 (present_test _) He). split; [apply strip_idem|].
      assert (Hj : strip (fn +:+ " " +:+ en) = fn +:+ " " +:+ en).
      { destruct Hf as [Hf _], He as [He _]. unfold strip.
        rewrite (rstrip_app fn (" " +:+ en));
          [|discriminate|apply (rstrip_app " " en); [assumption|apply rstrip_strip]].
        apply lstrip_app; [assumption|apply lstrip_strip]. }
      rewrite Hj. split; [apply joined_not_nan; now destruct Hf|].
      destruct Hf as [Hf _]. destruct fn; [congruence|discriminate].
    + rewrite (present_false _ He). split; [apply strip_idem|]. destruct Hf. now split.
  - rewrite (present_false _ Hf).
    destruct (present_dec msg) as [Hm|Hm].
    + rewrite (proj2 (present_test _) Hm). split; [apply strip_idem|].
      destruct Hm. now split.
    + rewrite (present_false _ Hm). repeat split; discriminate.
Qed.

Lemma navn_of_nonempty mode (row : Series) : navn_of num_str mode row <> "".
Proof.
  destruct (build_full_name_clean row) as (Ht & _ & He).
  destruct mode; simpl; [exact He|].
  unfold kun_fornavn. rewrite Ht.
  destruct (build_full_name num_str row) as [|c t] eqn:E; [congruence|].
  simpl. assert (Hc : is_space c = false) by (apply (strip_head (String c t) c t); exact Ht).
  destruct (is_code 32 c) eqn:Hb; [|discriminate].
  apply blank_is_space in Hb. congruence.
Qed.

(** X4.  The name that [build_full_name] gives to a row has no whitespace
    at its ends and is not "nan" in any case of the letters; in either
    name format the column [Navn] is never empty. *)
Theorem resolved_name_clean (row : Series) :
  strip (build_full_name num_str row) = build_full_name num_str row
  /\ lower_str (build_full_name num_str row) <> "nan"
  /\ (forall mode, navn_of num_str mode row <> "").
Proof.
  destruct (build_full_name_clean row) as (Ht & Hn & _).
  split; [exact Ht|]. split; [exact Hn|]. intros mode. apply navn_of_nonempty.
Qed.

End NameFactsOnRows.

(** X5.  With the format "Kun fornavn" a name becomes its first token:
    the result is not empty and has no U+0020 in it, and when the name is
    not blank the trimmed name is the result, alone or followed by a
    U+0020 and more; a blank name becomes "Ukjent". *)
Theorem kun_fornavn_first_token (s : string) :
  kun_fornavn s <> ""
  /\ no_blank (kun_fornavn s)
  /\ (strip s <> "" ->
        exists rest, strip s = kun_fornavn s +:+ rest
                     /\ (rest = "" \/ exists rest', rest = String " " rest'))
  /\ (strip s = "" -> kun_fornavn s = "Ukjent").
Proof.
  unfold kun_fornavn. destruct (strip s) as [|c t] eqn:E.
  - simpl. split; [discriminate|]. split; [|split; [congruence|reflexivity]].
    unfold no_blank. simpl. repeat constructor.
  - cbn [nonempty]. split; [|split; [apply first_token_no_blank|split; [|discriminate]]].
    + simpl. pose proof (strip_head s c t E) as Hc.
      destruct (is_code 32 c) eqn:Hb; [|discriminate].
      apply blank_is_space in Hb. congruence.
    + intros _. apply first_token_split.
Qed.

(** The first token of a name with surrounding blanks. *)
Lemma kun_fornavn_first_token_witness :
  kun_fornavn "  Anne Marie Berg " = "Anne"
  /\ exists rest, strip "  Anne Marie Berg " = kun_fornavn "  Anne Marie Berg " +:+ rest
                  /\ (rest = "" \/ exists rest', rest = String " " rest').
Proof.
  split; [reflexivity|].
  apply (proj1 (proj2 (proj2 (kun_fornavn_first_token "  Anne Marie Berg ")))).
  vm_compute. discriminate.
Defined.

(** ** Artwork letters and the case of the text *)

Module CaseFacts.

Lemma lower_idem c : lower (lower c) = lower c.
Proof. by_cases_on c. Qed.

Lemma is_letter_lower c : is_ascii_letter (lower c) = is_ascii_letter c.
Proof. by_cases_on c. Qed.

Lemma upper_of_lower c : is_ascii_letter c = true -> upper (lower c) = upper c.
Proof. by_cases_on c. Qed.

Lemma chars_lower_str s : chars (lower_str s) = map lower (chars s).
Proof. induction s as [|c s IH]; [reflexivity|]. simpl. now rewrite <- IH. Qed.

Lemma ci_split_lower p : forall s,
  ci_split p (map lower s)
  = match ci_split p s with
    | Some (w, r) => Some (map lower w, map lower r)
    | None => None
    end.
Proof.
  induction p as [|a p IH]; intros [|c s]; simpl; try reflexivity.
  unfold ci_eqb. rewrite lower_idem. destruct (Ascii.eqb (lower a) (lower c)); [|reflexivity].
  rewrite IH. now destruct (ci_split p s) as [[w r]|].
Qed.

Lemma skip_space_lower s : skip_space (map lower s) = map lower (skip_space s).
Proof.
  induction s as [|c s IH]; [reflexivity|]. simpl. rewrite is_space_lower.
  now destruct (is_space c).
Qed.

Lemma bilde_here_lower s :
  bilde_here (map lower s) = option_map lower (bilde_here s).
Proof.
  unfold bilde_here. rewrite ci_split_lower.
  destruct (ci_split (chars "lodd") s) as [[w1 r1]|]; [|reflexivity].
  rewrite skip_space_lower, ci_split_lower.
  destruct (ci_split (chars "bilde") (skip_space r1)) as [[w2 r2]|]; [|reflexivity].
  rewrite skip_space_lower. destruct (skip_space r2) as [|c r]; [reflexivity|].
  simpl. rewrite is_letter_lower. now destruct (is_ascii_letter c).
Qed.

Lemma bilde_search_lower s :
  bilde_search (map lower s) = option_map lower (bilde_search s).
Proof.
  induction s as [|c s IH].
  - reflexivity.
  - cbn [map bilde_search]. change (lower c :: map lower s) with (map lower (c :: s)).
    rewrite bilde_here_lower. destruct (bilde_here (c :: s)); [reflexivity|exact IH].
Qed.

Lemma bilde_search_letter s c : bilde_search s = Some c -> is_ascii_letter c = true.
Proof.
  intros H. apply bilde_search_spec in H as (n & Hn & _).
  now destruct Hn as (pre & L & w1 & B & w2 & post & _ & _ & _ & _ & _ & _ & Hc).
Qed.

Lemma extract_bilde_lower s : extract_bilde (lower_str s) = extract_bilde s.
Proof.
  rewrite !extract_bilde_search, chars_lower_str, bilde_search_lower.
  destruct (bilde_search (chars s)) as [c|] eqn:E; [|reflexivity].
  simpl. now rewrite (upper_of_lower c (bilde_search_letter _ _ E)).
Qed.

Lemma extract_bilde_letter s b : extract_bilde s = Some b -> is_letter_id b.
Proof.
  rewrite extract_bilde_search. destruct (bilde_search (chars s)) as [c|] eqn:E; [|discriminate].
  intros [= <-]. exists (upper c). split; [reflexivity|].
  apply upper_is_upper. now apply bilde_search_letter in E.
Qed.

End CaseFacts.

Import CaseFacts.

(** X6.  The artwork letter does not depend on the case of the letters of
    the text: two texts that are equal after [lower] give the same
    artwork, or both none. *)
Theorem extract_bilde_ignores_case (s1 s2 : string) :
  lower_str s1 = lower_str s2 -> extract_bilde s1 = extract_bilde s2.
Proof.
  intros H. rewrite <- (extract_bilde_lower s1), <- (extract_bilde_lower s2). now rewrite H.
Qed.

(** The two texts of the specification's scenario. *)
Lemma extract_bilde_ignores_case_witness :
  extract_bilde "Lodd bilde b" = extract_bilde "LODD BILDE B".
Proof. apply extract_bilde_ignores_case. reflexivity. Defined.

(** ** The outcomes of a run *)

Module RunFacts.

Lemma missing_nil df :
  missing_of df = [] <-> forall c, c ∈ required_cols -> c ∈ columns df.
Proof.
  split.
  - intros H c Hc. destruct (decide (c ∈ columns df)) as [|Habs]; [assumption|].
    assert (c ∈ missing_of df) as Hm by now apply elem_of_missing.
    rewrite H in Hm. now apply elem_of_nil in Hm.
  - intros H. destruct (missing_of df) as [|m l] eqn:E; [reflexivity|].
    assert (m ∈ missing_of df) as Hm by (rewrite E; apply list_elem_of_here).
    apply elem_of_missing in Hm as [Hreq Habs]. now apply H in Hreq.
Qed.

Lemma filter_nil {A} (p : A -> bool) (l : list A) :
  List.filter p l = [] <-> forall x, x ∈ l -> p x = false.
Proof.
  induction l as [|x l IH]; simpl.
  - split; [|reflexivity]. intros _ y Hy. now apply elem_of_nil in Hy.
  - destruct (p x) eqn:E.
    + split; [discriminate|]. intros H. specialize (H x (list_elem_of_here _ _)). congruence.
    + rewrite IH. split.
      * intros H y Hy. apply elem_of_cons in Hy as [->|Hy]; auto.
      * intros H y Hy. apply H. now apply list_elem_of_further.
Qed.

Lemma omap_nil {A B} (f : A -> option B) (l : list A) :
  (forall x, x ∈ l -> f x = None) -> omap f l = [].
Proof.
  induction l as [|x l IH]; intros H; [reflexivity|].
  cbn. rewrite (H x (list_elem_of_here _ _)). apply IH.
  intros y Hy. apply H. now apply list_elem_of_further.
Qed.

Lemma upper_letter_id u :
  is_ascii_upper u = true ->
  String u EmptyString ∈ map (fun c => String c EmptyString)
                             (chars "ABCDEFGHIJKLMNOPQRSTUVWXYZ").
Proof.
  destruct u as [[] [] [] [] [] [] [] []]; vm_compute; intros H; try discriminate H;
    repeat first [apply list_elem_of_here | apply list_elem_of_further].
Qed.

Lemma bilder_elem agg b :
  b ∈ bilder_of agg <-> exists a : AggRow, a ∈ agg /\ Bilde a = b.
Proof.
  unfold bilder_of. rewrite merge_sort_Permutation, elem_of_remove_dups, list_elem_of_fmap.
  split; intros (a & H1 & H2); exists a; now split.
Qed.

Lemma bilder_NoDup agg : NoDup (bilder_of agg).
Proof. unfold bilder_of. rewrite merge_sort_Permutation. apply NoDup_remove_dups. Qed.

Lemma bilder_sorted agg : StronglySorted str_le (bilder_of agg).
Proof. apply StronglySorted_merge_sort; apply _. Qed.

Lemma agg_keys_sorted cfg df :
  StronglySorted key_le (map (fun a : AggRow => key a) (agg_of cfg df)).
Proof. rewrite agg_keys. apply StronglySorted_merge_sort; apply _. Qed.

Lemma agg_key_from cfg df (a : AggRow) :
  a ∈ agg_of cfg df -> exists r, r ∈ df /\ key r = key a.
Proof.
  intros H. apply elem_of_agg in H as (k & Hk & ->).
  apply elem_of_group_keys in Hk as (r & Hr & <-). exists r. split; [assumption|].
  now rewrite key_agg_row_of, key_group_row.
Qed.

End RunFacts.

Import RunFacts.

Section RunOutcomes.

Variable num_str : Q -> string.
Variable parse_number : string -> option Q.

Lemma tagged_row mode (selected : list Series) (r : LoddRow) :
  r ∈ omap (tag_row num_str parse_number mode) selected ->
  is_letter_id (Bilde r) /\ Navn r <> "".
Proof.
  intros H. apply list_elem_of_omap in H as (row & _ & Hrow).
  unfold tag_row in Hrow.
  destruct (extract_bilde (py_str num_str (cell_at row "Salgssted"))) as [b|] eqn:E;
    [|discriminate].
  injection Hrow as <-. simpl. split.
  - now apply extract_bilde_letter in E.
  - apply navn_of_nonempty.
Qed.

(** X7.  The run stops with the warning about no ticket rows exactly when
    the three required columns are there and no row of the frame is a
    sale whose place contains "Lodd bilde"; the warning has one text. *)
Theorem no_lodd_rows_warns (cfg : settings) (df : DataFrame) :
  (run num_str parse_number cfg df = Stop_warning no_rows_message <->
     (forall c, c ∈ required_cols -> c ∈ columns df)
     /\ (forall row, row ∈ rows df -> is_lodd_row num_str row = false))
  /\ (forall msg, run num_str parse_number cfg df = Stop_warning msg ->
        msg = no_rows_message).
Proof.
  unfold run. split.
  - rewrite <- missing_nil, <- filter_nil.
    destruct (missing_of df) as [|m l].
    + destruct (List.filter (is_lodd_row num_str) (rows df)) as [|row sel].
      * now split.
      * split; [discriminate|]. intros [_ H]. discriminate H.
    + split; [discriminate|]. intros [H _]. discriminate H.
  - intros msg. destruct (missing_of df) as [|m l]; [|discriminate].
    destruct (List.filter (is_lodd_row num_str) (rows df)); [|discriminate].
    now intros [= <-].
Qed.

(** X8.  The check for an empty [df_lodd] comes before the artwork letter
    is extracted: when rows pass the mask and none of them has a letter,
    the run does not warn; it goes on with an empty [df_lodd] and ends
    with no group, no flagged amount and no artwork. *)
Theorem rows_without_letter_pass_the_check (cfg : settings) (df : DataFrame) :
  (forall c, c ∈ required_cols -> c ∈ columns df) ->
  (exists row, row ∈ rows df /\ is_lodd_row num_str row = true) ->
  (forall row, row ∈ rows df -> is_lodd_row num_str row = true ->
     extract_bilde (py_str num_str (cell_at row "Salgssted")) = None) ->
  run num_str parse_number cfg df = Rendered [] [] [].
Proof.
  intros Hcols (row & Hrow & Hsel) Hnone. unfold run.
  rewrite (proj2 (missing_nil df) Hcols).
  destruct (List.filter (is_lodd_row num_str) (rows df)) as [|r0 sel] eqn:E.
  - assert (H := proj1 (filter_nil _ _) E row Hrow). congruence.
  - rewrite (omap_nil (tag_row num_str parse_number (name_mode cfg)) (r0 :: sel)).
    + reflexivity.
    + intros x Hx. rewrite <- E in Hx.
      apply list_elem_of_In, List.filter_In in Hx as [Hx Hp]. apply list_elem_of_In in Hx.
      unfold tag_row. now rewrite (Hnone x Hx Hp).
Qed.

(** X9.  In a rendered run every row of [agg] has one upper-case letter of
    A-Z as its artwork and a name that is not empty; the rows of [agg]
    come sorted by artwork and name with no key twice; the flagged rows
    are rows of [agg]; the tabs are the artworks of [agg], sorted, each
    once, each with at least one row, and there are at most 26 of them. *)
Theorem rendered_invariants (cfg : settings) (df : DataFrame)
    (agg non_multiple : list AggRow) (tabs : list Tab) :
  run num_str parse_number cfg df = Rendered agg non_multiple tabs ->
  (forall a : AggRow, a ∈ agg -> is_letter_id (Bilde a) /\ Navn a <> "")
  /\ NoDup (map (fun a : AggRow => key a) agg)
  /\ StronglySorted key_le (map (fun a : AggRow => key a) agg)
  /\ (forall a, a ∈ non_multiple -> a ∈ agg)
  /\ NoDup (map bilde tabs)
  /\ StronglySorted str_le (map bilde tabs)
  /\ (forall t, t ∈ tabs -> is_letter_id (bilde t) /\ sub t <> [])
  /\ length tabs <= 26.
Proof.
  unfold run. destruct (missing_of df); [|discriminate].
  destruct (List.filter (is_lodd_row num_str) (rows df)) as [|r0 sel]; [discriminate|].
  set (df_lodd := omap (tag_row num_str parse_number (name_mode cfg)) (r0 :: sel)).
  intros [= <- <- <-].
  assert (Hrows : forall a : AggRow, a ∈ agg_of cfg df_lodd ->
                    is_letter_id (Bilde a) /\ Navn a <> "").
  { intros a Ha. apply agg_key_from in Ha as (r & Hr & Hk).
    apply tagged_row in Hr. unfold key in Hk. injection Hk as <- <-. exact Hr. }
  assert (Hb : map bilde (map (tab_of (agg_of cfg df_lodd)) (bilder_of (agg_of cfg df_lodd)))
               = bilder_of (agg_of cfg df_lodd)).
  { rewrite map_map. apply map_id. }
  assert (Hletters : forall b, b ∈ bilder_of (agg_of cfg df_lodd) -> is_letter_id b).
  { intros b Hbl. apply bilder_elem in Hbl as (a & Ha & <-). now apply Hrows. }
  split; [exact Hrows|].
  split; [rewrite agg_keys; apply group_keys_NoDup|].
  split; [apply agg_keys_sorted|].
  split.
  { intros a Ha. unfold non_multiple_of in Ha.
    apply list_elem_of_In, List.filter_In in Ha as [Ha _]. now apply list_elem_of_In. }
  rewrite Hb. split; [apply bilder_NoDup|]. split; [apply bilder_sorted|]. split.
  - intros t Ht. apply list_elem_of_fmap in Ht as (b & -> & Hbl). cbn [bilde sub tab_of].
    split; [now apply Hletters|].
    apply bilder_elem in Hbl as (a & Ha & Hab).
    assert (Hin : clamp a ∈ sub_of (agg_of cfg df_lodd) b) by (apply elem_of_sub; now exists a).
    intros Hnil. rewrite Hnil in Hin. now apply elem_of_nil in Hin.
  - rewrite length_map.
    change 26 with (length (map (fun c => String c EmptyString)
                                (chars "ABCDEFGHIJKLMNOPQRSTUVWXYZ"))).
    apply submseteq_length, NoDup_submseteq; [apply bilder_NoDup|].
    intros b Hbl. apply Hletters in Hbl as (u & -> & Hu). now apply upper_letter_id.
Qed.

End RunOutcomes.

(** A report with no sale for any artwork. *)
Lemma no_lodd_rows_warns_witness :
  let cfg := {| loddpris := 20; name_mode := Fullt_navn; round_down := true |} in
  let row : Series :=
    {[ "Salgssted" := CStr "Kaffe"; "Transaksjonstype" := CStr "Salg"; "Brutto" := CNum 30 ]} in
  let df := {| columns := ["Salgssted"; "Transaksjonstype"; "Brutto"]; rows := [row] |} in
  run (fun _ => "") (fun _ => None) cfg df = Stop_warning no_rows_message.
Proof.
  intros cfg row df.
  apply (proj1 (no_lodd_rows_warns (fun _ => "") (fun _ => None) cfg df)). split.
  - intros c Hc. exact Hc.
  - intros r Hr. apply list_elem_of_singleton in Hr as ->. reflexivity.
Defined.

(** A sale of "Lodd bilde 7": the row passes the mask and has no letter. *)
Lemma rows_without_letter_pass_the_check_witness :
  let cfg := {| loddpris := 20; name_mode := Fullt_navn; round_down := true |} in
  let row : Series :=
    {[ "Salgssted" := CStr "Lodd bilde 7"; "Transaksjonstype" := CStr "Salg";
       "Brutto" := CNum 40 ]} in
  let df := {| columns := ["Salgssted"; "Transaksjonstype"; "Brutto"]; rows := [row] |} in
  run (fun _ => "") (fun _ => None) cfg df = Rendered [] [] [].
Proof.
  intros cfg row df.
  apply (rows_without_letter_pass_the_check (fun _ => "") (fun _ => None) cfg df).
  - intros c Hc. exact Hc.
  - exists row. split; [apply list_elem_of_here|reflexivity].
  - intros r Hr _. apply list_elem_of_singleton in Hr as ->. reflexivity.
Defined.

(** A report with two artworks. *)
Lemma rendered_invariants_witness :
  let cfg := {| loddpris := 20; name_mode := Fullt_navn; round_down := true |} in
  let row1 : Series :=
    {[ "Salgssted" := CStr "Lodd bilde b"; "Transaksjonstype" := CStr "Salg";
       "Brutto" := CNum 40; "Fornavn" := CStr "Kari" ]} in
  let row2 : Series :=
    {[ "Salgssted" := CStr "Lodd bilde A"; "Transaksjonstype" := CStr "salg";
       "Brutto" := CNum 45; "Fornavn" := CStr "Ola" ]} in
  let df := {| columns := ["Salgssted"; "Transaksjonstype"; "Brutto"; "Fornavn"];
               rows := [row1; row2] |} in
  exists agg non_multiple tabs,
    run (fun _ => "") (fun _ => None) cfg df = Rendered agg non_multiple tabs
    /\ map bilde tabs = ["A"; "B"]
    /\ length non_multiple = 1
    /\ NoDup (map bilde tabs)
    /\ length tabs <= 26.
Proof.
  intros cfg row1 row2 df.
  let res := eval vm_compute in (run (fun _ => "") (fun _ => None) cfg df) in
  match res with
  | Rendered ?agg ?nm ?tabs =>
      assert (E : run (fun _ => "") (fun _ => None) cfg df = Rendered agg nm tabs)
        by (vm_compute; reflexivity);
      destruct (rendered_invariants (fun _ => "") (fun _ => None) cfg df agg nm tabs E)
        as (_ & _ & _ & _ & Hnd & _ & _ & Hlen);
      exists agg, nm, tabs
  end.
  split; [exact E|]. split; [reflexivity|]. split; [reflexivity|].
  split; [exact Hnd|exact Hlen].
Defined.

(** ** The groups and the order of the rows *)

Module GroupFacts.

Lemma group_keys_same df1 df2 :
  (forall k, k ∈ map key df1 <-> k ∈ map key df2) -> group_keys df1 = group_keys df2.
Proof.
  intros H. apply (StronglySorted_unique key_le).
  - apply StronglySorted_merge_sort; apply _.
  - apply StronglySorted_merge_sort; apply _.
  - unfold group_keys. rewrite !merge_sort_Permutation.
    apply NoDup_Permutation; [apply NoDup_remove_dups|apply NoDup_remove_dups|].
    intros k. rewrite !elem_of_remove_dups. apply H.
Qed.

Lemma key_in_rows df k :
  k ∈ map key df <-> exists r, r ∈ List.filter (has_key k) df.
Proof.
  rewrite list_elem_of_fmap. split.
  - intros (r & -> & Hr). exists r. apply list_elem_of_In, List.filter_In.
    split; [now apply list_elem_of_In|]. unfold has_key. now apply bool_decide_eq_true_2.
  - intros (r & Hr). apply list_elem_of_In, List.filter_In in Hr as [Hr Hk].
    exists r. split; [|now apply list_elem_of_In].
    unfold has_key in Hk. apply bool_decide_eq_true_1 in Hk. now symmetry.
Qed.

End GroupFacts.

Import GroupFacts.

(** ** Whole amounts *)

Module ExactFacts.

Lemma pow2_lt_inv a b : (pow2 a < pow2 b)%Q -> (a < b)%Z.
Proof.
  intros H. destruct (Z.lt_ge_cases a b) as [Hab|Hab]; [exact Hab|exfalso].
  apply (pow2_le b a) in Hab. lra.
Qed.

(** [2^(ilog2 x) <= |x|] for [x] other than 0. *)
Lemma ilog2_lower (x : Q) : ~ (x == 0)%Q -> (pow2 (ilog2 x) <= Qabs x)%Q.
Proof.
  intros Hx. unfold ilog2.
  set (a := Z.log2 (Z.abs (Qnum x))). set (b := Z.log2 (Z.pos (Qden x))).
  destruct (Qle_bool (pow2 (a - b)) (Qabs x)) eqn:E; [now apply Qle_bool_iff|].
  rewrite Qabs_frac.
  assert (Hb : (0 <= b)%Z) by apply Z.log2_nonneg.
  assert (Ha : (0 <= a)%Z) by apply Z.log2_nonneg.
  assert (Hn0 : Qnum x <> 0%Z).
  { intros H0. apply Hx. unfold Qeq. simpl. rewrite H0. reflexivity. }
  assert (Hd : (Z.pos (Qden x) < 2 ^ (b + 1))%Z).
  { replace (b + 1)%Z with (Z.succ b) by lia. apply Z.log2_spec. lia. }
  assert (Hn : (2 ^ a <= Z.abs (Qnum x))%Z) by (apply Z.log2_spec; lia).
  replace (a - b - 1)%Z with (a + - (b + 1))%Z by lia.
  rewrite pow2_add. unfold pow2 at 2. rewrite Qpower_opp.
  fold (pow2 (b + 1)). rewrite (pow2_Z a Ha), (pow2_Z (b + 1)) by lia.
  assert (H2b : (0 < 2 ^ (b + 1))%Z) by (apply Z.pow_pos_nonneg; lia).
  assert (H2a : (0 < 2 ^ a)%Z) by (apply Z.pow_pos_nonneg; lia).
  unfold Qle, Qdiv, Qmult, Qinv, inject_Z. simpl.
  destruct (2 ^ (b + 1))%Z as [|pb|pb] eqn:Eb; try lia. simpl.
  destruct (2 ^ a)%Z as [|pa|pa] eqn:Ea; try lia. nia.
Qed.

(** The error of a rounding is at most half of the last place. *)
Lemma float64_error (x : Q) :
  (Qabs (float64 x - x) <= pow2 (fexp (Qred x)) * (1 # 2))%Q.
Proof.
  unfold float64. pose proof (Qred_correct x) as Hr.
  set (r := Qred x) in *. set (e := fexp r). rewrite <- Hr. clearbody r.
  pose proof (round_half_even_near (r * pow2 (- e))) as Hn.
  set (m := round_half_even (r * pow2 (- e))) in *.
  pose proof (pow2_pos e) as He.
  assert (Hinv : (pow2 (- e) * pow2 e == 1)%Q).
  { rewrite <- pow2_add. replace (- e + e)%Z with 0%Z by lia. reflexivity. }
  assert (Heq : (inject_Z m * pow2 e - r == - ((r * pow2 (- e) - inject_Z m) * pow2 e))%Q).
  { transitivity (inject_Z m * pow2 e - r * (pow2 (- e) * pow2 e))%Q; [rewrite Hinv|]; ring. }
  rewrite Heq, Qabs_opp, Qabs_Qmult, (Qabs_pos (pow2 e)) by lra.
  rewrite (Qmult_comm (pow2 e)). apply Qmult_le_compat_r; [exact Hn|lra].
Qed.


Lemma round_half_even_proper (x y : Q) :
  (x == y)%Q -> round_half_even x = round_half_even y.
Proof.
  intros H. unfold round_half_even. rewrite (Qfloor_comp _ _ H).
  assert (Hc : (x - inject_Z (Qfloor y) ?= 1 # 2)%Q = (y - inject_Z (Qfloor y) ?= 1 # 2)%Q)
    by now rewrite H.
  now rewrite Hc.
Qed.

Lemma round_half_even_Z (k : Z) : round_half_even (inject_Z k) = k.
Proof.
  unfold round_half_even. rewrite Qfloor_Z.
  destruct (Qcompare_spec (inject_Z k - inject_Z k) (1 # 2)) as [Hc|Hc|Hc];
    [lra|reflexivity|lra].
Qed.

(** The integers up to 2^53 are values of binary64. *)
Lemma float64_Z (z : Z) :
  (Z.abs z <= 2 ^ 53)%Z -> (float64 (inject_Z z) == inject_Z z)%Q.
Proof.
  intros Hz.
  destruct (Z.eq_dec z 0%Z) as [->|Hz0]; [exact float64_0|].
  destruct (Z.eq_dec (Z.abs z) (2 ^ 53)%Z) as [Hmax|Hlt].
  { assert (Hc : z = (2 ^ 53)%Z \/ z = (- 2 ^ 53)%Z) by lia.
    destruct Hc as [-> | ->]; vm_compute; reflexivity. }
  unfold float64. pose proof (Qred_correct (inject_Z z)) as Hr.
  set (r := Qred (inject_Z z)) in *. set (e := fexp r).
  assert (Hr0 : ~ (r == 0)%Q).
  { rewrite Hr. intros H. unfold Qeq in H. simpl in H. lia. }
  assert (He : (e <= 0)%Z).
  { pose proof (ilog2_lower r Hr0) as Hlo.
    assert (Hup : (Qabs r < pow2 53)%Q).
    { rewrite Hr, (pow2_Z 53) by lia.
      assert (Hq : (Qabs (inject_Z z) == inject_Z (Z.abs z))%Q) by reflexivity.
      rewrite Hq, <- Zlt_Qlt. lia. }
    assert (Hi : (ilog2 r < 53)%Z) by (apply pow2_lt_inv; lra).
    unfold e, fexp. lia. }
  assert (Hy : (r * pow2 (- e) == inject_Z (z * 2 ^ (- e)))%Q).
  { rewrite Hr, (pow2_Z (- e)) by lia. now rewrite inject_Z_mult. }
  rewrite (round_half_even_proper _ _ Hy), round_half_even_Z.
  rewrite inject_Z_mult, <- (pow2_Z (- e)) by lia.
  transitivity (inject_Z z * (pow2 (- e) * pow2 e))%Q; [ring|].
  rewrite <- pow2_add. replace (- e + e)%Z with 0%Z by lia.
  change (pow2 0) with 1%Q. ring.
Qed.


Lemma inject_Z_abs (z : Z) : (Qabs (inject_Z z) == inject_Z (Z.abs z))%Q.
Proof. reflexivity. Qed.

(** The quotient of a whole amount up to 2^52 by the price is rounded
    with an error of at most [1 / (2 p)]. *)
Lemma quotient_error (B p : Z) :
  (Z.abs B <= 2 ^ 52)%Z -> (1 <= p <= 2 ^ 53)%Z ->
  let q := (inject_Z B / inject_Z p)%Q in
  (Qabs (float64 q - q) * (2 * inject_Z p) <= 1)%Q.
Proof.
  intros HB Hp q.
  assert (HP : (1 <= inject_Z p)%Q) by (change 1%Q with (inject_Z 1); rewrite <- Zle_Qle; lia).
  assert (HP' : (inject_Z p <= inject_Z (2 ^ 53))%Q) by (rewrite <- Zle_Qle; lia).
  assert (HqP : (q * inject_Z p == inject_Z B)%Q) by (unfold q; field; lra).
  destruct (Z.eq_dec B 0%Z) as [HB0|HB0].
  { assert (Hq0 : (q == 0)%Q) by (unfold q; rewrite HB0; field; lra).
    rewrite Hq0, float64_0. change (Qabs (0 - 0)) with 0%Q. lra. }
  pose proof (float64_error q) as Herr. pose proof (Qred_correct q) as Hr.
  set (r := Qred q) in *.
  assert (Habs : (Qabs q * inject_Z p == inject_Z (Z.abs B))%Q).
  { rewrite <- inject_Z_abs, <- HqP, Qabs_Qmult, (Qabs_pos (inject_Z p)) by lra. reflexivity. }
  assert (HabsB : (1 <= inject_Z (Z.abs B) <= inject_Z (2 ^ 52))%Q).
  { split; [change 1%Q with (inject_Z 1)|]; rewrite <- Zle_Qle; lia. }
  assert (Hlow : (pow2 (-53) <= Qabs r)%Q).
  { rewrite Hr. change (pow2 (-53)) with (1 # 9007199254740992)%Q.
    change (inject_Z (2 ^ 53)) with 9007199254740992%Q in HP'.
    pose proof (Qabs_nonneg q) as H0. set (A := Qabs q) in *. clearbody A. nra. }
  assert (Hi : (-53 <= ilog2 r)%Z).
  { pose proof (ilog2_upper r) as Hu.
    assert (H : (-53 < ilog2 r + 1)%Z) by (apply pow2_lt_inv; lra). lia. }
  assert (Hr0 : ~ (r == 0)%Q).
  { intros H. rewrite H in Hlow. vm_compute in Hlow. now apply Hlow. }
  pose proof (ilog2_lower r Hr0) as Hlo.
  unfold fexp in Herr. rewrite Z.max_l in Herr by lia.
  replace (ilog2 r - 52)%Z with (ilog2 r + -52)%Z in Herr by lia.
  rewrite pow2_add in Herr.
  assert (HAr : (Qabs r == Qabs q)%Q) by now rewrite Hr.
  change (pow2 (-52)) with (1 # 4503599627370496)%Q in Herr.
  change (inject_Z (2 ^ 52)) with 4503599627370496%Q in HabsB.
  pose proof (pow2_pos (ilog2 r)) as Hpos.
  set (E := Qabs (float64 q - q)) in *. set (A := Qabs q) in *.
  set (L := pow2 (ilog2 r)) in *. set (P := inject_Z p) in *.
  set (AB := inject_Z (Z.abs B)) in *. set (Ar := Qabs r) in *. clearbody E A L P AB Ar.
  assert (H1 : (E * (2 * P) <= A * (1 # 4503599627370496) * P)%Q) by nra.
  nra.
Qed.


Lemma Qfloor_unique (x : Q) (k : Z) :
  (inject_Z k <= x)%Q -> (x < inject_Z (k + 1))%Q -> Qfloor x = k.
Proof.
  intros H1 H2. pose proof (Qfloor_le x) as H3. pose proof (Qlt_floor x) as H4.
  assert (Ha : (inject_Z k < inject_Z (Qfloor x + 1))%Q) by lra.
  assert (Hb : (inject_Z (Qfloor x) < inject_Z (k + 1))%Q) by lra.
  rewrite <- Zlt_Qlt in Ha, Hb. lia.
Qed.

(** On a whole amount up to 2^52 the rounding of the quotient changes
    neither its floor nor whether it is an integer. *)
Lemma quotient_floor (B p : Z) :
  (Z.abs B <= 2 ^ 52)%Z -> (1 <= p <= 2 ^ 53)%Z ->
  let q := (inject_Z B / inject_Z p)%Q in
  Qfloor (float64 q) = (B / p)%Z
  /\ ((exists k : Z, (float64 q == inject_Z k)%Q) <-> (B mod p = 0)%Z).
Proof.
  intros HB Hp q.
  assert (HP : (1 <= inject_Z p)%Q) by (change 1%Q with (inject_Z 1); rewrite <- Zle_Qle; lia).
  assert (HqP : (q * inject_Z p == inject_Z B)%Q) by (unfold q; field; lra).
  pose proof (quotient_error B p HB Hp) as Herr. fold q in Herr.
  pose proof (Z.div_mod B p ltac:(lia)) as Hdm.
  pose proof (Z.mod_pos_bound B p ltac:(lia)) as Hm.
  set (k := (B / p)%Z) in *. set (m := (B mod p)%Z) in *.
  destruct (Z.eq_dec m 0%Z) as [Hm0|Hm0].
  - assert (Hq : (q == inject_Z k)%Q).
    { unfold q. replace B with (k * p)%Z by lia. rewrite inject_Z_mult. field. lra. }
    assert (Hk : (Z.abs k <= 2 ^ 53)%Z) by nia.
    assert (Hf : (float64 q == inject_Z k)%Q) by (rewrite Hq; now apply float64_Z).
    split; [rewrite Hf; apply Qfloor_Z|]. split; [intros _; exact Hm0|intros _; now exists k].
  - assert (HB1 : (inject_Z (k * p + 1) <= q * inject_Z p)%Q)
      by (rewrite HqP, <- Zle_Qle; lia).
    assert (HB2 : (q * inject_Z p <= inject_Z ((k + 1) * p - 1))%Q)
      by (rewrite HqP, <- Zle_Qle; lia).
    rewrite inject_Z_plus, inject_Z_mult in HB1.
    unfold Z.sub in HB2. rewrite inject_Z_plus, inject_Z_mult, inject_Z_plus in HB2.
    change (inject_Z 1) with 1%Q in HB1, HB2. change (inject_Z (- (1))) with (- (1))%Q in HB2.
    assert (Herr' : (Qabs ((float64 q - q) * (2 * inject_Z p)) <= 1)%Q).
    { rewrite Qabs_Qmult, (Qabs_pos (2 * inject_Z p)) by lra. exact Herr. }
    apply Qabs_Qle_condition in Herr'.
    set (f := float64 q) in *. set (P := inject_Z p) in *. set (K := inject_Z k) in *.
    assert (Hlo : (K < f)%Q).
    { apply (Qmult_lt_r _ _ P); [lra|]. clearbody f P K q. 
      assert (E1 : ((f - q) * (2 * P) == 2 * (f * P) - 2 * (q * P))%Q) by ring.
      rewrite E1 in Herr'. set (fP := (f * P)%Q) in *. set (qP := (q * P)%Q) in *.
      set (KP := (K * P)%Q) in *. clearbody fP qP KP. lra. }
    assert (Hhi : (f < K + 1)%Q).
    { apply (Qmult_lt_r _ _ P); [lra|]. clearbody f P K q.
      assert (E1 : ((f - q) * (2 * P) == 2 * (f * P) - 2 * (q * P))%Q) by ring.
      assert (E2 : ((K + 1) * P == K * P + P)%Q) by ring.
      rewrite E1 in Herr'. rewrite E2 in HB2 |- *.
      set (fP := (f * P)%Q) in *. set (qP := (q * P)%Q) in *.
      set (KP := (K * P)%Q) in *. clearbody fP qP KP. lra. }
    split.
    + apply Qfloor_unique; [apply Qlt_le_weak; exact Hlo|].
      rewrite inject_Z_plus. exact Hhi.
    + split; [|intros H; contradiction]. intros (j & Hj). exfalso.
      rewrite Hj in Hlo, Hhi.
      assert (Hhi' : (inject_Z j < inject_Z (k + 1))%Q)
        by (rewrite inject_Z_plus; fold K; change (inject_Z 1) with 1%Q; lra).
      unfold K in Hlo. rewrite <- Zlt_Qlt in Hlo, Hhi'. lia.
Qed.


Lemma Qsum_abs_nonneg (l : list Q) : (0 <= Qsum (map Qabs l))%Q.
Proof.
  induction l as [|x l IH]; simpl; [discriminate|].
  pose proof (Qabs_nonneg x). lra.
Qed.

(** Whole numbers whose sizes add up to no more than 2^53 are added
    without any rounding, and the compensation stays 0. *)
Lemma group_sum_exact_from (vals : list Q) :
  forall (acc : Q * Q) (zs : Z),
    (acc.1 == inject_Z zs)%Q -> (acc.2 == 0)%Q ->
    Forall is_whole vals ->
    (Qabs (inject_Z zs) + Qsum (map Qabs vals) <= inject_Z (2 ^ 53))%Q ->
    ((fold_left group_sum_step vals acc).1 == inject_Z zs + Qsum vals)%Q.
Proof.
  induction vals as [|v vals IH]; intros acc zs H1 H2 Hw Hb.
  - simpl. rewrite H1. ring.
  - apply Forall_cons in Hw as [(zv & Hv) Hw].
    change (Qsum (map Qabs (v :: vals))) with (Qabs v + Qsum (map Qabs vals))%Q in Hb.
    pose proof (Qsum_abs_nonneg vals) as Hrest.
    assert (Hav : (Qabs v == inject_Z (Z.abs zv))%Q) by (rewrite Hv; reflexivity).
    rewrite inject_Z_abs, Hav in Hb.
    assert (Hzv : (Z.abs zv <= 2 ^ 53)%Z).
    { pose proof (Qabs_nonneg (inject_Z zs)) as H0. rewrite inject_Z_abs in H0.
      rewrite Zle_Qle. set (B53 := inject_Z (2 ^ 53)) in *. clearbody B53. lra. }
    assert (Hzs : (Z.abs (zs + zv) <= 2 ^ 53)%Z).
    { rewrite Zle_Qle. apply Qle_trans with (inject_Z (Z.abs zs + Z.abs zv)).
      - rewrite <- Zle_Qle. lia.
      - rewrite inject_Z_plus. set (B53 := inject_Z (2 ^ 53)) in *. clearbody B53. lra. }
    assert (Ey : (float64 (v - acc.2) == inject_Z zv)%Q).
    { transitivity (float64 (inject_Z zv)); [|exact (float64_Z zv Hzv)].
      apply float64_proper. rewrite H2, Hv. ring. }
    assert (Et : (float64 (acc.1 + float64 (v - acc.2)) == inject_Z (zs + zv))%Q).
    { transitivity (float64 (inject_Z (zs + zv))); [|exact (float64_Z (zs + zv) Hzs)].
      apply float64_proper. rewrite Ey, H1, inject_Z_plus. reflexivity. }
    assert (Ec : (float64 (float64 (float64 (acc.1 + float64 (v - acc.2)) - acc.1)
                           - float64 (v - acc.2)) == 0)%Q).
    { transitivity (float64 0); [|exact float64_0]. apply float64_proper.
      assert (Ed : (float64 (float64 (acc.1 + float64 (v - acc.2)) - acc.1) == inject_Z zv)%Q).
      { transitivity (float64 (inject_Z zv)); [|exact (float64_Z zv Hzv)].
        apply float64_proper. rewrite Et, H1, inject_Z_plus. ring. }
      rewrite Ed, Ey. ring. }
    cbn [fold_left]. rewrite (IH (group_sum_step acc v) (zs + zv)%Z).
    + change (Qsum (v :: vals)) with (v + Qsum vals)%Q. rewrite inject_Z_plus, Hv. ring.
    + exact Et.
    + exact Ec.
    + exact Hw.
    + rewrite inject_Z_abs.
      apply Qle_trans with (inject_Z (Z.abs zs + Z.abs zv) + Qsum (map Qabs vals))%Q.
      * apply Qplus_le_compat; [rewrite <- Zle_Qle; lia|apply Qle_refl].
      * rewrite inject_Z_plus. set (B53 := inject_Z (2 ^ 53)) in *. clearbody B53. lra.
Qed.

Lemma group_sum_exact (vals : list Q) :
  Forall is_whole vals ->
  (Qsum (map Qabs vals) <= inject_Z (2 ^ 53))%Q ->
  (group_sum vals == Qsum vals)%Q.
Proof.
  intros Hw Hb. unfold group_sum.
  rewrite (group_sum_exact_from vals (0, 0)%Q 0%Z); [simpl; ring|reflexivity|reflexivity|exact Hw|].
  change (Qabs (inject_Z 0)) with 0%Q. lra.
Qed.


(** The amounts of the rows that satisfy [p], summed. *)
Lemma Qsum_filter_Permutation (p : LoddRow -> bool) (l1 l2 : list LoddRow) :
  l1 ≡ₚ l2 ->
  (Qsum (map Brutto (List.filter p l1)) == Qsum (map Brutto (List.filter p l2)))%Q.
Proof.
  induction 1 as [|x l1 l2 _ IH|x y l|l1 l2 l3 _ IH1 _ IH2]; simpl.
  - reflexivity.
  - destruct (p x); simpl; now rewrite IH.
  - destruct (p x), (p y); simpl; ring.
  - now rewrite IH1.
Qed.

Lemma NoDup_filter_bool {A} (p : A -> bool) (l : list A) :
  NoDup l -> NoDup (List.filter p l).
Proof.
  induction 1 as [|x l Hx _ IH]; simpl; [constructor|].
  destruct (p x); [|exact IH]. constructor; [|exact IH].
  intros Hin. apply Hx. apply list_elem_of_In, List.filter_In in Hin as [Hin _].
  now apply list_elem_of_In.
Qed.

Lemma Qsum_same {K} (g h : K -> Q) (l : list K) :
  (forall k, k ∈ l -> (g k == h k)%Q) -> (Qsum (map g l) == Qsum (map h l))%Q.
Proof.
  induction l as [|k l IH]; intros H; simpl; [reflexivity|].
  rewrite (H k (list_elem_of_here _ _)), IH; [reflexivity|].
  intros k' Hk'. apply H. now apply list_elem_of_further.
Qed.

(** Two families of numbers that differ by [x] at one index [k0]. *)
Lemma Qsum_point {K} (g h : K -> Q) (k0 : K) (x : Q) (l : list K) :
  NoDup l -> k0 ∈ l ->
  (forall k, k ∈ l -> k <> k0 -> (g k == h k)%Q) -> (g k0 == x + h k0)%Q ->
  (Qsum (map g l) == x + Qsum (map h l))%Q.
Proof.
  induction 1 as [|k l Hk Hnd IH]; intros Hin Hoff Hat.
  - now apply elem_of_nil in Hin.
  - simpl. apply elem_of_cons in Hin as [<-|Hin].
    + rewrite Hat, (Qsum_same g h l); [ring|].
      intros k Hkl. apply Hoff; [now apply list_elem_of_further|]. intros ->. contradiction.
    + rewrite IH; [|assumption| |assumption].
      * rewrite (Hoff k); [ring|apply list_elem_of_here|]. intros ->. contradiction.
      * intros k' Hk' Hne. apply Hoff; [now apply list_elem_of_further|assumption].
Qed.

(** Summing group by group is summing the rows: over distinct keys that
    cover the rows, and for any choice [sel] among the keys. *)
Lemma Qsum_groups (sel : string * string -> bool) (df : list LoddRow) :
  forall keys : list (string * string),
    NoDup keys -> (forall r, r ∈ df -> key r ∈ keys) ->
    (Qsum (map (fun k => Qsum (map Brutto (List.filter (has_key k) df)))
               (List.filter sel keys))
     == Qsum (map Brutto (List.filter (fun r => sel (key r)) df)))%Q.
Proof.
  induction df as [|r df IH]; intros keys Hnd Hcov.
  - simpl. induction (List.filter sel keys) as [|k l IHl]; simpl; [reflexivity|].
    rewrite IHl. ring.
  - assert (Hcov' : forall r', r' ∈ df -> key r' ∈ keys)
      by (intros r' Hr'; apply Hcov; now apply list_elem_of_further).
    specialize (IH keys Hnd Hcov').
    assert (Hr : key r ∈ keys) by (apply Hcov, list_elem_of_here).
    set (g := fun k => Qsum (map Brutto (List.filter (has_key k) (r :: df)))).
    set (h := fun k => Qsum (map Brutto (List.filter (has_key k) df))) in *.
    assert (Hoff : forall k, k <> key r -> (g k == h k)%Q).
    { intros k Hne. unfold g, h. simpl. unfold has_key at 1.
      rewrite bool_decide_eq_false_2 by congruence. reflexivity. }
    assert (Hat : (g (key r) == Brutto r + h (key r))%Q).
    { unfold g, h. simpl. unfold has_key at 1.
      rewrite bool_decide_eq_true_2 by reflexivity. reflexivity. }
    simpl List.filter at 2. destruct (sel (key r)) eqn:Es.
    + simpl. rewrite <- IH. apply (Qsum_point g h (key r)).
      * now apply NoDup_filter_bool.
      * apply list_elem_of_In, List.filter_In. split; [now apply list_elem_of_In|exact Es].
      * intros k _ Hne. now apply Hoff.
      * exact Hat.
    + rewrite <- IH. apply Qsum_same. intros k Hk. apply Hoff. intros ->.
      apply list_elem_of_In, List.filter_In in Hk as [_ Hk]. congruence.
Qed.

Lemma group_keys_cover df r : r ∈ df -> key r ∈ group_keys df.
Proof. intros Hr. apply elem_of_group_keys. now exists r. Qed.


Lemma filter_true {A} (l : list A) : List.filter (fun _ => true) l = l.
Proof. induction l as [|x l IH]; simpl; congruence. Qed.



Lemma Qsum_whole (vals : list Q) :
  Forall is_whole vals ->
  exists z : Z, (Qsum vals == inject_Z z)%Q
                /\ (inject_Z (Z.abs z) <= Qsum (map Qabs vals))%Q.
Proof.
  induction 1 as [|v vals (zv & Hv) _ (z & Hz & Hb)].
  - exists 0%Z. split; [reflexivity|discriminate].
  - exists (zv + z)%Z. split; [simpl; now rewrite Hv, Hz, inject_Z_plus|].
    change (Qsum (map Qabs (v :: vals))) with (Qabs v + Qsum (map Qabs vals))%Q.
    assert (Hav : (Qabs v == inject_Z (Z.abs zv))%Q) by (rewrite Hv; reflexivity).
    rewrite Hav. apply Qle_trans with (inject_Z (Z.abs zv + Z.abs z)).
    + rewrite <- Zle_Qle. lia.
    + rewrite inject_Z_plus. lra.
Qed.

Lemma Qsum_abs_filter (p : LoddRow -> bool) (df : list LoddRow) :
  (Qsum (map (fun r => Qabs (Brutto r)) (List.filter p df))
   <= Qsum (map (fun r => Qabs (Brutto r)) df))%Q.
Proof.
  induction df as [|r df IH]; simpl; [apply Qle_refl|].
  pose proof (Qabs_nonneg (Brutto r)). destruct (p r); simpl; lra.
Qed.

Lemma whole_amounts_group df k :
  whole_amounts df ->
  Forall is_whole (map Brutto (List.filter (has_key k) df))
  /\ (Qsum (map Qabs (map Brutto (List.filter (has_key k) df))) <= inject_Z (2 ^ 52))%Q.
Proof.
  intros [Hw Hb]. split.
  - apply Forall_forall. intros x Hx. apply list_elem_of_fmap in Hx as (r & -> & Hr).
    apply list_elem_of_In, List.filter_In in Hr as [Hr _]. apply list_elem_of_In in Hr.
    rewrite Forall_forall in Hw. exact (Hw r Hr).
  - rewrite map_map. eapply Qle_trans; [apply Qsum_abs_filter|exact Hb].
Qed.

(** The amount of a group of whole amounts is their sum itself, a whole
    number of at most 2^52 in size. *)
Lemma group_row_exact df k :
  whole_amounts df ->
  (Brutto (group_row df k) == Qsum (map Brutto (List.filter (has_key k) df)))%Q
  /\ exists B : Z, (Brutto (group_row df k) == inject_Z B)%Q /\ (Z.abs B <= 2 ^ 52)%Z.
Proof.
  intros H. destruct (whole_amounts_group df k H) as [Hw Hb].
  assert (He : (Brutto (group_row df k)
                == Qsum (map Brutto (List.filter (has_key k) df)))%Q).
  { cbn [group_row Brutto]. apply group_sum_exact; [exact Hw|].
    eapply Qle_trans; [exact Hb|]. rewrite <- Zle_Qle. lia. }
  split; [exact He|].
  destruct (Qsum_whole _ Hw) as (B & HB & Habs). exists B. split; [now rewrite He|].
  rewrite Zle_Qle. eapply Qle_trans; [exact Habs|exact Hb].
Qed.

Lemma lodd_of_proper rd (x y : Q) : (x == y)%Q -> lodd_of rd x = lodd_of rd y.
Proof.
  intros H. destruct rd; simpl; [apply Qfloor_comp; exact H|].
  f_equal. now apply round_half_even_proper.
Qed.

Lemma lodd_of_Z rd (k : Z) (x : Q) :
  (Z.abs k <= 2 ^ 53)%Z -> (x == inject_Z k)%Q -> lodd_of rd x = k.
Proof.
  intros Hk H. rewrite (lodd_of_proper rd _ _ H). destruct rd; simpl; [apply Qfloor_Z|].
  rewrite round_half_even_Z. apply astype_int_fits. lia.
Qed.

Lemma whole_amounts_Permutation df1 df2 :
  df1 ≡ₚ df2 -> whole_amounts df1 -> whole_amounts df2.
Proof.
  intros Hp [Hw Hb]. split; [now rewrite <- Hp|].
  eapply Qle_trans; [|exact Hb]. apply Qle_lteq. right.
  clear Hw Hb. induction Hp as [|x l1 l2 _ IH|x y l|l1 l2 l3 _ IH1 _ IH2]; simpl.
  - reflexivity.
  - now rewrite IH.
  - ring.
  - now rewrite IH2.
Qed.

(** The row of [agg] for a group of whole amounts: the raw count is the
    rounded quotient of a whole number [B] by the price. *)
Lemma agg_row_whole cfg df k :
  whole_amounts df ->
  exists B : Z,
    (Z.abs B <= 2 ^ 52)%Z
    /\ (Brutto (agg_row_of cfg (group_row df k)) == inject_Z B)%Q
    /\ (Lodd_raw (agg_row_of cfg (group_row df k))
        == float64 (inject_Z B / inject_Z (loddpris cfg)))%Q.
Proof.
  intros H. destruct (proj2 (group_row_exact df k H)) as (B & HB & Hb).
  exists B. split; [exact Hb|]. split; [exact HB|].
  cbn [agg_row_of Lodd_raw]. apply float64_proper. now rewrite HB.
Qed.

(** When rounding down, the ticket count of a group of whole amounts is
    the quotient of the integer division of the amount by the price. *)
Lemma floor_count_whole cfg df (a : AggRow) :
  whole_amounts df ->
  (1 <= loddpris cfg <= 2 ^ 53)%Z ->
  round_down cfg = true ->
  a ∈ agg_of cfg df ->
  exists B : Z, (Brutto a == inject_Z B)%Q /\ Lodd a = (B / loddpris cfg)%Z.
Proof.
  intros Hw Hp Hrd Ha. pose proof (Lodd_agg cfg df a Ha) as Hl.
  apply elem_of_agg in Ha as (k & _ & E).
  destruct (agg_row_whole cfg df k Hw) as (B & Hb & HB & Hraw). rewrite <- E in HB, Hraw.
  destruct (quotient_floor B (loddpris cfg) Hb Hp) as [Hfl _].
  exists B. split; [exact HB|].
  rewrite Hl, Hrd. cbn [lodd_of]. rewrite <- Hfl. apply Qfloor_comp. exact Hraw.
Qed.

End ExactFacts.

Import ExactFacts.

(** X10.  Whole amounts are added without rounding: when the amounts of
    [df_lodd] are whole numbers with sizes that add up to no more than
    2^52, the amount of every row of [agg] is the sum of the amounts of
    its rows of [df_lodd], and the amounts of [agg] add up to the amounts
    of [df_lodd]; no money is lost or made by the grouping. *)
Theorem whole_amounts_add_exactly (cfg : settings) (df_lodd : list LoddRow) :
  whole_amounts df_lodd ->
  (forall a : AggRow, a ∈ agg_of cfg df_lodd ->
     (Brutto a == Qsum (map Brutto (List.filter (has_key (key a)) df_lodd)))%Q)
  /\ (Qsum (map (fun a : AggRow => Brutto a) (agg_of cfg df_lodd))
      == Qsum (map Brutto df_lodd))%Q.
Proof.
  intros Hw. split.
  - intros a Ha. apply elem_of_agg in Ha as (k & _ & ->).
    rewrite key_agg_row_of, key_group_row. exact (proj1 (group_row_exact df_lodd k Hw)).
  - pose proof (Qsum_groups (fun _ => true) df_lodd (group_keys df_lodd)
                  (group_keys_NoDup df_lodd) (group_keys_cover df_lodd)) as H.
    rewrite !filter_true in H. rewrite <- H.
    unfold agg_of, groupby_sum. rewrite !map_map. apply Qsum_same.
    intros k _. exact (proj1 (group_row_exact df_lodd k Hw)).
Qed.

(** Payments of 15 kr, 25 kr and 40 kr. *)
Lemma whole_amounts_add_exactly_witness :
  let cfg := {| loddpris := 20; name_mode := Fullt_navn; round_down := true |} in
  let df_lodd := [ {| Bilde := "B"; Navn := "Per"; Brutto := 40 |};
                   {| Bilde := "A"; Navn := "Ola"; Brutto := 15 |};
                   {| Bilde := "A"; Navn := "Ola"; Brutto := 25 |} ] in
  (Qsum (map (fun a : AggRow => Brutto a) (agg_of cfg df_lodd)) == 80)%Q.
Proof.
  intros cfg df_lodd.
  assert (Hw : whole_amounts df_lodd).
  { split.
    - repeat constructor; [exists 40%Z|exists 15%Z|exists 25%Z]; reflexivity.
    - vm_compute. discriminate. }
  rewrite (proj2 (whole_amounts_add_exactly cfg df_lodd Hw)). reflexivity.
Defined.

(** X11.  Which groups [agg] has, and in which order, does not depend on
    the order of the rows of the report; [agg] as a whole is the same for
    two reports that have, for every artwork and name, the same rows in
    the same order, however the rows of different groups are interleaved;
    and for whole amounts the order of the rows does not matter at all.
    (The amount of a group is a sum of binary64 in the order of its rows,
    and for amounts with decimals it can change with that order.) *)
Theorem agg_groups_ignore_row_order (cfg : settings) (df1 df2 : list LoddRow) :
  (df1 ≡ₚ df2 ->
   map (fun a : AggRow => key a) (agg_of cfg df1)
   = map (fun a : AggRow => key a) (agg_of cfg df2))
  /\ ((forall k, List.filter (has_key k) df1 = List.filter (has_key k) df2) ->
      agg_of cfg df1 = agg_of cfg df2)
  /\ (df1 ≡ₚ df2 -> whole_amounts df1 ->
      Forall2 same_row (agg_of cfg df1) (agg_of cfg df2)).
Proof.
  split; [|split].
  - intros Hperm. rewrite !agg_keys. apply group_keys_same.
    intros k. now rewrite Hperm.
  - intros Hrows.
    assert (Hkeys : group_keys df1 = group_keys df2).
    { apply group_keys_same. intros k. rewrite !key_in_rows. now rewrite Hrows. }
    unfold agg_of, groupby_sum. rewrite Hkeys. f_equal.
    apply map_ext. intros k. unfold group_row. now rewrite Hrows.
  - intros Hperm Hw1. pose proof (whole_amounts_Permutation _ _ Hperm Hw1) as Hw2.
    assert (Hkeys : group_keys df1 = group_keys df2).
    { apply group_keys_same. intros k. now rewrite Hperm. }
    unfold agg_of, groupby_sum. rewrite Hkeys.
    apply Forall2_fmap, Forall2_fmap, Forall_Forall2_diag, Forall_forall.
    intros k _.
    assert (Hb : (Brutto (group_row df1 k) == Brutto (group_row df2 k))%Q).
    { rewrite (proj1 (group_row_exact df1 k Hw1)), (proj1 (group_row_exact df2 k Hw2)).
      apply (Qsum_filter_Permutation _ _ _ Hperm). }
    assert (Hraw : (Lodd_raw (agg_row_of cfg (group_row df1 k))
                    == Lodd_raw (agg_row_of cfg (group_row df2 k)))%Q).
    { cbn [agg_row_of Lodd_raw]. apply float64_proper. now rewrite Hb. }
    unfold same_row. split; [now rewrite !key_agg_row_of, !key_group_row|].
    split; [exact Hb|]. split; [exact Hraw|].
    cbn [agg_row_of Lodd]. apply lodd_of_proper. exact Hraw.
Qed.

(** Three payments of one buyer, 0.2 kr, 0.4 kr and 19.4 kr as [float]
    holds them, in two orders, and a payment of another buyer in between:
    the groups are the same, the ticket counts at 20 kr are not.  With
    15 kr and 25 kr the order makes no difference. *)
Lemma agg_groups_ignore_row_order_witness :
  let cfg := {| loddpris := 20; name_mode := Fullt_navn; round_down := true |} in
  let ola x := {| Bilde := "A"; Navn := "Ola"; Brutto := float64 x |} in
  let whole x := {| Bilde := "A"; Navn := "Ola"; Brutto := x |} in
  let per := {| Bilde := "B"; Navn := "Per"; Brutto := 40 |} in
  let df1 := [ola (2 # 10); ola (4 # 10); per; ola (194 # 10)] in
  let df2 := [ola (2 # 10); ola (194 # 10); ola (4 # 10); per] in
  let df3 := [per; ola (2 # 10); ola (4 # 10); ola (194 # 10)] in
  map (fun a : AggRow => key a) (agg_of cfg df1)
  = map (fun a : AggRow => key a) (agg_of cfg df2)
  /\ map Lodd (agg_of cfg df1) = [1; 2]%Z
  /\ map Lodd (agg_of cfg df2) = [0; 2]%Z
  /\ agg_of cfg df1 = agg_of cfg df3
  /\ Forall2 same_row (agg_of cfg [per; per; whole 15%Q; whole 25%Q])
                      (agg_of cfg [whole 25%Q; per; whole 15%Q; per]).
Proof.
  intros cfg ola whole per df1 df2 df3.
  destruct (agg_groups_ignore_row_order cfg df1 df2) as (Hkeys & _ & _).
  destruct (agg_groups_ignore_row_order cfg df1 df3) as (_ & Hsame & _).
  destruct (agg_groups_ignore_row_order cfg [per; per; whole 15%Q; whole 25%Q]
                                        [whole 25%Q; per; whole 15%Q; per]) as (_ & _ & Hwhole).
  split; [|split; [vm_compute; reflexivity|split; [vm_compute; reflexivity|split]]].
  3:{ apply Hwhole.
      - etransitivity; [apply (Permutation_app_comm [per; per; whole 15%Q] [whole 25%Q])|].
        apply perm_skip, perm_skip, perm_swap.
      - split.
        + repeat constructor; [exists 40%Z|exists 40%Z|exists 15%Z|exists 25%Z]; reflexivity.
        + vm_compute. discriminate. }
  - apply Hkeys. unfold df1, df2.
    apply perm_skip.
    exact (Permutation_app_comm [ola (4 # 10); per] [ola (194 # 10)]).
  - apply Hsame. intros [b n]. unfold df1, df3, has_key, key. cbn [List.filter Bilde Navn ola per].
    repeat case_bool_decide; congruence.
Defined.

(** X12.  For whole amounts with sizes that add up to no more than 2^52
    and a price from 1 to 2^53, a row of [agg] is in the table of amounts
    that do not go up in the price exactly when its ticket count is not
    its raw count, whichever rounding is chosen; and when rounding down,
    the ticket count is the quotient of the integer division of the
    amount by the price. *)
Theorem flagged_iff_rounded (cfg : settings) (df_lodd : list LoddRow) (a : AggRow) :
  whole_amounts df_lodd ->
  (1 <= loddpris cfg <= 2 ^ 53)%Z ->
  a ∈ agg_of cfg df_lodd ->
  (a ∈ non_multiple_of cfg (agg_of cfg df_lodd) <->
   ~ (Lodd_raw a == inject_Z (Lodd a))%Q)
  /\ (round_down cfg = true ->
      exists B : Z, (Brutto a == inject_Z B)%Q /\ Lodd a = (B / loddpris cfg)%Z).
Proof.
  intros Hw Hp Ha. pose proof (Lodd_agg cfg df_lodd a Ha) as Hl.
  pose proof Ha as Ha'. apply elem_of_agg in Ha' as (k & _ & E).
  destruct (agg_row_whole cfg df_lodd k Hw) as (B & Hb & HB & Hraw). rewrite <- E in HB, Hraw.
  destruct (quotient_floor B (loddpris cfg) Hb Hp) as [Hfl Hint].
  set (f := float64 (inject_Z B / inject_Z (loddpris cfg))) in *.
  assert (Hk : (Z.abs (B / loddpris cfg) <= 2 ^ 53)%Z).
  { assert (Z.abs (B / loddpris cfg) <= Z.abs B)%Z; [|lia].
    destruct (Z.le_gt_cases 0 B) as [H0|H0].
    - pose proof (Z.div_pos B (loddpris cfg) H0 ltac:(lia)).
      pose proof (Z.div_le_upper_bound B (loddpris cfg) B ltac:(lia) ltac:(nia)). lia.
    - pose proof (Z.div_lt_upper_bound B (loddpris cfg) 0 ltac:(lia) ltac:(lia)).
      pose proof (Z.div_le_lower_bound B (loddpris cfg) B ltac:(lia) ltac:(nia)). lia. }
  assert (Hsame : (Lodd_raw a == inject_Z (Lodd a))%Q <-> (B mod loddpris cfg = 0)%Z).
  { rewrite <- Hint. split.
    - intros H. exists (Lodd a). now rewrite <- Hraw.
    - intros (j & Hj).
      assert (Ej : j = (B / loddpris cfg)%Z) by (rewrite <- Hfl, Hj; symmetry; apply Qfloor_Z).
      rewrite Hl, (lodd_of_Z _ j); [now rewrite Hraw|lia|now rewrite Hraw]. }
  split.
  - unfold non_multiple_of.
    rewrite list_elem_of_In, List.filter_In, <- list_elem_of_In.
    rewrite is_non_multiple_spec, (Qmod_zero _ _ (proj1 Hp)), Hsame.
    assert (Hdiv : (exists j : Z, (Brutto a == inject_Z (j * loddpris cfg))%Q)
                   <-> (B mod loddpris cfg = 0)%Z).
    { split.
      - intros (j & Hj). rewrite HB in Hj. unfold Qeq in Hj. simpl in Hj.
        apply Z.mod_divide; [lia|]. exists j. lia.
      - intros Hm. apply Z.mod_divide in Hm as (j & Hj); [|lia].
        exists j. now rewrite HB, Hj. }
    rewrite Hdiv. tauto.
  - intros Hrd. exact (floor_count_whole cfg df_lodd a Hw Hp Hrd Ha).
Qed.

(** 45 kr at 20 kr is flagged and rounded, 40 kr is neither. *)
Lemma flagged_iff_rounded_witness :
  let cfg := {| loddpris := 20; name_mode := Fullt_navn; round_down := false |} in
  let df_lodd := [ {| Bilde := "A"; Navn := "Kari"; Brutto := 45 |};
                   {| Bilde := "A"; Navn := "Ola"; Brutto := 40 |} ] in
  exists a b : AggRow,
    agg_of cfg df_lodd = [a; b]
    /\ ~ (Lodd_raw a == inject_Z (Lodd a))%Q
    /\ (Lodd_raw b == inject_Z (Lodd b))%Q
    /\ non_multiple_of cfg (agg_of cfg df_lodd) = [a].
Proof.
  intros cfg df_lodd.
  set (a := agg_row_of cfg (group_row df_lodd ("A", "Kari"))).
  set (b := agg_row_of cfg (group_row df_lodd ("A", "Ola"))).
  assert (E : agg_of cfg df_lodd = [a; b]) by (vm_compute; reflexivity).
  assert (Hnm : non_multiple_of cfg (agg_of cfg df_lodd) = [a]) by (vm_compute; reflexivity).
  assert (Ha : a ∈ agg_of cfg df_lodd) by (rewrite E; apply list_elem_of_here).
  assert (Hw : whole_amounts df_lodd).
  { split.
    - repeat constructor; [exists 45%Z|exists 40%Z]; reflexivity.
    - vm_compute. discriminate. }
  assert (Hp : (1 <= loddpris cfg <= 2 ^ 53)%Z) by (vm_compute; split; discriminate).
  exists a, b. split; [exact E|]. split.
  - apply (proj1 (proj1 (flagged_iff_rounded cfg df_lodd a Hw Hp Ha))).
    rewrite Hnm. apply list_elem_of_here.
  - split; [vm_compute; reflexivity|exact Hnm].
Defined.

(** ** Negative ticket counts *)

Module SignFacts.

Lemma round_half_even_nonneg (x : Q) : (0 <= x)%Q -> (0 <= round_half_even x)%Z.
Proof.
  intros Hx. assert (Hf : (0 <= Qfloor x)%Z).
  { apply Qfloor_resp_le in Hx. exact Hx. }
  unfold round_half_even.
  destruct (x - inject_Z (Qfloor x) ?= 1 # 2)%Q; [destruct (Z.even (Qfloor x))| |]; lia.
Qed.

Lemma float64_nonneg (x : Q) : (0 <= x)%Q -> (0 <= float64 x)%Q.
Proof.
  intros Hx. unfold float64. rewrite <- (Qred_correct x) in Hx.
  set (r := Qred x) in *. set (e := fexp r).
  apply Qmult_le_0_compat; [|apply Qlt_le_weak, pow2_pos].
  change 0%Q with (inject_Z 0). rewrite <- Zle_Qle. apply round_half_even_nonneg.
  apply Qmult_le_0_compat; [exact Hx|apply Qlt_le_weak, pow2_pos].
Qed.

End SignFacts.

Import SignFacts.

(** X13.  With a price of at least 1, in either rounding, a negative
    ticket count, the kind that the tab of an artwork clamps to 0, only
    comes from a negative amount, the net of refunds, or else from a
    count that is beyond int64.  For whole amounts and when rounding
    down, a buyer who paid no less for an artwork than another gets no
    fewer tickets, and every negative amount gives a negative count. *)
Theorem tickets_follow_the_amount (cfg : settings) (df_lodd : list LoddRow) (a b : AggRow) :
  (1 <= loddpris cfg)%Z ->
  a ∈ agg_of cfg df_lodd ->
  b ∈ agg_of cfg df_lodd ->
  ((Lodd a < 0)%Z ->
   (Brutto a < 0)%Q \/ (2 ^ 63 <= round_half_even (Lodd_raw a))%Z)
  /\ (whole_amounts df_lodd -> (loddpris cfg <= 2 ^ 53)%Z -> round_down cfg = true ->
      ((Brutto a <= Brutto b)%Q -> (Lodd a <= Lodd b)%Z)
      /\ ((Brutto a < 0)%Q -> (Lodd a < 0)%Z)).
Proof.
  intros Hp Ha Hb. split.
  - intros Hneg.
    destruct (Qlt_le_dec (Brutto a) 0) as [Hlt|Hge]; [now left|right].
    assert (Hraw : (0 <= Lodd_raw a)%Q).
    { rewrite (Lodd_raw_agg cfg df_lodd a Ha). apply float64_nonneg.
      apply Qle_shift_div_l; [|lra]. change 0%Q with (inject_Z 0). rewrite <- Zlt_Qlt. lia. }
    rewrite (Lodd_agg cfg df_lodd a Ha) in Hneg. unfold lodd_of in Hneg.
    destruct (round_down cfg).
    + exfalso. apply Qfloor_resp_le in Hraw. change (Qfloor 0) with 0%Z in Hraw. lia.
    + pose proof (round_half_even_nonneg _ Hraw) as Hr.
      unfold astype_int in Hneg.
      destruct (Z.leb_spec (- 2 ^ 63) (round_half_even (Lodd_raw a)));
        destruct (Z.ltb_spec (round_half_even (Lodd_raw a)) (2 ^ 63)); simpl in Hneg; lia.
  - intros Hw Hp' Hrd.
    destruct (floor_count_whole cfg df_lodd a Hw (conj Hp Hp') Hrd Ha) as (A & HA & HLa).
    destruct (floor_count_whole cfg df_lodd b Hw (conj Hp Hp') Hrd Hb) as (B & HB & HLb).
    rewrite HA, HB, HLa, HLb, <- Zle_Qle. change 0%Q with (inject_Z 0). rewrite <- Zlt_Qlt.
    split.
    + intros Hle. apply Z.div_le_mono; lia.
    + intros Hneg. apply Z.div_lt_upper_bound; lia.
Qed.

(** A net refund of 5 kr and a purchase of 45 kr at 20 kr a ticket. *)
Lemma tickets_follow_the_amount_witness :
  let cfg := {| loddpris := 20; name_mode := Fullt_navn; round_down := true |} in
  let df_lodd := [ {| Bilde := "A"; Navn := "Kari"; Brutto := 35 |};
                   {| Bilde := "A"; Navn := "Ola"; Brutto := 45 |};
                   {| Bilde := "A"; Navn := "Kari"; Brutto := (-40) |} ] in
  exists a b : AggRow,
    agg_of cfg df_lodd = [a; b]
    /\ (Lodd a <= Lodd b)%Z /\ (Lodd a < 0)%Z /\ (Brutto a < 0)%Q.
Proof.
  intros cfg df_lodd.
  set (a := agg_row_of cfg (group_row df_lodd ("A", "Kari"))).
  set (b := agg_row_of cfg (group_row df_lodd ("A", "Ola"))).
  assert (E : agg_of cfg df_lodd = [a; b]) by (vm_compute; reflexivity).
  assert (Ha : a ∈ agg_of cfg df_lodd) by (rewrite E; apply list_elem_of_here).
  assert (Hb : b ∈ agg_of cfg df_lodd)
    by (rewrite E; apply list_elem_of_further, list_elem_of_here).
  assert (Hp : (1 <= loddpris cfg)%Z) by (vm_compute; discriminate).
  assert (Hw : whole_amounts df_lodd).
  { split.
    - repeat constructor; [exists 35%Z|exists 45%Z|exists (-40)%Z]; reflexivity.
    - vm_compute. discriminate. }
  destruct (tickets_follow_the_amount cfg df_lodd a b Hp Ha Hb) as [Hsign Hwhole].
  destruct (Hwhole Hw ltac:(vm_compute; discriminate) eq_refl) as [Hmono Hneg].
  assert (Hlt : (Brutto a < 0)%Q) by (vm_compute; reflexivity).
  exists a, b. split; [exact E|]. split; [|split; [exact (Hneg Hlt)|]].
  - apply Hmono. vm_compute. discriminate.
  - destruct (Hsign (Hneg Hlt)) as [H|H]; [exact H|].
    exfalso. vm_compute in H. now apply H.
Defined.

(** ** The ticket list, the metrics and the top 10 of an artwork *)

Module ViewFacts.

Lemma clamped_nonneg agg b (r : SubRow) : r ∈ sub_of agg b -> (0 <= Lodd_clamped r)%Z.
Proof.
  intros Hr. pose proof (sub_clamped agg b) as H. rewrite Forall_forall in H.
  rewrite (H r Hr). lia.
Qed.

Lemma Zsum_nonneg (l : list Z) : Forall (fun z => (0 <= z)%Z) l -> (0 <= Zsum l)%Z.
Proof. induction 1; simpl; lia. Qed.

Lemma wheel_names_length (l : list SubRow) :
  Forall (fun r : SubRow => (0 <= Lodd_clamped r)%Z) l ->
  length (wheel_names_of l) = Z.to_nat (Zsum (map Lodd_clamped l)).
Proof.
  induction 1 as [|r l Hr Hl IH]; [reflexivity|].
  change (wheel_names_of (r :: l))
    with ((if (Lodd_clamped r <=? 0)%Z then []
           else replicate (Z.to_nat (Lodd_clamped r)) (Navn r)) ++ wheel_names_of l).
  rewrite length_app, IH. simpl.
  assert (0 <= Zsum (map Lodd_clamped l))%Z.
  { apply Zsum_nonneg, Forall_forall. intros z Hz.
    apply list_elem_of_fmap in Hz as (r' & -> & Hr'). rewrite Forall_forall in Hl. now apply Hl. }
  destruct (Z.leb_spec (Lodd_clamped r) 0); [simpl|rewrite length_replicate]; lia.
Qed.

Lemma wheel_names_from (l : list SubRow) n :
  n ∈ wheel_names_of l -> exists r : SubRow, r ∈ l /\ Navn r = n.
Proof.
  unfold wheel_names_of. intros H. apply list_elem_of_In, in_flat_map in H as (r & Hr & Hn).
  exists r. split; [now apply list_elem_of_In|].
  destruct (Lodd_clamped r <=? 0)%Z; [destruct Hn|].
  apply list_elem_of_In, elem_of_replicate in Hn as [-> _]. reflexivity.
Qed.

Lemma remove_dups_block {A} `{EqDecision A} (n : nat) (x : A) (l : list A) :
  x ∉ l -> remove_dups (replicate (S n) x ++ l) = x :: remove_dups l.
Proof.
  intros Hx. induction n as [|n IH].
  - change (replicate 1 x ++ l) with (x :: l). cbn [remove_dups].
    destruct (decide_rel elem_of x l); [contradiction|reflexivity].
  - change (replicate (S (S n)) x ++ l) with (x :: (replicate (S n) x ++ l)).
    cbn [remove_dups]. rewrite IH.
    destruct (decide_rel elem_of x (replicate (S n) x ++ l)) as [_|Hn]; [reflexivity|].
    exfalso. apply Hn. apply list_elem_of_here.
Qed.

(** The names of the ticket list, each once, are the names of the rows
    with tickets. *)
Lemma wheel_names_distinct (l : list SubRow) :
  NoDup (map (fun r : SubRow => Navn r) l) ->
  remove_dups (wheel_names_of l)
  = map (fun r : SubRow => Navn r) (List.filter has_lodd l).
Proof.
  induction l as [|r l IH]; intros Hnd; [reflexivity|].
  apply NoDup_cons in Hnd as [Hr Hnd].
  change (wheel_names_of (r :: l))
    with ((if (Lodd_clamped r <=? 0)%Z then []
           else replicate (Z.to_nat (Lodd_clamped r)) (Navn r)) ++ wheel_names_of l).
  simpl List.filter. unfold has_lodd at 1.
  destruct (Z.leb_spec (Lodd_clamped r) 0) as [Hle|Hgt].
  - destruct (Z.ltb_spec 0 (Lodd_clamped r)); [lia|]. simpl. now apply IH.
  - destruct (Z.ltb_spec 0 (Lodd_clamped r)); [|lia].
    destruct (Z.to_nat (Lodd_clamped r)) as [|n] eqn:En; [lia|].
    rewrite remove_dups_block.
    + simpl. now rewrite IH.
    + intros Hin. apply wheel_names_from in Hin as (r' & Hr' & Hn). apply Hr.
      apply list_elem_of_fmap. now exists r'.
Qed.

Lemma filter_sorted {A} (R : relation A) (p : A -> bool) (l : list A) :
  StronglySorted R l -> StronglySorted R (List.filter p l).
Proof.
  induction 1 as [|x l Hl IH Hx]; simpl; [constructor|].
  destruct (p x); [|exact IH]. constructor; [exact IH|].
  apply Forall_forall. intros y Hy. apply list_elem_of_In, List.filter_In in Hy as [Hy _].
  rewrite Forall_forall in Hx. apply Hx. now apply list_elem_of_In.
Qed.

End ViewFacts.

Import ViewFacts.

(** X14.  The metric "Lodd" of an artwork is the number of lines of its
    ticket list, and the metric "Kjopere" is the number of different names
    in it. *)
Theorem metrics_count_the_ticket_list (cfg : settings) (df_lodd : list LoddRow) (b : string) :
  let t := tab_of (agg_of cfg df_lodd) b in
  (0 <= total_lodd t)%Z
  /\ Z.of_nat (length (wheel_names t)) = total_lodd t
  /\ Z.of_nat (length (remove_dups (wheel_names t))) = buyers t.
Proof.
  intros t. unfold t, tab_of. cbn [total_lodd wheel_names buyers].
  assert (Hpos : Forall (fun r : SubRow => (0 <= Lodd_clamped r)%Z)
                        (sub_of (agg_of cfg df_lodd) b)).
  { apply Forall_forall. intros r Hr. now apply (clamped_nonneg (agg_of cfg df_lodd) b). }
  assert (Hsum : (0 <= Zsum (map Lodd_clamped (sub_of (agg_of cfg df_lodd) b)))%Z).
  { apply Zsum_nonneg, Forall_forall. intros z Hz.
    apply list_elem_of_fmap in Hz as (r & -> & Hr). now apply (clamped_nonneg (agg_of cfg df_lodd) b). }
  split; [exact Hsum|]. split.
  - rewrite (wheel_names_length _ Hpos). lia.
  - rewrite (wheel_names_distinct _ (sub_names_NoDup cfg df_lodd b)).
    now rewrite length_map.
Qed.

(** X15.  The top 10 of an artwork has at most 10 rows, all with tickets,
    and is really the top: no row of the artwork outside it has more
    tickets than a row in it; with at most 10 buyers it has them all. *)
Theorem top10_is_the_top (cfg : settings) (df_lodd : list LoddRow) (b : string) :
  let t := tab_of (agg_of cfg df_lodd) b in
  length (top10 t) <= 10
  /\ (forall r : SubRow, r ∈ top10 t -> r ∈ sub t /\ (0 < Lodd_clamped r)%Z)
  /\ (forall r r' : SubRow, r ∈ top10 t -> r' ∈ sub t -> r' ∉ top10 t ->
        (Lodd_clamped r' <= Lodd_clamped r)%Z)
  /\ ((buyers t <= 10)%Z -> top10 t = List.filter has_lodd (sub t)).
Proof.
  intros t. unfold t, tab_of. cbn [top10 sub buyers]. unfold top10_of.
  set (F := List.filter has_lodd (sub_of (agg_of cfg df_lodd) b)).
  assert (Hin : forall r : SubRow, r ∈ take 10 F ->
                  r ∈ sub_of (agg_of cfg df_lodd) b /\ (0 < Lodd_clamped r)%Z).
  { intros r Hr.
    assert (HrF : r ∈ F) by (rewrite <- (take_drop 10 F); apply elem_of_app; now left).
    apply list_elem_of_In, List.filter_In in HrF as [Hs Hl].
    split; [now apply list_elem_of_In|]. now apply Z.ltb_lt in Hl. }
  split; [rewrite length_take; lia|]. split; [exact Hin|]. split.
  - intros r r' Hr Hr' Hout.
    destruct (has_lodd r') eqn:El.
    + assert (HF : r' ∈ F) by (apply list_elem_of_In, List.filter_In; split;
                               [now apply list_elem_of_In|exact El]).
      rewrite <- (take_drop 10 F) in HF. apply elem_of_app in HF as [HF|HF]; [contradiction|].
      assert (Hsorted : StronglySorted
                          (fun r1 r2 : SubRow => (Lodd_clamped r2 <= Lodd_clamped r1)%Z)
                          (take 10 F ++ drop 10 F)).
      { rewrite take_drop. apply filter_sorted. unfold sub_of.
        apply sub_clamped_order, sorted_group_sorted. }
      exact (StronglySorted_app_1_elem_of _ _ _ r r' Hsorted Hr HF).
    + unfold has_lodd in El. apply Z.ltb_ge in El.
      destruct (Hin r Hr) as [_ Hpos]. lia.
  - intros Hb. apply take_ge. fold F in Hb. lia.
Qed.

(** X16.  Every row of [agg] is shown in one tab and one only, the tab of
    its artwork. *)
Theorem every_row_in_one_tab (cfg : settings) (df_lodd : list LoddRow) (a : AggRow) :
  let agg := agg_of cfg df_lodd in
  let tabs := map (tab_of agg) (bilder_of agg) in
  a ∈ agg ->
  exists t, t ∈ tabs /\ bilde t = Bilde a /\ clamp a ∈ sub t
            /\ forall t', t' ∈ tabs -> clamp a ∈ sub t' -> t' = t.
Proof.
  intros agg tabs Ha. exists (tab_of agg (Bilde a)).
  split; [|split; [reflexivity|split]].
  - apply list_elem_of_fmap. exists (Bilde a). split; [reflexivity|].
    apply bilder_elem. now exists a.
  - cbn [sub tab_of]. apply elem_of_sub. now exists a.
  - intros t' Ht' Hin. apply list_elem_of_fmap in Ht' as (b' & -> & _).
    cbn [sub tab_of] in Hin. apply elem_of_sub in Hin as (a' & Hc & _ & Hb).
    injection Hc as <-. now rewrite Hb.
Qed.

(** One buyer of each of two artworks. *)
Lemma every_row_in_one_tab_witness :
  let cfg := {| loddpris := 20; name_mode := Fullt_navn; round_down := true |} in
  let df_lodd := [ {| Bilde := "A"; Navn := "Kari"; Brutto := 40 |};
                   {| Bilde := "B"; Navn := "Ola"; Brutto := 20 |} ] in
  let a := agg_row_of cfg {| Bilde := "B"; Navn := "Ola"; Brutto := group_sum [20%Q] |} in
  exists t, t ∈ map (tab_of (agg_of cfg df_lodd)) (bilder_of (agg_of cfg df_lodd))
            /\ bilde t = "B" /\ clamp a ∈ sub t.
Proof.
  intros cfg df_lodd a.
  assert (Ha : a ∈ agg_of cfg df_lodd).
  { apply elem_of_agg. exists ("B", "Ola"). split; [|reflexivity].
    assert (K : group_keys df_lodd = [("A", "Kari"); ("B", "Ola")])
      by (vm_compute; reflexivity).
    rewrite K. apply list_elem_of_further, list_elem_of_here. }
  destruct (every_row_in_one_tab cfg df_lodd a Ha) as (t & Ht & Hb & Hs & _).
  exists t. now repeat split.
Defined.

(** ** The mask and the name format *)

Module MaskFacts.

Lemma ci_contains_lower p : forall s, ci_contains p (map lower s) = ci_contains p s.
Proof.
  induction s as [|c s IH]; [reflexivity|].
  cbn [map]. cbn [ci_contains]. change (lower c :: map lower s) with (map lower (c :: s)).
  rewrite ci_split_lower. destruct (ci_split p (c :: s)) as [[w r]|]; [reflexivity|exact IH].
Qed.

Lemma first_token_app a rest :
  rest = "" \/ (exists rest', rest = String " " rest') ->
  first_token (a +:+ rest) = first_token a.
Proof.
  intros Hr. induction a as [|c a IH].
  - rewrite append_nil. destruct Hr as [->|(r' & ->)]; reflexivity.
  - rewrite append_cons. simpl. now rewrite IH.
Qed.

End MaskFacts.

Import MaskFacts.

Section MaskAndFormat.

Variable num_str : Q -> string.
Variable parse_number : string -> option Q.

(** X17.  The mask that selects the ticket rows looks at the transaction
    type up to whitespace at its ends and the case of its letters, and at
    the place up to the case of its letters. *)
Theorem mask_ignores_case_and_blanks (row1 row2 : Series) :
  lower_str (strip (py_str num_str (cell_at row1 "Transaksjonstype")))
  = lower_str (strip (py_str num_str (cell_at row2 "Transaksjonstype"))) ->
  lower_str (py_str num_str (cell_at row1 "Salgssted"))
  = lower_str (py_str num_str (cell_at row2 "Salgssted")) ->
  is_lodd_row num_str row1 = is_lodd_row num_str row2.
Proof.
  intros Ht Hs. unfold is_lodd_row. rewrite Ht. f_equal.
  rewrite <- (ci_contains_lower _ (chars (py_str num_str (cell_at row1 "Salgssted")))).
  rewrite <- (ci_contains_lower _ (chars (py_str num_str (cell_at row2 "Salgssted")))).
  now rewrite <- !chars_lower_str, Hs.
Qed.

Lemma build_full_name_starts (row : Series) :
  present (field num_str row "Fornavn") ->
  exists rest,
    build_full_name num_str row = field num_str row "Fornavn" +:+ rest
    /\ (rest = "" \/ exists rest', rest = String " " rest').
Proof.
  intros Hf. unfold build_full_name. rewrite (proj2 (present_test _) Hf).
  set (fn := field num_str row "Fornavn") in *. set (en := field num_str row "Etternavn").
  destruct (present_dec en) as [He|He].
  - rewrite (proj2 (present_test _) He). exists (" " +:+ en). split; [|right; now exists en].
    destruct Hf as [Hf _], He as [He _]. unfold strip.
    rewrite (rstrip_app fn (" " +:+ en));
      [|discriminate|apply (rstrip_app " " en); [assumption|apply rstrip_strip]].
    apply lstrip_app; [assumption|apply lstrip_strip].
  - rewrite (present_false _ He). exists "". split; [|now left].
    symmetry. apply append_empty_r.
Qed.

(** X18.  With the format "Kun fornavn" the name of a row with a first
    name is the first token of the trimmed first name, whatever the last
    name; so two buyers of one artwork whose first names start with the
    same token get one key, and one group. *)
Theorem kun_fornavn_merges_first_names (row1 row2 : Series) :
  present (field num_str row1 "Fornavn") ->
  present (field num_str row2 "Fornavn") ->
  (navn_of num_str Kun_fornavn row1 = first_token (field num_str row1 "Fornavn"))
  /\ (first_token (field num_str row1 "Fornavn") = first_token (field num_str row2 "Fornavn") ->
      extract_bilde (py_str num_str (cell_at row1 "Salgssted"))
      = extract_bilde (py_str num_str (cell_at row2 "Salgssted")) ->
      option_map key (tag_row num_str parse_number Kun_fornavn row1)
      = option_map key (tag_row num_str parse_number Kun_fornavn row2)).
Proof.
  intros H1 H2.
  assert (Hnavn : forall row, present (field num_str row "Fornavn") ->
            navn_of num_str Kun_fornavn row = first_token (field num_str row "Fornavn")).
  { intros row Hf. simpl. unfold kun_fornavn.
    destruct (build_full_name_clean num_str row) as (Ht & _ & He). rewrite Ht.
    destruct (build_full_name_starts row Hf) as (rest & Hb & Hr).
    destruct (build_full_name num_str row) eqn:E; [congruence|].
    cbn [nonempty]. rewrite Hb. now apply first_token_app. }
  split; [now apply Hnavn|].
  intros Htok Hbilde. unfold tag_row. rewrite Hbilde.
  destruct (extract_bilde (py_str num_str (cell_at row2 "Salgssted"))); [|reflexivity].
  cbn [option_map]. unfold key. cbn [Bilde Navn].
  rewrite (Hnavn row1 H1), (Hnavn row2 H2). now rewrite Htok.
Qed.

End MaskAndFormat.

(** A sale typed in capitals with blanks is a ticket row like the plain
    one. *)
Lemma mask_ignores_case_and_blanks_witness :
  let row1 : Series :=
    {[ "Salgssted" := CStr "LODD BILDE A"; "Transaksjonstype" := CStr " SALG " ]} in
  let row2 : Series :=
    {[ "Salgssted" := CStr "Lodd bilde a"; "Transaksjonstype" := CStr "Salg" ]} in
  is_lodd_row (fun _ => "") row1 = is_lodd_row (fun _ => "") row2
  /\ is_lodd_row (fun _ => "") row2 = true.
Proof.
  intros row1 row2. split; [|reflexivity].
  apply mask_ignores_case_and_blanks; reflexivity.
Defined.

(** Ola Hansen and Ola Berg buy tickets for artwork A. *)
Lemma kun_fornavn_merges_first_names_witness :
  let row1 : Series :=
    {[ "Salgssted" := CStr "Lodd bilde A"; "Transaksjonstype" := CStr "Salg";
       "Brutto" := CNum 15; "Fornavn" := CStr "Ola"; "Etternavn" := CStr "Hansen" ]} in
  let row2 : Series :=
    {[ "Salgssted" := CStr "Lodd bilde A"; "Transaksjonstype" := CStr "Salg";
       "Brutto" := CNum 15; "Fornavn" := CStr "Ola Johan"; "Etternavn" := CStr "Berg" ]} in
  let cfg := {| loddpris := 20; name_mode := Kun_fornavn; round_down := true |} in
  option_map key (tag_row (fun _ => "") (fun _ => None) Kun_fornavn row1)
  = option_map key (tag_row (fun _ => "") (fun _ => None) Kun_fornavn row2)
  /\ map (fun a : AggRow => (Navn a, Lodd a))
         (agg_of cfg (omap (tag_row (fun _ => "") (fun _ => None) Kun_fornavn) [row1; row2]))
     = [("Ola", 1%Z)].
Proof.
  intros row1 row2 cfg. split; [|reflexivity].
  assert (H1 : present (field (fun _ => "") row1 "Fornavn"))
    by (split; vm_compute; discriminate).
  assert (H2 : present (field (fun _ => "") row2 "Fornavn"))
    by (split; vm_compute; discriminate).
  apply (proj2 (kun_fornavn_merges_first_names (fun _ => "") (fun _ => None) row1 row2 H1 H2));
    reflexivity.
Defined.
